(** * Duplicate-file detection and resolution (separate_same_size_files.py)

    A shallow embedding of the duplicate engine of the toolkit: the
    fingerprint function [compute_md5], the scanner and union-find grouping
    of [find_duplicates_by_size_and_hash], the membership test
    [is_in_directory] and the retention and disposal loop of
    [handle_duplicates], together with the pieces of the Python runtime they
    call ([os.path], [hashlib.md5], [max], [dict.setdefault]).

    Strings are [string]; Python lists are [list]; dictionaries whose
    iteration order reaches the output are association lists in insertion
    order; the file system and the trash facility are explicit state. *)

From Stdlib Require Import ZArith Ascii String List Lia Bool.
From Stdlib.Strings Require Import Byte.
From stdpp Require Import base list strings relations.

Open Scope string_scope.
Open Scope list_scope.
Open Scope nat_scope.

(** ** Python [str] methods used by the program *)

Module Str.

(** [s.startswith(p)] *)
Fixpoint startswith (s p : string) {struct p} : bool :=
  match p with
  | EmptyString => true
  | String c p' =>
      match s with
      | EmptyString => false
      | String d s' => if Ascii.eqb d c then startswith s' p' else false
      end
  end.

(** [s.endswith(c)] for a one-character suffix [c] *)
Fixpoint endswith_char (s : string) (c : ascii) : bool :=
  match s with
  | EmptyString => false
  | String d EmptyString => Ascii.eqb d c
  | String _ s' => endswith_char s' c
  end.

(** [s.count(c)] for a one-character pattern [c] *)
Fixpoint count_char (s : string) (c : ascii) : nat :=
  match s with
  | EmptyString => 0
  | String d s' => (if Ascii.eqb d c then 1 else 0) + count_char s' c
  end.

(** [s.split(c)] for a one-character separator: never the empty list *)
Fixpoint split (s : string) (c : ascii) : list string :=
  match s with
  | EmptyString => [EmptyString]
  | String d s' =>
      if Ascii.eqb d c then EmptyString :: split s' c
      else match split s' c with
           | [] => [String d EmptyString]
           | h :: t => String d h :: t
           end
  end.

(** [c.join(l)] *)
Fixpoint join (c : string) (l : list string) : string :=
  match l with
  | [] => EmptyString
  | [x] => x
  | x :: r => x +:+ c +:+ join c r
  end.

(** [c * n] *)
Fixpoint repeat_str (c : string) (n : nat) : string :=
  match n with
  | O => EmptyString
  | S n' => c +:+ repeat_str c n'
  end.

(** [s[s.rfind(c)+1:]]: what follows the last occurrence of [c], the whole
    string when there is none *)
Fixpoint after_last (s : string) (c : ascii) : string :=
  match s with
  | EmptyString => EmptyString
  | String d s' =>
      if Nat.ltb 0 (count_char s' c) then after_last s' c
      else if Ascii.eqb d c then s'
      else s
  end.

End Str.

(** ** [os.path] on a POSIX system (posixpath) *)

Module OsPath.

Definition sep : ascii := "/"%char.
Definition sep_s : string := "/".

(** [isabs(s)] *)
Definition isabs (s : string) : bool := Str.startswith s sep_s.

(** [join(a, b)] with one further component *)
Definition join (a b : string) : string :=
  if Str.startswith b sep_s then b
  else if String.eqb a "" || Str.endswith_char a sep then a +:+ b
  else a +:+ sep_s +:+ b.

(** The loop of [normpath] over the components: [new_comps] is the list
    built so far, in order ([append] adds at the end, [pop] removes the
    last). [initial_slashes] is 0 when the path is relative. *)
Definition norm_step (initial_slashes : nat) (new_comps : list string)
    (comp : string) : list string :=
  if String.eqb comp "" || String.eqb comp "." then new_comps
  else if negb (String.eqb comp "..")
          || (Nat.eqb initial_slashes 0 && bool_decide (new_comps = []))
          || (negb (bool_decide (new_comps = []))
              && bool_decide (last new_comps = Some ".."))
       then new_comps ++ [comp]
       else if negb (bool_decide (new_comps = [])) then removelast new_comps
       else new_comps.

Definition initial_slashes_of (path : string) : nat :=
  if Str.startswith path sep_s then
    if Str.startswith path "//" && negb (Str.startswith path "///") then 2
    else 1
  else 0.

(** [normpath(path)] *)
Definition normpath (path : string) : string :=
  if String.eqb path "" then "."
  else
    let initial_slashes := initial_slashes_of path in
    let comps :=
      fold_left (norm_step initial_slashes) (Str.split path sep) [] in
    let path' := Str.join sep_s comps in
    let path'' :=
      if Nat.eqb initial_slashes 0 then path'
      else Str.repeat_str sep_s initial_slashes +:+ path' in
    if String.eqb path'' "" then "." else path''.

(** [abspath(path)]; [cwd] is what [os.getcwd()] returns *)
Definition abspath (cwd path : string) : string :=
  normpath (if isabs path then path else join cwd path).

(** [basename(p)] *)
Definition basename (p : string) : string := Str.after_last p sep.

End OsPath.

(** ** [is_in_directory] and [get_depth] *)

Section Paths.

(** The current working directory of the process. *)
Variable cwd : string.

Definition is_in_directory (file_path directory : string) : bool :=
  let file_path := OsPath.abspath cwd file_path in
  let directory := OsPath.abspath cwd directory in
  let directory_with_sep := OsPath.join directory "" in
  Str.startswith file_path directory_with_sep.

Definition get_depth (fp : string) : nat :=
  Str.count_char (OsPath.abspath cwd fp) OsPath.sep.

End Paths.

(** ** [hashlib.md5] (RFC 1321) *)

Module MD5.

Local Open Scope Z_scope.

Definition mask32 : Z := 4294967295.
Definition add32 (a b : Z) : Z := Z.land (a + b) mask32.
Definition not32 (a : Z) : Z := Z.lxor a mask32.
Definition rotl32 (x c : Z) : Z :=
  Z.lor (Z.land (Z.shiftl x c) mask32) (Z.shiftr x (32 - c)).

(** [floor(2^32 * abs(sin(i + 1)))] for [i] from 0 to 63 *)
Definition K : list Z :=
  [3614090360; 3905402710; 606105819; 3250441966;
   4118548399; 1200080426; 2821735955; 4249261313;
   1770035416; 2336552879; 4294925233; 2304563134;
   1804603682; 4254626195; 2792965006; 1236535329;
   4129170786; 3225465664; 643717713; 3921069994;
   3593408605; 38016083; 3634488961; 3889429448;
   568446438; 3275163606; 4107603335; 1163531501;
   2850285829; 4243563512; 1735328473; 2368359562;
   4294588738; 2272392833; 1839030562; 4259657740;
   2763975236; 1272893353; 4139469664; 3200236656;
   681279174; 3936430074; 3572445317; 76029189;
   3654602809; 3873151461; 530742520; 3299628645;
   4096336452; 1126891415; 2878612391; 4237533241;
   1700485571; 2399980690; 4293915773; 2240044497;
   1873313359; 4264355552; 2734768916; 1309151649;
   4149444226; 3174756917; 718787259; 3951481745].

(** Per-round left rotations *)
Definition S : list Z :=
  [7; 12; 17; 22; 7; 12; 17; 22; 7; 12; 17; 22; 7; 12; 17; 22;
   5; 9; 14; 20; 5; 9; 14; 20; 5; 9; 14; 20; 5; 9; 14; 20;
   4; 11; 16; 23; 4; 11; 16; 23; 4; 11; 16; 23; 4; 11; 16; 23;
   6; 10; 15; 21; 6; 10; 15; 21; 6; 10; 15; 21; 6; 10; 15; 21].

Definition state : Type := (Z * Z * Z * Z)%type.

Definition init : state := (1732584193, 4023233417, 2562383102, 271733878).

(** One of the 64 operations on the 16 words [M] of a block. *)
Definition operation (M : list Z) (st : state) (i : nat) : state :=
  let '(a, b, c, d) := st in
  let iz := Z.of_nat i in
  let '(f, g) :=
    if (i <? 16)%nat then (Z.lor (Z.land b c) (Z.land (not32 b) d), iz)
    else if (i <? 32)%nat
         then (Z.lor (Z.land d b) (Z.land (not32 d) c), (5 * iz + 1) mod 16)
    else if (i <? 48)%nat
         then (Z.lxor (Z.lxor b c) d, (3 * iz + 5) mod 16)
    else (Z.lxor c (Z.lor b (not32 d)), (7 * iz) mod 16) in
  let f' := add32 (add32 (add32 f a) (nth i K 0)) (nth (Z.to_nat g) M 0) in
  (d, add32 b (rotl32 f' (nth i S 0)), b, c).

(** Little-endian word of four bytes *)
Definition word_of (bs : list Z) : Z :=
  nth 0 bs 0 + Z.shiftl (nth 1 bs 0) 8 + Z.shiftl (nth 2 bs 0) 16
  + Z.shiftl (nth 3 bs 0) 24.

Definition words_of (block : list Z) : list Z :=
  map (fun k => word_of (firstn 4 (skipn (4 * k) block))) (seq 0 16).

Definition process_block (st : state) (block : list Z) : state :=
  let '(a0, b0, c0, d0) := st in
  let '(a, b, c, d) := fold_left (operation (words_of block)) (seq 0 64) st in
  (add32 a0 a, add32 b0 b, add32 c0 c, add32 d0 d).

(** Little-endian bytes of a number, [n] of them *)
Fixpoint le_bytes (n : nat) (x : Z) : list Z :=
  match n with
  | O => []
  | Datatypes.S n' => Z.land x 255 :: le_bytes n' (Z.shiftr x 8)
  end.

(** The message followed by the bit 1, zeros up to 56 modulo 64 bytes, and
    the length in bits on 64 bits. *)
Definition pad (msg : list Z) : list Z :=
  let len := Z.of_nat (length msg) in
  let zeros := Z.to_nat ((55 - len) mod 64) in
  msg ++ [128] ++ repeat 0 zeros ++ le_bytes 8 (Z.land (8 * len) 18446744073709551615).

Fixpoint process (nblocks : nat) (st : state) (bytes : list Z) : state :=
  match nblocks with
  | O => st
  | Datatypes.S n' =>
      process n' (process_block st (firstn 64 bytes)) (skipn 64 bytes)
  end.

Definition digest (msg : list Z) : list Z :=
  let padded := pad msg in
  let '(a, b, c, d) := process (length padded / 64)%nat init padded in
  le_bytes 4 a ++ le_bytes 4 b ++ le_bytes 4 c ++ le_bytes 4 d.

Definition hex_digit (x : Z) : ascii :=
  nth (Z.to_nat x)
      ["0"; "1"; "2"; "3"; "4"; "5"; "6"; "7"; "8"; "9";
       "a"; "b"; "c"; "d"; "e"; "f"]%char "0"%char.

Fixpoint hex (bs : list Z) : string :=
  match bs with
  | [] => EmptyString
  | b :: r => String (hex_digit (Z.shiftr b 4)) (String (hex_digit (Z.land b 15)) (hex r))
  end.

(** [hashlib.md5(msg).hexdigest()] *)
Definition hexdigest (msg : list byte) : string :=
  hex (digest (map (fun b => Z.of_N (Byte.to_N b)) msg)).

End MD5.

(** ** Python built-ins *)

(** [max(l, key=key)]: the first element whose key is the greatest (an
    element replaces the current one only when its key is strictly
    greater); [None] stands for the ValueError on an empty list. *)
Fixpoint max_from {A : Type} (key : A -> nat) (best : A) (l : list A) : A :=
  match l with
  | [] => best
  | x :: r =>
      if Nat.ltb (key best) (key x) then max_from key x r
      else max_from key best r
  end.

Definition py_max {A : Type} (key : A -> nat) (l : list A) : option A :=
  match l with
  | [] => None
  | x :: r => Some (max_from key x r)
  end.

(** [x in l] on a list of strings *)
Definition py_in (x : string) (l : list string) : bool :=
  existsb (String.eqb x) l.

(** Truth value of an optional string: [None] and [''] are false. *)
Definition truthy (o : option string) : bool :=
  match o with
  | None => false
  | Some s => negb (String.eqb s "")
  end.

(** ** Printed lines *)

(** The lines the program prints (the texts are left out, the paths and
    values they carry are kept). *)
Inductive line : Type :=
  | ErrorReading (file_path : string)
  | ScanningDirectory (directory : string)
  | CouldNotGetSize (file_path : string)
  | NoFilesFound
  | FinishedScanning (file_count : nat)
  | FoundDuplicateSet
  | Member (file_path : string)
  | RetainingKeepDirectory
  | RetainingDeepest (keep_file : string)
  | Trashed (fp : string)
  | FailedToTrash (fp : string).

(** [d.setdefault(k, []).append(v)] on a dictionary kept as the list of
    its items in insertion order *)
Fixpoint setdefault_append {K V : Type} `{EqDecision K}
    (d : list (K * list V)) (k : K) (v : V) : list (K * list V) :=
  match d with
  | [] => [(k, [v])]
  | (k', vs) :: rest =>
      if decide (k' = k) then (k', vs ++ [v]) :: rest
      else (k', vs) :: setdefault_append rest k v
  end.

(** ** The file system *)

(** What one call of [f.read(chunk_size)] does: it returns a chunk of
    bytes or raises. *)
Inductive read_result : Type :=
  | Chunk (data : list byte)
  | ReadRaises.

(** A regular file as the program observes it: what [os.path.getsize]
    returns ([None] when it raises), whether [open] succeeds, and what the
    successive reads do; after the listed reads, [read] returns [b'']. *)
Record file : Type := {
  file_size : option nat;
  file_opens : bool;
  file_reads : list read_result }.

(** What a symbolic link resolves to, as [os.stat] sees it. [ToFile f] is a
    link whose resolution ends at a regular file observed as [f], wherever
    that file lies: outside the scanned tree or in it. A scan needs no more;
    which entries of the scanned tree the resolution goes through is told
    apart from the tree, by [links] below, where entries are taken away. *)
Inductive link_target : Type :=
  | ToFile (f : file)
  | ToDirectory
  | ToOther
  | Dangling.

(** A directory entry. [Special] is a fifo, socket or device. A link is
    described by what it resolves to; every directory of the tree can be
    listed. *)
#[warnings="-register-all"]
Inductive node : Type :=
  | Regular (f : file)
  | Directory (entries : list (string * node))
  | Symlink (target : link_target)
  | Special.

(** The entries of the scanned directory, in listing order. *)
Definition tree : Type := list (string * node).

(** The regular file an entry resolves to, following links ([os.stat]). *)
Definition stat_file (n : node) : option file :=
  match n with
  | Regular f => Some f
  | Symlink (ToFile f) => Some f
  | _ => None
  end.

(** [os.path.isfile] *)
Definition isfile (n : node) : bool :=
  match stat_file n with Some _ => true | None => false end.

(** [os.path.getsize]; [None] when it raises *)
Definition getsize (n : node) : option nat :=
  match stat_file n with Some f => file_size f | None => None end.

(** [entry.is_dir()], which follows links *)
Definition entry_is_dir (n : node) : bool :=
  match n with
  | Directory _ => true
  | Symlink ToDirectory => true
  | _ => false
  end.

(** [os.path.islink] *)
Definition islink (n : node) : bool :=
  match n with Symlink _ => true | _ => false end.

(** [os.walk(top)], top-down and without following links: one triple per
    directory, the directory first and then its sub-directories in listing
    order. The names of [files] come with the entries they name. *)
Fixpoint walk (top : string) (n : node) {struct n}
    : list (string * list string * list (string * node)) :=
  match n with
  | Directory entries =>
      (top,
       map fst (filter (fun e => entry_is_dir (snd e)) entries),
       filter (fun e => negb (entry_is_dir (snd e))) entries)
      :: (fix walk_each (es : list (string * node)) :=
            match es with
            | [] => []
            | (dirname, sub) :: rest =>
                (if entry_is_dir sub && negb (islink sub)
                 then walk (OsPath.join top dirname) sub
                 else [])
                ++ walk_each rest
            end) entries
  | _ => []
  end.

(** The non-directory entries under [directory], each with the path
    [os.path.join(root, filename)] the program gives it. *)
Definition listed_files (directory : string) (fs : tree)
    : list (string * node) :=
  flat_map (fun '(root, _, files) =>
              map (fun e => (OsPath.join root (fst e), snd e)) files)
           (walk directory (Directory fs)).

(** The entry a path built by the scanner names: the first one, in the
    order of [os.walk], that the scanner would give this path. *)
Definition locate (directory : string) (fs : tree) (file_path : string)
    : option node :=
  snd <$> List.find (fun e => String.eqb (fst e) file_path)
                    (listed_files directory fs).

(** [open(file_path, 'rb')]: the reads of the file, [None] when [open]
    raises. *)
Definition open_rb (directory : string) (fs : tree) (file_path : string)
    : option (list read_result) :=
  match locate directory fs file_path with
  | Some n =>
      match stat_file n with
      | Some f => if file_opens f then Some (file_reads f) else None
      | None => None
      end
  | None => None
  end.

(** ** [compute_md5] *)

(** The [while True] loop: [md5_hash] is the sequence of bytes fed to the
    hash object so far; the boolean tells whether [read] raised. *)
Fixpoint read_loop (md5_hash : list byte) (reads : list read_result)
    : list byte * bool :=
  match reads with
  | [] => (md5_hash, false)
  | Chunk [] :: _ => (md5_hash, false)
  | Chunk data :: rest => read_loop (md5_hash ++ data) rest
  | ReadRaises :: _ => (md5_hash, true)
  end.

(** The digest returned and the line printed, if any. *)
Definition compute_md5 (directory : string) (fs : tree) (file_path : string)
    : string * list line :=
  match open_rb directory fs file_path with
  | None => (MD5.hexdigest [], [ErrorReading file_path])
  | Some reads =>
      let '(md5_hash, raised) := read_loop [] reads in
      (MD5.hexdigest md5_hash,
       if raised then [ErrorReading file_path] else [])
  end.

(** ** [find_duplicates_by_size_and_hash] *)

(** [size_dict], [file_count] and the lines printed so far *)
Definition scan_state : Type := list (nat * list string) * nat * list line.

(** The body of the loops over the file names of a directory [root]. *)
Definition scan_entry (root : string) (st : scan_state) (e : string * node)
    : scan_state :=
  let '(size_dict, file_count, out) := st in
  let file_path := OsPath.join root (fst e) in
  if isfile (snd e) then
    match getsize (snd e) with
    | None => (size_dict, file_count, out ++ [CouldNotGetSize file_path])
    | Some file_size =>
        (setdefault_append size_dict file_size file_path, file_count + 1, out)
    end
  else st.

Definition scan (directory : string) (fs : tree) (recursive : bool)
    : scan_state :=
  let st0 : scan_state := ([], 0, [ScanningDirectory directory]) in
  if recursive then
    foldl (fun st '(root, _, files) => foldl (scan_entry root) st files)
          st0 (walk directory (Directory fs))
  else
    foldl (scan_entry directory) st0 fs.

(** The nested functions [find] and [union]; [parent] is threaded through
    them. [None] stands for an exception (IndexError, or a recursion deeper
    than [fuel]). *)
Module UnionFind.

Fixpoint find (fuel : nat) (parent : list nat) (x : nat)
    : option (list nat * nat) :=
  match fuel with
  | O => None
  | S fuel' =>
      match parent !! x with
      | None => None
      | Some p =>
          if negb (Nat.eqb p x) then
            match find fuel' parent p with
            | None => None
            | Some (parent1, r) => Some (<[x := r]> parent1, r)
            end
          else Some (parent, p)
      end
  end.

Definition union (fuel : nat) (parent : list nat) (x y : nat)
    : option (list nat) :=
  match find fuel parent x with
  | None => None
  | Some (parent1, rx) =>
      match find fuel parent1 y with
      | None => None
      | Some (parent2, ry) =>
          if negb (Nat.eqb rx ry) then
            if decide (ry < length parent2) then Some (<[ry := rx]> parent2)
            else None
          else Some parent2
      end
  end.

End UnionFind.

(** [file_info[i][0] == file_info[j][0] or file_info[i][1] == file_info[j][1]] *)
Definition same_file (file_info : list (string * string)) (i j : nat)
    : option bool :=
  match file_info !! i, file_info !! j with
  | Some a, Some b =>
      Some (String.eqb (fst a) (fst b) || String.eqb (snd a) (snd b))
  | _, _ => None
  end.

(** Depth allowed to the recursion of [find]. It is never reached
    ([pair_loop_spec], [group_loop_prefix]), so [find] behaves as the
    unbounded recursion; the interpreter's own limit on the depth of
    recursion is left out. *)
Definition recursion_fuel (n : nat) : nat := S (n * n).

(** [for i in range(n): for j in range(i + 1, n): ...] *)
Definition pair_loop (file_info : list (string * string)) (n : nat)
    (parent : list nat) : option (list nat) :=
  foldl (fun acc i =>
           foldl (fun acc j =>
                    match acc with
                    | None => None
                    | Some parent =>
                        match same_file file_info i j with
                        | None => None
                        | Some true =>
                            UnionFind.union (recursion_fuel n) parent i j
                        | Some false => Some parent
                        end
                    end)
                 acc (seq (i + 1) (n - (i + 1))))
        (Some parent) (seq 0 n).

(** [for i in range(n): root = find(i); groups.setdefault(root, []).append(paths[i])] *)
Definition group_loop (paths : list string) (n : nat) (parent : list nat)
    : option (list nat * list (nat * list string)) :=
  foldl (fun acc i =>
           match acc with
           | None => None
           | Some (parent, groups) =>
               match UnionFind.find (recursion_fuel n) parent i with
               | None => None
               | Some (parent1, root) =>
                   match paths !! i with
                   | None => None
                   | Some path =>
                       Some (parent1, setdefault_append groups root path)
                   end
               end
           end)
        (Some (parent, [])) (seq 0 n).

(** The groups a size group [paths] with its [file_info] gives rise to. *)
Definition resolve (paths : list string) (file_info : list (string * string))
    : option (list (list string)) :=
  let n := length paths in
  let parent := seq 0 n in
  match pair_loop file_info n parent with
  | None => None
  | Some parent1 =>
      match group_loop paths n parent1 with
      | None => None
      | Some (_, groups) =>
          Some (filter (fun group => Nat.ltb 1 (length group))
                       (map snd groups))
      end
  end.

(** [for path in paths: file_info.append((compute_md5(path), basename(path)))] *)
Definition file_info_loop (directory : string) (fs : tree)
    (paths : list string) : list (string * string) * list line :=
  foldl (fun '(file_info, out) path =>
           let '(file_hash, printed) := compute_md5 directory fs path in
           (file_info ++ [(file_hash, OsPath.basename path)], out ++ printed))
        ([], []) paths.

(** [for size_val, paths in size_dict.items(): ...] *)
Definition bucket_loop (directory : string) (fs : tree)
    (size_dict : list (nat * list string))
    : option (list (list string)) * list line :=
  foldl (fun '(duplicate_groups, out) '(size_val, paths) =>
           if Nat.ltb (length paths) 2 then (duplicate_groups, out)
           else
             match duplicate_groups with
             | None => (None, out)
             | Some found =>
                 let '(file_info, printed) :=
                   file_info_loop directory fs paths in
                 match resolve paths file_info with
                 | None => (None, out ++ printed)
                 | Some groups => (Some (found ++ groups), out ++ printed)
                 end
             end)
        (Some [], []) size_dict.

Definition find_duplicates_by_size_and_hash (directory : string) (fs : tree)
    (recursive : bool) : option (list (list string)) * list line :=
  let '(size_dict, file_count, out) := scan directory fs recursive in
  if Nat.eqb file_count 0 then (Some [], out ++ [NoFilesFound])
  else
    let '(duplicate_groups, printed) := bucket_loop directory fs size_dict in
    (duplicate_groups, out ++ [FinishedScanning file_count] ++ printed).

(** ** The retention part of [handle_duplicates] *)

Section Retention.

Variable cwd : string.

(** The body of the loop of [handle_duplicates] up to the disposal: the
    files the program announces as retained ([immune], or [keep_file]) and
    [files_to_trash]. [None] stands for the ValueError of [max] on an empty
    group. *)
Definition retention (keep_directory : option string) (group : list string)
    : option (list string * list string) :=
  let depth_rule :=
    match py_max (get_depth cwd) group with
    | None => None
    | Some keep_file =>
        Some ([keep_file],
              filter (fun f => negb (String.eqb f keep_file)) group)
    end in
  match keep_directory with
  | Some kd =>
      if truthy keep_directory then
        let immune := filter (fun f => is_in_directory cwd f kd) group in
        let candidates := filter (fun f => negb (py_in f immune)) group in
        match immune with
        | _ :: _ => Some (immune, candidates)
        | [] => depth_rule
        end
      else depth_rule
  | None => depth_rule
  end.

End Retention.

(** ** The disposal part of [handle_duplicates] *)

Section Disposal.

(** The trash facility acts on a state of the outside world; the boolean
    tells whether [send2trash] returned ([true]) or raised an exception
    ([false]). *)
Context {World : Type}.
Variable send2trash : string -> World -> World * bool.
Variable cwd : string.

(** State of the loop: the world, the lines printed so far (latest last)
    and [total_trashed]. *)
Definition loop_state : Type := World * list line * nat.

(** [for fp in files_to_trash: try: send2trash(fp) ... except ...] *)
Fixpoint trash_loop (files_to_trash : list string) (st : loop_state)
    : loop_state :=
  match files_to_trash with
  | [] => st
  | fp :: rest =>
      let '(w, out, total_trashed) := st in
      let '(w', returned) := send2trash fp w in
      if returned
      then trash_loop rest (w', out ++ [Trashed fp], total_trashed + 1)
      else trash_loop rest (w', out ++ [FailedToTrash fp], total_trashed)
  end.

(** The line announcing the retained files. *)
Definition retaining_line (keep_directory : option string)
    (group retained : list string) : list line :=
  if truthy keep_directory
     && match keep_directory with
        | Some kd => existsb (fun f => is_in_directory cwd f kd) group
        | None => false
        end
  then [RetainingKeepDirectory]
  else match retained with
       | keep_file :: _ => [RetainingDeepest keep_file]
       | [] => []
       end.

(** [for group in duplicate_groups: ...]; the result is [None] when [max]
    raised ValueError on an empty group, which ends the function. *)
Fixpoint handle_loop (duplicate_groups : list (list string))
    (keep_directory : option string) (st : loop_state)
    : World * list line * option nat :=
  match duplicate_groups with
  | [] => let '(w, out, total_trashed) := st in (w, out, Some total_trashed)
  | group :: rest =>
      let '(w, out, total_trashed) := st in
      let out1 := out ++ [FoundDuplicateSet] ++ map Member group in
      match retention cwd keep_directory group with
      | None => (w, out1, None)
      | Some (retained, files_to_trash) =>
          let out2 := out1 ++ retaining_line keep_directory group retained in
          handle_loop rest keep_directory
            (trash_loop files_to_trash (w, out2, total_trashed))
      end
  end.

Definition handle_duplicates (duplicate_groups : list (list string))
    (keep_directory : option string) (w : World)
    : World * list line * option nat :=
  handle_loop duplicate_groups keep_directory (w, [], 0).

End Disposal.

(** ** The trash facility on the file system, and [main] *)

(** Where the symbolic links of the scanned tree lead. A tree tells, for a
    link, what it resolves to; [via path] tells, for the link that the
    scanner names [path], which entries of the scanned tree its resolution
    goes through, by the paths the scanner gives them: the links it passes
    and the file it ends at, as far as they lie in the scanned tree. It is
    empty for a link that leads out of the scanned tree at once. The scan
    does not depend on it; it matters when an entry is taken away. *)
Definition links : Type := string -> list string.

(** No link leads to an entry of the scanned tree. *)
Definition no_links : links := fun _ => [].

(** The entries of the scanned tree the resolution of the entry [n], named
    [path], goes through. *)
Definition resolves_through (via : links) (path : string) (n : node)
    : list string :=
  match n with
  | Symlink (ToFile _) => via path
  | _ => []
  end.

(** The entry [n], named [path], once the entry named [file_path] is gone:
    a link that resolves through it is left dangling. *)
Definition without (via : links) (path : string) (n : node)
    (file_path : string) : node :=
  if py_in file_path (resolves_through via path n) then Symlink Dangling
  else n.

(** The tree once the non-directory entry the scanner names [file_path] has
    been taken away: the entry is gone, and the links to it dangle. *)
Fixpoint remove_file (via : links) (top : string) (n : node)
    (file_path : string) {struct n} : node :=
  match n with
  | Directory entries =>
      Directory
        ((fix remove_each (es : list (string * node)) :=
            match es with
            | [] => []
            | (name, sub) :: rest =>
                if entry_is_dir sub
                then (name,
                      remove_file via (OsPath.join top name) sub file_path)
                     :: remove_each rest
                else if String.eqb (OsPath.join top name) file_path
                     then remove_each rest
                     else (name,
                           without via (OsPath.join top name) sub file_path)
                          :: remove_each rest
            end) entries)
  | _ => n
  end.

Definition remove_path (via : links) (directory : string) (fs : tree)
    (file_path : string) : tree :=
  match remove_file via directory (Directory fs) file_path with
  | Directory entries => entries
  | _ => fs
  end.

(** A trash facility that keeps its trash outside the scanned tree: a path
    listed in [locked] or naming no file makes the call raise; otherwise
    the file leaves the tree. *)
Definition fs_send2trash (via : links) (directory : string)
    (locked : list string) (fp : string) (fs : tree) : tree * bool :=
  if py_in fp locked then (fs, false)
  else match locate directory fs fp with
       | Some _ => (remove_path via directory fs fp, true)
       | None => (fs, false)
       end.

(** The tree with the entry [n] under the name [name] in the directory
    [.Trash-1000/files] of its top, which is made when it is not there; a
    name that is taken there gets a suffix. *)
Fixpoint into_trash (name : string) (n : node) (fs : tree) : tree :=
  match fs with
  | [] => [(".Trash-1000", Directory [("files", Directory [(name, n)])])]
  | (d, Directory [(f, Directory es)]) :: rest =>
      if String.eqb d ".Trash-1000" && String.eqb f "files"
      then (d, Directory
                 [(f, Directory
                        (es ++ [(if py_in name (map fst es)
                                 then name +:+ " 2" else name, n)]))])
           :: rest
      else (d, Directory [(f, Directory es)]) :: into_trash name n rest
  | e :: rest => e :: into_trash name n rest
  end.

(** A trash facility that keeps its trash in the scanned directory itself,
    as on the top directory of a mounted volume: the file moves to
    [.Trash-1000/files] under its name. *)
Definition volume_send2trash (via : links) (directory : string)
    (fp : string) (fs : tree) : tree * bool :=
  match locate directory fs fp with
  | Some n =>
      (into_trash (OsPath.basename fp) n (remove_path via directory fs fp),
       true)
  | None => (fs, false)
  end.

(** [keep_directory] as [main] sets it from the argument. *)
Definition keep_directory_of (cwd : string) (keep_directory_arg : option string)
    : option string :=
  if truthy keep_directory_arg
  then option_map (OsPath.abspath cwd) keep_directory_arg
  else None.

(** [args.recursive] as [main] sets it: a keep-directory turns it on. *)
Definition recursive_of (keep_directory_arg : option string)
    (recursive_arg : bool) : bool :=
  if truthy keep_directory_arg then true else recursive_arg.

Section Main.

Variable send2trash : string -> tree -> tree * bool.
Variable cwd : string.

(** [main] after the parsing and checking of its arguments: [directory]
    names the scanned directory [fs], and [keep_directory_arg], when given,
    names a directory. The result is the count printed at the end, [Some 0]
    when the program stops on finding no duplicate group; the lines [main]
    itself prints are left out. *)
Definition main (directory : string) (recursive_arg : bool)
    (keep_directory_arg : option string) (fs : tree)
    : tree * list line * option nat :=
  let keep_directory := keep_directory_of cwd keep_directory_arg in
  let recursive := recursive_of keep_directory_arg recursive_arg in
  match find_duplicates_by_size_and_hash directory fs recursive with
  | (None, out) => (fs, out, None)
  | (Some duplicate_groups, out) =>
      match duplicate_groups with
      | [] => (fs, out, Some 0)
      | _ :: _ =>
          let '(fs', printed, trashed_count) :=
            handle_duplicates send2trash cwd duplicate_groups keep_directory
                              fs in
          (fs', out ++ printed, trashed_count)
      end
  end.

End Main.

(** ** Sample trees *)

Definition plain_file (size : nat) (content : string) : node :=
  Regular {| file_size := Some size; file_opens := true;
             file_reads := [Chunk (list_byte_of_string content)] |}.

Definition unopenable_file (size : nat) : node :=
  Regular {| file_size := Some size; file_opens := false; file_reads := [] |}.

(** Scanned as [/a]: [x.mp4] and [b/x.mp4] have the same content, and
    [b/c/y.mp4] has the same size but another content and name. *)
Definition scenario_tree : tree :=
  [("x.mp4", plain_file 4 "H1H1");
   ("b", Directory [("x.mp4", plain_file 4 "H1H1");
                    ("c", Directory [("y.mp4", plain_file 4 "H2H2")])])].

(** Scanned as [/d]: [a/x.mp4] and [b/y.mp4] share the content, [b/y.mp4]
    and [c/y.mp4] share the name. *)
Definition chain_tree : tree :=
  [("a", Directory [("x.mp4", plain_file 4 "AAAA")]);
   ("b", Directory [("y.mp4", plain_file 4 "AAAA")]);
   ("c", Directory [("y.mp4", plain_file 4 "BBBB")])].

(** Scanned as [/d]: two files of one size that cannot be opened, under
    different names, and a readable one. *)
Definition unreadable_tree : tree :=
  [("p.mp4", unopenable_file 7); ("q.mp4", unopenable_file 7);
   ("r.mp4", plain_file 7 "content")].

(** Scanned as [/d]: a file, a link to a regular file, a link to nothing, a
    directory and a file whose size cannot be read. *)
Definition link_tree : tree :=
  [("f.mp4", plain_file 4 "AAAA");
   ("l.mp4", Symlink (ToFile {| file_size := Some 4; file_opens := true;
                                file_reads := [Chunk (list_byte_of_string "BBBB")] |}));
   ("broken", Symlink Dangling);
   ("sub", Directory [("g.mp4", plain_file 5 "CCCCC")]);
   ("gone.mp4", Regular {| file_size := None; file_opens := true;
                           file_reads := [] |});
   ("h.mp4", plain_file 5 "DDDDD")].

(** Scanned as [/d]: a file and, in a sub-directory, a symbolic link
    [../f.mp4] to it. *)
Definition alias_tree : tree :=
  [("f.mp4", plain_file 4 "AAAA");
   ("sub",
    Directory
      [("l.mp4",
        Symlink (ToFile {| file_size := Some 4; file_opens := true;
                           file_reads :=
                             [Chunk (list_byte_of_string "AAAA")] |}))])].

Definition alias_links : links :=
  fun path => if String.eqb path "/d/sub/l.mp4" then ["/d/f.mp4"] else [].

(** Scanned as [/d]: three files of three sizes. *)
Definition lone_tree : tree :=
  [("a.mp4", plain_file 1 "A"); ("b.mp4", plain_file 2 "BB");
   ("s", Directory [("c.mp4", plain_file 3 "CCC")])].

(** Scanned as [/d]: two files of one content, the second one read in two
    chunks. *)
Definition chunked_tree : tree :=
  [("one.mp4", plain_file 4 "ABCD");
   ("two.mp4",
    Regular {| file_size := Some 4; file_opens := true;
               file_reads := [Chunk (list_byte_of_string "AB");
                              Chunk (list_byte_of_string "CD")] |})].

(** ** Reference notions the scanner is compared with *)

(** Every entry below a directory [top], with the path obtained by joining
    the names from [top] down: the entries of the directory and, for each
    of them, the entries below it. *)
Fixpoint descendants (top : string) (n : node) {struct n}
    : list (string * node) :=
  match n with
  | Directory entries =>
      (fix each (es : list (string * node)) :=
         match es with
         | [] => []
         | (name, sub) :: rest =>
             (OsPath.join top name, sub)
             :: descendants (OsPath.join top name) sub ++ each rest
         end) entries
  | _ => []
  end.

(** The entries a scan visits: the direct children of the root, or all its
    descendants. *)
Definition visited (directory : string) (fs : tree) (recursive : bool)
    : list (string * node) :=
  if recursive then descendants directory (Directory fs)
  else map (fun e => (OsPath.join directory (fst e), snd e)) fs.

(** ** Reference notions the disposal is compared with *)

Section DisposalReference.

Context {World : Type}.
Variable send2trash : string -> World -> World * bool.
Variable cwd : string.

(** One call of the trash facility per path, in order, each on the world
    the previous call left; the outcomes are collected. *)
Fixpoint attempt_each (fps : list string) (w : World) : World * list bool :=
  match fps with
  | [] => (w, [])
  | fp :: rest =>
      let '(w1, returned) := send2trash fp w in
      let '(w2, outcomes) := attempt_each rest w1 in
      (w2, returned :: outcomes)
  end.

(** The discards of all groups, group after group. *)
Definition all_discards (keep_directory : option string)
    (duplicate_groups : list (list string)) : list string :=
  concat (map (fun group =>
                 match retention cwd keep_directory group with
                 | Some (_, files_to_trash) => files_to_trash
                 | None => []
                 end) duplicate_groups).

(** The disposal lines among the printed lines, as path and outcome. *)
Definition disposal_of_line (l : line) : option (string * bool) :=
  match l with
  | Trashed fp => Some (fp, true)
  | FailedToTrash fp => Some (fp, false)
  | _ => None
  end.

Definition disposals (out : list line) : list (string * bool) :=
  omap disposal_of_line out.

End DisposalReference.

(** * Notions used in the verification *)

(** A proper path component: not empty and free of separators. *)
Definition component (x : string) : Prop :=
  x <> "" /\ Str.count_char x OsPath.sep = 0.

(** A normalized directory is the root when it is [/] or [//]. *)
Definition is_root (d : string) : bool := bool_decide (d = "/" \/ d = "//").

(** The survivor of the depth rule: the first member, in the order of the
    group, whose depth is the greatest. *)
Definition first_deepest (cwd : string) (group : list string) (k : string)
    : Prop :=
  exists l1 l2,
    group = l1 ++ k :: l2
    /\ Forall (fun x => get_depth cwd x < get_depth cwd k) l1
    /\ Forall (fun x => get_depth cwd x <= get_depth cwd k) l2.

(** [reach parent d x r]: following [parent] from [x] leads in [d] steps to
    [r], which is its own parent. *)
Inductive reach (parent : list nat) : nat -> nat -> nat -> Prop :=
  | reach_root x :
      parent !! x = Some x -> reach parent 0 x x
  | reach_step d x p r :
      parent !! x = Some p -> p <> x -> reach parent d p r ->
      reach parent (S d) x r.

(** [parent] is a forest over [0..n-1] of height at most [k] whose roots
    are given by [rho]. *)
Definition represents (n k : nat) (rho : nat -> nat) (parent : list nat)
    : Prop :=
  length parent = n
  /\ forall x, x < n -> exists d, d <= k /\ reach parent d x (rho x).

(** The roots after [union(x, y)]. *)
Definition merged (rho : nat -> nat) (x y : nat) : nat -> nat :=
  fun z => if decide (rho z = rho y) then rho x else rho z.

(** The pairs [(i, j)] in the order the two loops visit them. *)
Definition all_pairs (n : nat) : list (nat * nat) :=
  flat_map (fun i => map (pair i) (seq (i + 1) (n - (i + 1)))) (seq 0 n).

(** The body of the inner loop. *)
Definition pair_step (file_info : list (string * string)) (fuel : nat)
    (acc : option (list nat)) (ij : nat * nat) : option (list nat) :=
  match acc with
  | None => None
  | Some parent =>
      match same_file file_info (fst ij) (snd ij) with
      | None => None
      | Some true => UnionFind.union fuel parent (fst ij) (snd ij)
      | Some false => Some parent
      end
  end.

(** Two indices are linked when the loops compare them and they share the
    digest or the name. *)
Definition linked (file_info : list (string * string)) (n : nat)
    : relation nat :=
  fun a b => a < b /\ b < n /\ same_file file_info a b = Some true.

(** The dictionary a sequence of [setdefault(k, []).append(v)] builds. *)
Definition group_by {K V : Type} `{EqDecision K} (xs : list (K * V))
    : list (K * list V) :=
  foldl (fun d kv => setdefault_append d (fst kv) (snd kv)) [] xs.

(** The values appended under the key [k], in order. *)
Definition values_of {K V : Type} `{EqDecision K} (k : K)
    (xs : list (K * V)) : list V :=
  map snd (filter (fun e => fst e = k) xs).

(** [paths[i]] *)
Definition path_of (paths : list string) (i : nat) : string :=
  default "" (paths !! i).

(** The classes of indices: one list per root, in increasing order, those
    of one member left out. *)
Definition classes (rho : nat -> nat) (n : nat) : list (list nat) :=
  filter (fun g => Nat.ltb 1 (length g))
         (map snd (group_by (map (fun i => (rho i, i)) (seq 0 n)))).

(** The entries the scanner examines, each with the path it builds: the
    entries of the directory itself, or the non-directory entries of every
    directory [os.walk] yields. *)
Definition examined (directory : string) (fs : tree) (recursive : bool)
    : list (string * node) :=
  if recursive then listed_files directory fs
  else map (fun e => (OsPath.join directory (fst e), snd e)) fs.

(** What an examined entry adds to [size_dict]. *)
Definition entry_item (e : string * node) : option (nat * string) :=
  if isfile (snd e) then
    match getsize (snd e) with
    | Some file_size => Some (file_size, fst e)
    | None => None
    end
  else None.

(** What the scanner prints about an examined entry. *)
Definition entry_warning (e : string * node) : option line :=
  if isfile (snd e) then
    match getsize (snd e) with
    | Some _ => None
    | None => Some (CouldNotGetSize (fst e))
    end
  else None.

(** The files found, each with its size, in the order of discovery. *)
Definition inventory (directory : string) (fs : tree) (recursive : bool)
    : list (nat * string) :=
  omap entry_item (examined directory fs recursive).

(** The digest and name of every path of a size group. *)
Definition file_info_of (directory : string) (fs : tree)
    (paths : list string) : list (string * string) :=
  fst (file_info_loop directory fs paths).

(** Two paths share the digest [compute_md5] returns, or the name. *)
Definition same_content_or_name (directory : string) (fs : tree)
    (p q : string) : bool :=
  String.eqb (fst (compute_md5 directory fs p))
             (fst (compute_md5 directory fs q))
  || String.eqb (OsPath.basename p) (OsPath.basename q).

(** The groups one size group contributes. *)
Definition groups_of_bucket (directory : string) (fs : tree)
    (paths : list string) : list (list string) :=
  if Nat.ltb (length paths) 2 then []
  else default [] (resolve paths (file_info_of directory fs paths)).

(** A real directory: what [os.walk] descends into. *)
Definition real_dir (n : node) : bool := entry_is_dir n && negb (islink n).

(** The files of the triples [os.walk] yields, with their paths. *)
Definition files_of (yields : list (string * list string * list (string * node)))
    : list (string * node) :=
  flat_map (fun '(root, _, files) =>
              map (fun e => (OsPath.join root (fst e), snd e)) files)
           yields.

(** The tree after the removal of several paths. *)
Definition remove_all (via : links) (directory : string) (fs : tree)
    (fps : list string) : tree :=
  foldl (remove_path via directory) fs fps.

(** A list of entries with their paths once the entry named [p] is gone. *)
Definition strike (via : links) (p : string) (l : list (string * node))
    : list (string * node) :=
  map (fun e => (fst e, without via (fst e) (snd e) p))
      (filter (fun e => fst e <> p) l).

Definition strike_all (via : links) (fps : list string)
    (l : list (string * node)) : list (string * node) :=
  foldl (fun l p => strike via p l) l fps.

(** The entries other than directories among those the scanner examines. *)
Definition file_entries (directory : string) (fs : tree) (recursive : bool)
    : list (string * node) :=
  if recursive then listed_files directory fs
  else map (fun e => (OsPath.join directory (fst e), snd e))
           (filter (fun e => negb (entry_is_dir (snd e))) fs).

(** The paths for which a call of the trash facility returned. *)
Definition returned_for (fps : list string) (outcomes : list bool)
    : list string :=
  omap (fun d : string * bool => if snd d then Some (fst d) else None)
       (zip fps outcomes).

(** The paths whose digest is computed: those of the size groups of two or
    more paths, size group after size group. *)
Definition hashed (size_dict : list (nat * list string)) : list string :=
  flat_map (fun e => if Nat.ltb (length (snd e)) 2 then [] else snd e)
           size_dict.

(** * Verification *)

Example ex_normpath_1 : OsPath.normpath "/a//b/./c/../d/" = "/a/b/d".
Proof. reflexivity. Qed.
Example ex_normpath_2 : OsPath.normpath "//a/../.." = "//".
Proof. reflexivity. Qed.
Example ex_normpath_3 : OsPath.normpath "///a/../.." = "/".
Proof. reflexivity. Qed.
Example ex_normpath_4 : OsPath.normpath "a/../../b" = "../b".
Proof. reflexivity. Qed.
Example ex_normpath_5 : OsPath.normpath "./" = ".".
Proof. reflexivity. Qed.
Example ex_abspath_1 : OsPath.abspath "/home/u" "v/../w/x.mp4" = "/home/u/w/x.mp4".
Proof. reflexivity. Qed.
Example ex_basename_1 : OsPath.basename "/a/b/x.mp4" = "x.mp4".
Proof. reflexivity. Qed.
Example ex_basename_2 : OsPath.basename "x.mp4" = "x.mp4".
Proof. reflexivity. Qed.
Example ex_basename_3 : OsPath.basename "/a/b/" = "".
Proof. reflexivity. Qed.
Example ex_md5_empty :
  MD5.hexdigest [] = "d41d8cd98f00b204e9800998ecf8427e".
Proof. by vm_compute. Qed.
Example ex_md5_abc :
  MD5.hexdigest (list_byte_of_string "abc")
  = "900150983cd24fb0d6963f7d28e17f72".
Proof. by vm_compute. Qed.
Example ex_md5_two_blocks :
  MD5.hexdigest (list_byte_of_string
    "aaaaaaaaaaaaaaaaaaaaaaaaaaaaaaaaaaaaaaaaaaaaaaaaaaaaaaaaaaaaaaaaaaaaaa")
  = "0f5c6c4e740bfcc08c3c26ccb2673d46".
Proof. by vm_compute. Qed.
Example ex_find_duplicates_scenario :
  find_duplicates_by_size_and_hash "/a" scenario_tree true
  = (Some [["/a/x.mp4"; "/a/b/x.mp4"]],
     [ScanningDirectory "/a"; FinishedScanning 3]).
Proof. by vm_compute. Qed.
Example ex_split_1 : Str.split "/a//b" "/" = [""; "a"; ""; "b"].
Proof. reflexivity. Qed.
Example ex_in_dir_1 : is_in_directory "/" "/keep/clip.mp4" "/keep" = true.
Proof. reflexivity. Qed.
Example ex_in_dir_2 : is_in_directory "/" "/keepers/x" "/keep" = false.
Proof. reflexivity. Qed.
Example ex_depth_1 : get_depth "/" "/a/b/x.mp4" = 3.
Proof. reflexivity. Qed.

(** ** Strings *)

Lemma ascii_eqb_true (a b : ascii) : Ascii.eqb a b = true <-> a = b.
Proof. apply Ascii.eqb_eq. Qed.

Lemma string_app_cons (c : ascii) (s t : string) :
  String c s +:+ t = String c (s +:+ t).
Proof. reflexivity. Qed.

Lemma string_app_nil_l (s : string) : "" +:+ s = s.
Proof. reflexivity. Qed.

Lemma string_app_nil_r (s : string) : s +:+ "" = s.
Proof.
  induction s as [|c s IH]; [done |]. by rewrite string_app_cons, IH.
Qed.

Lemma string_app_assoc (s t u : string) : (s +:+ t) +:+ u = s +:+ (t +:+ u).
Proof.
  induction s as [|c s IH]; [done |]. by rewrite !string_app_cons, IH.
Qed.

Lemma startswith_spec (s p : string) :
  Str.startswith s p = true <-> exists t, s = p +:+ t.
Proof.
  revert s. induction p as [|c p IH]; intros s; cbn.
  - split; [intros _; exists s; reflexivity | done].
  - destruct s as [|d s].
    + split; [done | intros [t Ht]; rewrite string_app_cons in Ht; discriminate].
    + destruct (Ascii.eqb d c) eqn:E.
      * apply ascii_eqb_true in E as ->. rewrite IH.
        split; intros [t Ht]; exists t.
        -- by rewrite string_app_cons, Ht.
        -- rewrite string_app_cons in Ht. by injection Ht.
      * split; [done | intros [t Ht]]. rewrite string_app_cons in Ht.
        injection Ht as -> _. by rewrite Ascii.eqb_refl in E.
Qed.

Lemma startswith_refl (s : string) : Str.startswith s s = true.
Proof. apply startswith_spec. exists "". by rewrite string_app_nil_r. Qed.

Lemma endswith_char_app (s t : string) (c : ascii) :
  t <> "" -> Str.endswith_char (s +:+ t) c = Str.endswith_char t c.
Proof.
  intros Ht. induction s as [|d s IH]; [done |].
  rewrite string_app_cons. cbn.
  destruct (s +:+ t) eqn:E; [| done].
  destruct s; [by rewrite string_app_nil_l in E | by rewrite string_app_cons in E].
Qed.

Lemma endswith_char_count (s : string) (c : ascii) :
  Str.count_char s c = 0 -> Str.endswith_char s c = false.
Proof.
  induction s as [|d s IH]; [done |]. cbn.
  destruct (Ascii.eqb d c); [done |]. cbn. intros H.
  destruct s; [done | auto].
Qed.

Lemma endswith_char_snoc (s : string) (c : ascii) :
  Str.endswith_char s c = true -> exists t, s = t +:+ String c "".
Proof.
  induction s as [|d s IH]; [done |]. cbn.
  destruct s as [|e s].
  - intros ->%ascii_eqb_true. by exists "".
  - intros [t Ht]%IH. exists (String d t). by rewrite string_app_cons, <- Ht.
Qed.

Lemma split_no_sep (s : string) (c : ascii) :
  Forall (fun x => Str.count_char x c = 0) (Str.split s c).
Proof.
  induction s as [|d s IH]; cbn.
  - by constructor.
  - destruct (Ascii.eqb d c) eqn:E.
    + by constructor.
    + destruct (Str.split s c) as [|h t].
      * constructor; [cbn; by rewrite E | done].
      * inversion IH; subst. constructor; [cbn; rewrite E; lia | done].
Qed.

(** ** [normpath] never leaves a trailing separator behind a component *)

Lemma Forall_removelast {A : Type} (P : A -> Prop) (l : list A) :
  Forall P l -> Forall P (removelast l).
Proof.
  induction 1 as [|x l Hx Hl IH]; [constructor |].
  cbn. destruct l; [constructor | by constructor].
Qed.

Lemma norm_step_components (k : nat) (acc : list string) (x : string) :
  Str.count_char x OsPath.sep = 0 ->
  Forall component acc -> Forall component (OsPath.norm_step k acc x).
Proof.
  intros Hx Hacc. unfold OsPath.norm_step.
  destruct (String.eqb x "") eqn:E; [done |]. cbn [orb].
  destruct (String.eqb x "."); [done |]. cbn [orb].
  apply String.eqb_neq in E.
  repeat match goal with
         | |- context [if ?b then _ else _] => destruct b
         end; try done; try (by apply Forall_removelast).
  all: apply Forall_app; split; [done | by repeat constructor].
Qed.

Lemma norm_fold_components (k : nat) (xs acc : list string) :
  Forall (fun x => Str.count_char x OsPath.sep = 0) xs ->
  Forall component acc ->
  Forall component (fold_left (OsPath.norm_step k) xs acc).
Proof.
  revert acc. induction xs as [|x xs IH]; intros acc Hxs Hacc; [done |].
  inversion Hxs; subst. cbn. apply IH; [done |].
  by apply norm_step_components.
Qed.

Lemma join_components_nonempty (l : list string) :
  Forall component l -> l <> [] -> Str.join OsPath.sep_s l <> "".
Proof.
  intros Hl Hne. destruct l as [|x r]; [done |].
  inversion Hl as [|? ? [Hx _] Hr]; subst.
  destruct r; cbn; [done |]. destruct x; [done | discriminate].
Qed.

Lemma join_components_no_trailing_sep (l : list string) :
  Forall component l ->
  Str.endswith_char (Str.join OsPath.sep_s l) OsPath.sep = false.
Proof.
  induction 1 as [|x r [Hx Hc] Hr IH]; [done |].
  destruct r as [|y r].
  - cbn. by apply endswith_char_count.
  - change (Str.join OsPath.sep_s (x :: y :: r))
      with (x +:+ OsPath.sep_s +:+ Str.join OsPath.sep_s (y :: r)).
    assert (Str.join OsPath.sep_s (y :: r) <> "")
      by (by apply join_components_nonempty).
    rewrite endswith_char_app.
    + rewrite endswith_char_app; done.
    + unfold OsPath.sep_s. by rewrite string_app_cons.
Qed.

Lemma normpath_trailing_sep (p : string) :
  Str.endswith_char (OsPath.normpath p) OsPath.sep = true ->
  OsPath.normpath p = "/" \/ OsPath.normpath p = "//".
Proof.
  unfold OsPath.normpath.
  destruct (String.eqb p ""); [done |].
  set (k := OsPath.initial_slashes_of p).
  assert (Hk : k = 0 \/ k = 1 \/ k = 2).
  { unfold k, OsPath.initial_slashes_of.
    repeat match goal with
           | |- context [if ?b then _ else _] => destruct b
           end; lia. }
  set (comps := fold_left (OsPath.norm_step k) (Str.split p OsPath.sep) []).
  assert (Hc : Forall component comps).
  { apply norm_fold_components; [apply split_no_sep | constructor]. }
  pose proof (join_components_no_trailing_sep comps Hc) as Hj.
  destruct (decide (comps = [])) as [-> | Hne].
  - destruct Hk as [-> | [-> | ->]]; cbn; auto; done.
  - pose proof (join_components_nonempty comps Hc Hne) as Hn.
    assert (Hpre : forall pre,
      Str.endswith_char
        (if String.eqb (pre +:+ Str.join OsPath.sep_s comps) "" then "."
         else pre +:+ Str.join OsPath.sep_s comps) OsPath.sep = false).
    { intros pre.
      destruct (String.eqb_spec (pre +:+ Str.join OsPath.sep_s comps) "")
        as [E | _]; [done |].
      by rewrite endswith_char_app. }
    destruct (Nat.eqb k 0).
    + specialize (Hpre ""). rewrite string_app_nil_l in Hpre. by rewrite Hpre.
    + by rewrite Hpre.
Qed.

Lemma normpath_nonempty (p : string) : OsPath.normpath p <> "".
Proof.
  unfold OsPath.normpath.
  destruct (String.eqb p ""); [done |].
  match goal with
  | |- context [String.eqb ?s ""] => destruct (String.eqb_spec s ""); done
  end.
Qed.

(** ** [is_in_directory] *)

Lemma string_length_app (s t : string) :
  String.length (s +:+ t) = String.length s + String.length t.
Proof.
  induction s as [|c s IH]; [done |]. rewrite string_app_cons. cbn. by rewrite IH.
Qed.

Lemma directory_with_sep (cwd d : string) :
  OsPath.join (OsPath.abspath cwd d) "" =
  if is_root (OsPath.abspath cwd d) then OsPath.abspath cwd d
  else OsPath.abspath cwd d +:+ "/".
Proof.
  unfold OsPath.abspath.
  set (ad := OsPath.normpath _).
  unfold OsPath.join. cbn [Str.startswith OsPath.sep_s].
  destruct (String.eqb_spec ad "") as [E | _];
    [by apply normpath_nonempty in E |]. cbn [orb].
  destruct (Str.endswith_char ad OsPath.sep) eqn:E.
  - apply normpath_trailing_sep in E. unfold is_root.
    rewrite bool_decide_eq_true_2 by done. apply string_app_nil_r.
  - unfold is_root. rewrite bool_decide_eq_false_2; [done |].
    intros [H | H]; rewrite H in E; discriminate.
Qed.

Lemma startswith_longer (s : string) : Str.startswith s (s +:+ "/") = false.
Proof.
  destruct (Str.startswith s (s +:+ "/")) eqn:E; [| done].
  apply startswith_spec in E as [t Ht].
  apply (f_equal String.length) in Ht.
  rewrite !string_length_app in Ht. cbn in Ht. lia.
Qed.

(** C10, as the code has it: the prefix tested is the normalized absolute
    directory followed by a separator, except that a root directory ([/] or
    [//]) already ends with a separator and is tested as it is. So a path
    equal to the directory is inside it exactly when the directory is a
    root, and [/keepers/x] is not inside [/keep]. *)
Theorem is_in_directory_prefix (cwd f d : string) :
  let af := OsPath.abspath cwd f in
  let ad := OsPath.abspath cwd d in
  (is_in_directory cwd f d = true <->
   exists rest, af = (if is_root ad then ad else ad +:+ "/") +:+ rest)
  /\ is_in_directory cwd d d = is_root ad
  /\ is_in_directory cwd "/keepers/x" "/keep" = false.
Proof.
  cbn zeta. unfold is_in_directory. rewrite directory_with_sep.
  split; [apply startswith_spec |]. split; [| reflexivity].
  destruct (is_root (OsPath.abspath cwd d)).
  - apply startswith_refl.
  - apply startswith_longer.
Qed.

(** C10 as stated fails at the root directory: [/x] is inside [/] although
    its absolute path does not begin with [//], and [/] is inside [/]. *)
Lemma is_in_directory_root_counterexample :
  is_in_directory "/home/u" "/x" "/" = true
  /\ Str.startswith (OsPath.abspath "/home/u" "/x")
       (OsPath.abspath "/home/u" "/" +:+ "/") = false
  /\ OsPath.abspath "/home/u" "/" = "/"
  /\ is_in_directory "/home/u" "/" "/" = true.
Proof. repeat split. Qed.

(** ** The retention rule *)

Lemma py_in_spec (x : string) (l : list string) : py_in x l = true <-> x ∈ l.
Proof.
  unfold py_in. rewrite existsb_exists. split.
  - intros [y [Hy ->%String.eqb_eq]]. by apply list_elem_of_In.
  - intros H. exists x. split; [by apply list_elem_of_In | apply String.eqb_refl].
Qed.

Lemma max_from_first {A : Type} (key : A -> nat) (l : list A) (best : A) :
  exists l1 l2,
    best :: l = l1 ++ max_from key best l :: l2
    /\ Forall (fun x => key x < key (max_from key best l)) l1
    /\ Forall (fun x => key x <= key (max_from key best l)) l2.
Proof.
  revert best. induction l as [|x r IH]; intros best.
  - exists [], []. by repeat split.
  - cbn [max_from]. destruct (Nat.ltb_spec (key best) (key x)) as [Hlt | Hge].
    + destruct (IH x) as (l1 & l2 & Heq & H1 & H2).
      exists (best :: l1), l2. split; [by rewrite Heq |]. split; [| done].
      constructor; [| done].
      destruct l1 as [|y l1]; cbn in Heq; injection Heq as Hx _.
      * by rewrite <- Hx.
      * subst y. inversion H1; subst. lia.
    + destruct (IH best) as (l1 & l2 & Heq & H1 & H2).
      generalize dependent (max_from key best r). intros m Heq H1 H2.
      destruct l1 as [|y l1]; cbn in Heq; injection Heq as Hb Hr.
      * exists [], (x :: l2). subst m r.
        split; [done |]. split; [constructor |]. by constructor.
      * subst y. exists (best :: x :: l1), l2. subst r.
        split; [done |]. split; [| done].
        inversion H1; subst. repeat constructor; [done | lia | done].
Qed.

Lemma py_max_first_deepest (cwd : string) (group : list string) :
  group <> [] ->
  exists k, py_max (get_depth cwd) group = Some k /\ first_deepest cwd group k.
Proof.
  destruct group as [|x r]; [done | intros _].
  exists (max_from (get_depth cwd) x r). split; [done |].
  apply max_from_first.
Qed.

Lemma first_deepest_elem (cwd : string) (group : list string) (k : string) :
  first_deepest cwd group k -> k ∈ group.
Proof.
  intros (l1 & l2 & -> & _). apply elem_of_app. right. apply elem_of_cons. by left.
Qed.

Lemma first_deepest_max (cwd : string) (group : list string) (k x : string) :
  first_deepest cwd group k -> x ∈ group -> get_depth cwd x <= get_depth cwd k.
Proof.
  intros (l1 & l2 & -> & H1 & H2) Hx.
  rewrite Forall_forall in H1, H2.
  apply elem_of_app in Hx as [Hx | Hx].
  - apply H1 in Hx. lia.
  - apply elem_of_cons in Hx as [-> | Hx]; [lia | by apply H2].
Qed.

Lemma retention_depth_rule (cwd : string) (group : list string) (k : string) :
  py_max (get_depth cwd) group = Some k ->
  (match py_max (get_depth cwd) group with
   | None => None
   | Some keep_file =>
       Some ([keep_file],
             filter (fun f => negb (String.eqb f keep_file)) group)
   end) = Some ([k], filter (fun f => negb (String.eqb f k)) group).
Proof. by intros ->. Qed.

(** What [retention] returns, by cases. *)
Lemma retention_cases (cwd : string) (keep : option string)
    (group : list string) :
  group <> [] ->
  (exists kd, keep = Some kd /\ kd <> ""
     /\ filter (fun f => is_in_directory cwd f kd) group <> []
     /\ retention cwd keep group =
        Some (filter (fun f => is_in_directory cwd f kd) group,
              filter (fun f => negb (py_in f
                        (filter (fun f => is_in_directory cwd f kd) group)))
                     group))
  \/ (exists k, first_deepest cwd group k
        /\ py_max (get_depth cwd) group = Some k
        /\ (forall kd, keep = Some kd -> kd <> "" ->
              filter (fun f => is_in_directory cwd f kd) group = [])
        /\ retention cwd keep group =
           Some ([k], filter (fun f => negb (String.eqb f k)) group)).
Proof.
  intros Hne.
  destruct (py_max_first_deepest cwd group Hne) as (k & Hk & Hfd).
  unfold retention. rewrite Hk.
  destruct keep as [kd|]; [| right; exists k; by repeat split].
  cbn [truthy]. destruct (String.eqb_spec kd "") as [-> | Hkd]; cbn [negb].
  { right. exists k. repeat split; try done. by intros ? [= <-]. }
  destruct (filter (fun f => is_in_directory cwd f kd) group) as [|i im] eqn:E.
  - right. exists k. repeat split; try done. by intros ? [= <-].
  - left. exists kd. rewrite E. by repeat split.
Qed.

Lemma candidates_outside (cwd kd : string) (group : list string) (f : string) :
  f ∈ filter (fun f => negb (py_in f
                (filter (fun f => is_in_directory cwd f kd) group))) group
  <-> f ∈ group /\ is_in_directory cwd f kd = false.
Proof.
  rewrite list_elem_of_filter. split.
  - intros [Hn Hf]. split; [done |].
    destruct (is_in_directory cwd f kd) eqn:E; [| done].
    apply negb_prop_elim in Hn. exfalso. apply Hn. apply Is_true_true.
    apply py_in_spec, list_elem_of_filter. split; [by apply Is_true_true | done].
  - intros [Hf Hn]. split; [| done].
    apply negb_prop_intro. intros Hin%Is_true_true%py_in_spec.
    apply list_elem_of_filter in Hin as [Hin%Is_true_true _]. congruence.
Qed.

(** C2: when some member of the group lies inside the configured protected
    directory, every member inside it is retained and not trashed, and every
    member outside it is trashed. *)
Theorem protected_directory_precedence (cwd kd : string)
    (group : list string) :
  kd <> "" ->
  (exists m, m ∈ group /\ is_in_directory cwd m kd = true) ->
  exists retained files_to_trash,
    retention cwd (Some kd) group = Some (retained, files_to_trash)
    /\ (forall f, f ∈ group -> is_in_directory cwd f kd = true ->
          f ∈ retained /\ f ∉ files_to_trash)
    /\ (forall f, f ∈ group -> is_in_directory cwd f kd = false ->
          f ∈ files_to_trash /\ f ∉ retained).
Proof.
  intros Hkd (m & Hm & Hin).
  assert (Hne : group <> []) by (intros ->; by apply elem_of_nil in Hm).
  destruct (retention_cases cwd (Some kd) group Hne)
    as [(kd' & [= <-] & _ & Him & Hret) | (k & _ & _ & Hnone & _)].
  - eexists _, _. split; [exact Hret |]. split.
    + intros f Hf Hfin. split.
      * apply list_elem_of_filter. split; [by apply Is_true_true | done].
      * rewrite candidates_outside. intros [_ ?]. congruence.
    + intros f Hf Hfout. split.
      * by apply candidates_outside.
      * intros [Hi%Is_true_true _]%list_elem_of_filter. congruence.
  - specialize (Hnone kd eq_refl Hkd).
    assert (m ∈ filter (fun f => is_in_directory cwd f kd) group) as Hmf.
    { apply list_elem_of_filter. split; [by apply Is_true_true | done]. }
    rewrite Hnone in Hmf. by apply elem_of_nil in Hmf.
Qed.

Lemma protected_directory_precedence_witness :
  exists retained files_to_trash,
    retention "/" (Some "/keep") ["/tmp/a/b/clip.mp4"; "/keep/clip.mp4"]
      = Some (retained, files_to_trash)
    /\ (forall f, f ∈ ["/tmp/a/b/clip.mp4"; "/keep/clip.mp4"] ->
          is_in_directory "/" f "/keep" = true ->
          f ∈ retained /\ f ∉ files_to_trash)
    /\ (forall f, f ∈ ["/tmp/a/b/clip.mp4"; "/keep/clip.mp4"] ->
          is_in_directory "/" f "/keep" = false ->
          f ∈ files_to_trash /\ f ∉ retained).
Proof.
  apply (protected_directory_precedence "/" "/keep"
           ["/tmp/a/b/clip.mp4"; "/keep/clip.mp4"]).
  - discriminate.
  - exists "/keep/clip.mp4". split; [| reflexivity].
    apply list_elem_of_In. simpl. auto.
Defined.

(** On a non-empty group the decision is made: [max] does not raise. *)
Lemma retention_defined (cwd : string) (keep : option string)
    (group : list string) :
  group <> [] ->
  exists retained files_to_trash,
    retention cwd keep group = Some (retained, files_to_trash).
Proof.
  intros Hne.
  destruct (retention_cases cwd keep group Hne)
    as [(kd & _ & _ & _ & Hret) | (k & _ & _ & _ & Hret)]; eauto.
Qed.

(** C3: the decision on a non-empty group is a partition of it: something
    is retained, nothing retained is trashed, and the members of the group
    are exactly the retained and the trashed files. *)
Theorem retention_partition (cwd : string) (keep : option string)
    (group : list string) :
  group <> [] ->
  exists retained files_to_trash,
    retention cwd keep group = Some (retained, files_to_trash)
    /\ retained <> []
    /\ (forall f, f ∈ retained -> f ∉ files_to_trash)
    /\ (forall f, f ∈ group <-> f ∈ retained \/ f ∈ files_to_trash).
Proof.
  intros Hne.
  destruct (retention_cases cwd keep group Hne)
    as [(kd & -> & _ & Him & Hret) | (k & Hfd & _ & _ & Hret)].
  - eexists _, _. split; [exact Hret |]. split; [done |]. split.
    + intros f [Hi%Is_true_true _]%list_elem_of_filter.
      rewrite candidates_outside. intros [_ ?]. congruence.
    + intros f. rewrite candidates_outside, list_elem_of_filter. split.
      * intros Hf. destruct (is_in_directory cwd f kd) eqn:E; [| by right].
        left. split; [by apply Is_true_true | done].
      * by intros [[_ ?] | [? _]].
  - eexists _, _. split; [exact Hret |]. split; [done |]. split.
    + intros f ->%list_elem_of_singleton.
      intros [Hn _]%list_elem_of_filter.
      by rewrite String.eqb_refl in Hn.
    + intros f. rewrite list_elem_of_singleton, list_elem_of_filter.
      pose proof (first_deepest_elem _ _ _ Hfd) as Hk. split.
      * intros Hf. destruct (String.eqb_spec f k) as [-> | Hfk]; [by left |].
        by right.
      * by intros [-> | [_ ?]].
Qed.

Lemma retention_partition_witness :
  exists retained files_to_trash,
    retention "/" None ["/a/x.mp4"; "/a/b/x.mp4"]
      = Some (retained, files_to_trash)
    /\ retained <> []
    /\ (forall f, f ∈ retained -> f ∉ files_to_trash)
    /\ (forall f, f ∈ ["/a/x.mp4"; "/a/b/x.mp4"] <->
                  f ∈ retained \/ f ∈ files_to_trash).
Proof.
  apply (retention_partition "/" None ["/a/x.mp4"; "/a/b/x.mp4"]).
  discriminate.
Defined.

(** ** The depth rule and the order of the group *)

(** C4 as stated fails: the same two paths, listed in the two possible
    orders, have different survivors, because [max] keeps the first of the
    members of greatest depth. *)
Lemma depth_rule_order_counterexample :
  ["/a/x.mp4"; "/b/x.mp4"] ≡ₚ ["/b/x.mp4"; "/a/x.mp4"]
  /\ get_depth "/" "/a/x.mp4" = get_depth "/" "/b/x.mp4"
  /\ retention "/" None ["/a/x.mp4"; "/b/x.mp4"]
     = Some (["/a/x.mp4"], ["/b/x.mp4"])
  /\ retention "/" None ["/b/x.mp4"; "/a/x.mp4"]
     = Some (["/b/x.mp4"], ["/a/x.mp4"]).
Proof.
  split; [apply Permutation_swap |]. repeat split.
Qed.

(** C4, as the code has it: the survivor of the depth rule is a function of
    the group as a sequence, namely its first member of greatest depth. Two
    listings of the same paths have survivors of the same depth, and the same
    survivor when only one member has that depth. *)
Theorem depth_rule_first_of_deepest (cwd : string) (g1 g2 : list string) :
  g1 <> [] -> g1 ≡ₚ g2 ->
  exists k1 k2,
    retention cwd None g1
      = Some ([k1], filter (fun f => negb (String.eqb f k1)) g1)
    /\ retention cwd None g2
      = Some ([k2], filter (fun f => negb (String.eqb f k2)) g2)
    /\ first_deepest cwd g1 k1
    /\ first_deepest cwd g2 k2
    /\ get_depth cwd k1 = get_depth cwd k2
    /\ ((forall x, x ∈ g1 -> get_depth cwd x = get_depth cwd k1 -> x = k1) ->
        k1 = k2).
Proof.
  intros Hne Hperm.
  assert (Hne2 : g2 <> []).
  { intros ->. by apply Permutation_nil_r in Hperm. }
  destruct (py_max_first_deepest cwd g1 Hne) as (k1 & Hk1 & Hfd1).
  destruct (py_max_first_deepest cwd g2 Hne2) as (k2 & Hk2 & Hfd2).
  exists k1, k2. unfold retention. rewrite Hk1, Hk2.
  do 4 (split; [done |]).
  assert (Hk2in : k2 ∈ g1).
  { rewrite Hperm. by eapply first_deepest_elem. }
  assert (Hk1in : k1 ∈ g2).
  { rewrite <- Hperm. by eapply first_deepest_elem. }
  pose proof (first_deepest_max _ _ _ _ Hfd1 Hk2in).
  pose proof (first_deepest_max _ _ _ _ Hfd2 Hk1in).
  split; [lia |]. intros Huniq. symmetry. apply Huniq; [done | lia].
Qed.

Lemma depth_rule_first_of_deepest_witness :
  exists k1 k2,
    retention "/" None ["/a/x.mp4"; "/a/b/x.mp4"]
      = Some ([k1], filter (fun f => negb (String.eqb f k1))
                      ["/a/x.mp4"; "/a/b/x.mp4"])
    /\ retention "/" None ["/a/b/x.mp4"; "/a/x.mp4"]
      = Some ([k2], filter (fun f => negb (String.eqb f k2))
                      ["/a/b/x.mp4"; "/a/x.mp4"])
    /\ first_deepest "/" ["/a/x.mp4"; "/a/b/x.mp4"] k1
    /\ first_deepest "/" ["/a/b/x.mp4"; "/a/x.mp4"] k2
    /\ get_depth "/" k1 = get_depth "/" k2
    /\ ((forall x, x ∈ ["/a/x.mp4"; "/a/b/x.mp4"] ->
           get_depth "/" x = get_depth "/" k1 -> x = k1) ->
        k1 = k2).
Proof.
  apply (depth_rule_first_of_deepest "/"
           ["/a/x.mp4"; "/a/b/x.mp4"] ["/a/b/x.mp4"; "/a/x.mp4"]).
  - discriminate.
  - apply Permutation_swap.
Defined.

(** ** Disposal *)

Section DisposalFacts.

Context {World : Type}.
Variable send2trash : string -> World -> World * bool.
Variable cwd : string.

Lemma disposals_app (a b : list line) :
  disposals (a ++ b) = disposals a ++ disposals b.
Proof. unfold disposals. apply omap_app. Qed.

Lemma disposals_members (group : list string) :
  disposals (map Member group) = [].
Proof. induction group; [done | by cbn]. Qed.

Lemma disposals_retaining (keep : option string) (group retained : list string) :
  disposals (retaining_line cwd keep group retained) = [].
Proof.
  unfold retaining_line.
  destruct (_ && _); [done |]. by destruct retained.
Qed.

(** The inner loop calls the facility once per path, in order, whatever the
    outcomes, and counts the calls that returned. *)
Lemma trash_loop_spec (fps : list string) (w : World) (out : list line)
    (total : nat) :
  let '(w', outcomes) := attempt_each send2trash fps w in
  exists out',
    trash_loop send2trash fps (w, out, total)
      = (w', out ++ out', total + count_occ bool_dec outcomes true)
    /\ disposals out' = zip fps outcomes
    /\ length outcomes = length fps.
Proof.
  revert w out total. induction fps as [|fp rest IH]; intros w out total.
  - cbn. exists []. by rewrite app_nil_r, Nat.add_0_r.
  - cbn [attempt_each trash_loop].
    destruct (send2trash fp w) as [w1 returned].
    destruct returned.
    + specialize (IH w1 (out ++ [Trashed fp]) (total + 1)).
      destruct (attempt_each send2trash rest w1) as [w2 outcomes].
      destruct IH as (out' & -> & Hd & Hl).
      exists (Trashed fp :: out'). split; [| split].
      * rewrite <- app_assoc. cbn. f_equal. lia.
      * unfold disposals in *. cbn. by rewrite Hd.
      * cbn. by rewrite Hl.
    + specialize (IH w1 (out ++ [FailedToTrash fp]) total).
      destruct (attempt_each send2trash rest w1) as [w2 outcomes].
      destruct IH as (out' & -> & Hd & Hl).
      exists (FailedToTrash fp :: out'). split; [| split].
      * rewrite <- app_assoc. by cbn.
      * unfold disposals in *. cbn. by rewrite Hd.
      * cbn. by rewrite Hl.
Qed.

Lemma attempt_each_app (a b : list string) (w : World) :
  attempt_each send2trash (a ++ b) w =
  let '(w1, o1) := attempt_each send2trash a w in
  let '(w2, o2) := attempt_each send2trash b w1 in
  (w2, o1 ++ o2).
Proof.
  revert w. induction a as [|fp a IH]; intros w.
  - cbn. by destruct (attempt_each send2trash b w).
  - cbn. destruct (send2trash fp w) as [w1 r]. rewrite IH.
    destruct (attempt_each send2trash a w1) as [w2 o1].
    by destruct (attempt_each send2trash b w2).
Qed.

Lemma count_occ_true_app (a b : list bool) :
  count_occ bool_dec (a ++ b) true
  = count_occ bool_dec a true + count_occ bool_dec b true.
Proof. apply count_occ_app. Qed.

Lemma handle_loop_spec (groups : list (list string)) (keep : option string)
    (w : World) (out : list line) (total : nat) :
  Forall (fun g => g <> []) groups ->
  let '(w', outcomes) :=
    attempt_each send2trash (all_discards cwd keep groups) w in
  exists out',
    handle_loop send2trash cwd groups keep (w, out, total)
      = (w', out ++ out', Some (total + count_occ bool_dec outcomes true))
    /\ disposals out' = zip (all_discards cwd keep groups) outcomes
    /\ length outcomes = length (all_discards cwd keep groups).
Proof.
  intros Hne. revert w out total.
  induction Hne as [|group rest Hg Hrest IH]; intros w out total.
  - cbn. exists []. by rewrite app_nil_r, Nat.add_0_r.
  - unfold all_discards. cbn [map concat handle_loop].
    fold (all_discards cwd keep rest).
    destruct (retention_defined cwd keep group Hg)
      as (retained & fps & Hret).
    rewrite Hret. rewrite attempt_each_app.
    pose proof (trash_loop_spec fps w
      ((out ++ [FoundDuplicateSet] ++ map Member group)
         ++ retaining_line cwd keep group retained) total) as Hinner.
    destruct (attempt_each send2trash fps w) as [w1 o1].
    destruct Hinner as (out1 & Hinner & Hd1 & Hl1). rewrite Hinner.
    match goal with
    | |- context [handle_loop _ _ _ _ (?w0, ?out0, ?total0)] =>
        specialize (IH w0 out0 total0)
    end.
    destruct (attempt_each send2trash (all_discards cwd keep rest) w1)
      as [w2 o2].
    destruct IH as (out2 & -> & Hd2 & Hl2).
    exists (([FoundDuplicateSet] ++ map Member group)
              ++ retaining_line cwd keep group retained ++ out1 ++ out2).
    split; [| split].
    + rewrite count_occ_true_app, !Nat.add_assoc. by rewrite <- !app_assoc.
    + rewrite !disposals_app, disposals_members, disposals_retaining.
      cbn. rewrite Hd1, Hd2. symmetry. apply zip_with_app. by rewrite Hl1.
    + rewrite !length_app. lia.
Qed.

End DisposalFacts.

(** C8: on non-empty groups, [handle_duplicates] calls the trash facility
    exactly on the discards of the decisions, once each and in order, goes on
    after a call that raised, and returns the number of calls that returned.
    The lines it prints about disposal are those calls and their outcomes. *)
Theorem disposal_partial_failure {World : Type}
    (send2trash : string -> World -> World * bool) (cwd : string)
    (groups : list (list string)) (keep : option string) (w : World) :
  Forall (fun g => g <> []) groups ->
  exists w' outcomes out,
    attempt_each send2trash (all_discards cwd keep groups) w = (w', outcomes)
    /\ handle_duplicates send2trash cwd groups keep w
       = (w', out, Some (count_occ bool_dec outcomes true))
    /\ disposals out = zip (all_discards cwd keep groups) outcomes
    /\ length outcomes = length (all_discards cwd keep groups).
Proof.
  intros Hne. unfold handle_duplicates.
  pose proof (handle_loop_spec send2trash cwd groups keep w [] 0 Hne) as H.
  destruct (attempt_each send2trash (all_discards cwd keep groups) w)
    as [w' outcomes].
  destruct H as (out & H & Hd & Hl).
  exists w', outcomes, out. by repeat split.
Qed.

(** ** The union-find forest *)

Lemma reach_is_root (parent : list nat) d x r :
  reach parent d x r -> parent !! r = Some r.
Proof. induction 1; auto. Qed.

Lemma reach_fun (parent : list nat) d x r d' r' :
  reach parent d x r -> reach parent d' x r' -> r = r'.
Proof.
  intros H. revert d' r'. induction H as [x Hx | d x p r Hx Hp H IH];
    intros d' r' H'; inversion H'; subst; try congruence.
  assert (p = p0) by congruence. subst. eauto.
Qed.

Lemma reach_lt (parent : list nat) d x r :
  reach parent d x r -> x < length parent.
Proof. inversion 1; subst; by eapply lookup_lt_Some. Qed.

(** Pointing [x] at its own root keeps every root and lengthens no path. *)
Lemma reach_compress (parent : list nat) dx x r :
  reach parent dx x r ->
  forall e y s, reach parent e y s ->
    exists e', e' <= e /\ reach (<[x := r]> parent) e' y s.
Proof.
  intros Hx e y s Hy.
  pose proof (reach_lt _ _ _ _ Hx) as Hlt.
  pose proof (reach_is_root _ _ _ _ Hx) as Hr.
  induction Hy as [y Hy | e y p s Hy Hp Hps IH].
  - exists 0. split; [done |]. constructor.
    destruct (decide (y = x)) as [-> | Hne].
    + assert (r = x) as -> by (eapply reach_fun; [exact Hx | by constructor]).
      by rewrite list_lookup_insert_eq.
    + by rewrite list_lookup_insert_ne.
  - destruct IH as (e' & He' & IH).
    destruct (decide (y = x)) as [-> | Hne].
    + assert (s = r) as ->.
      { eapply reach_fun; [| exact Hx]. econstructor; eauto. }
      assert (r <> x) by congruence.
      exists 1. split; [lia |].
      apply reach_step with r; [by rewrite list_lookup_insert_eq | done |].
      constructor. by rewrite list_lookup_insert_ne.
    + exists (S e'). split; [lia |].
      apply reach_step with p; [by rewrite list_lookup_insert_ne | done | done].
Qed.

(** [find] returns the root, with fuel to spare it does return, and the
    compression keeps every root. *)
Lemma find_reach (fuel : nat) (parent : list nat) d x r :
  reach parent d x r -> d < fuel ->
  exists parent',
    UnionFind.find fuel parent x = Some (parent', r)
    /\ length parent' = length parent
    /\ forall e y s, reach parent e y s ->
         exists e', e' <= e /\ reach parent' e' y s.
Proof.
  intros H. revert fuel.
  induction H as [x Hx | d x p r Hx Hp H IH]; intros fuel Hfuel.
  - destruct fuel as [|fuel]; [lia |]. cbn. rewrite Hx, Nat.eqb_refl. cbn.
    exists parent. repeat split; eauto.
  - destruct fuel as [|fuel]; [lia |]. cbn. rewrite Hx.
    destruct (Nat.eqb_spec p x) as [? | _]; [done |]. cbn.
    destruct (IH fuel ltac:(lia)) as (parent1 & -> & Hlen & Hkeep).
    exists (<[x := r]> parent1). split; [done |].
    split; [by rewrite length_insert |].
    intros e y s Hy.
    destruct (Hkeep _ _ _ Hy) as (e1 & He1 & Hy1).
    destruct (Hkeep (S d) x r) as (dx & _ & Hx1); [econstructor; eauto |].
    destruct (reach_compress _ _ _ _ Hx1 _ _ _ Hy1) as (e2 & He2 & Hy2).
    exists e2. split; [lia | done].
Qed.

(** Hanging the root [ry] under the root [rx] sends the members of the tree
    of [ry] to [rx], one step further, and moves nothing else. *)
Lemma reach_link (parent : list nat) rx ry :
  parent !! rx = Some rx -> parent !! ry = Some ry -> rx <> ry ->
  forall e z s, reach parent e z s ->
    reach (<[ry := rx]> parent)
          (if decide (s = ry) then S e else e) z
          (if decide (s = ry) then rx else s).
Proof.
  intros Hrx Hry Hne e z s H.
  assert (Hlt : ry < length parent) by (by eapply lookup_lt_Some).
  induction H as [z Hz | e z p s Hz Hp H IH].
  - destruct (decide (z = ry)) as [-> | Hzr].
    + apply reach_step with rx; [by rewrite list_lookup_insert_eq | done |].
      constructor. by rewrite list_lookup_insert_ne.
    + constructor. by rewrite list_lookup_insert_ne.
  - assert (z <> ry) by congruence.
    destruct (decide (s = ry)); (eapply reach_step;
      [by rewrite list_lookup_insert_ne | done | done]).
Qed.

Lemma represents_initial (n : nat) : represents n 0 id (seq 0 n).
Proof.
  split; [apply length_seq |]. intros x Hx. exists 0. split; [done |].
  constructor. by rewrite lookup_seq_lt.
Qed.

Lemma represents_mono (n k k' : nat) rho parent :
  represents n k rho parent -> k <= k' -> represents n k' rho parent.
Proof.
  intros [Hlen H] Hk. split; [done |]. intros x Hx.
  destruct (H x Hx) as (d & Hd & Hr). exists d. split; [lia | done].
Qed.

Lemma represents_root_lt (n k : nat) rho parent x :
  represents n k rho parent -> x < n -> rho x < n.
Proof.
  intros [Hlen H] Hx. destruct (H x Hx) as (d & _ & Hr).
  apply reach_is_root in Hr. rewrite <- Hlen. by eapply lookup_lt_Some.
Qed.

Lemma find_represents (fuel n k : nat) rho parent x :
  represents n k rho parent -> k < fuel -> x < n ->
  exists parent',
    UnionFind.find fuel parent x = Some (parent', rho x)
    /\ represents n k rho parent'.
Proof.
  intros [Hlen H] Hfuel Hx.
  destruct (H x Hx) as (d & Hd & Hr).
  destruct (find_reach fuel parent d x (rho x) Hr ltac:(lia))
    as (parent' & Hfind & Hlen' & Hkeep).
  exists parent'. split; [done |]. split; [congruence |].
  intros y Hy. destruct (H y Hy) as (e & He & Hry).
  destruct (Hkeep _ _ _ Hry) as (e' & He' & Hry').
  exists e'. split; [lia | done].
Qed.

Lemma union_represents (fuel n k : nat) rho parent x y :
  represents n k rho parent -> k < fuel -> x < n -> y < n ->
  exists parent',
    UnionFind.union fuel parent x y = Some parent'
    /\ represents n (S k) (merged rho x y) parent'.
Proof.
  intros Hrep Hfuel Hx Hy. unfold UnionFind.union.
  destruct (find_represents fuel n k rho parent x Hrep Hfuel Hx)
    as (parent1 & -> & Hrep1).
  destruct (find_represents fuel n k rho parent1 y Hrep1 Hfuel Hy)
    as (parent2 & -> & [Hlen2 H2]).
  destruct (Nat.eqb_spec (rho x) (rho y)) as [Heq | Hne]; cbn.
  - exists parent2. split; [done |]. split; [done |].
    intros z Hz. destruct (H2 z Hz) as (d & Hd & Hr).
    exists d. split; [lia |]. unfold merged.
    destruct (decide (rho z = rho y)); [congruence | done].
  - destruct (H2 x Hx) as (dx & _ & Hrx). destruct (H2 y Hy) as (dy & _ & Hry).
    apply reach_is_root in Hrx, Hry.
    assert (rho y < length parent2) by (by eapply lookup_lt_Some).
    rewrite decide_True by done.
    exists (<[rho y := rho x]> parent2). split; [done |].
    split; [by rewrite length_insert |].
    intros z Hz. destruct (H2 z Hz) as (d & Hd & Hr).
    pose proof (reach_link parent2 (rho x) (rho y) Hrx Hry Hne _ _ _ Hr) as Hl.
    unfold merged. destruct (decide (rho z = rho y)).
    + exists (S d). split; [lia | done].
    + exists d. split; [lia | done].
Qed.

(** ** The loop over the pairs *)

Lemma foldl_ext {A B : Type} (f g : A -> B -> A) (l : list B) (a : A) :
  (forall a x, f a x = g a x) -> foldl f a l = foldl g a l.
Proof.
  intros H. revert a. induction l as [|x l IH]; intros a; [done |].
  cbn. by rewrite H, IH.
Qed.

Lemma foldl_flat_map {A B C : Type} (f : A -> C -> A) (g : B -> list C)
    (l : list B) (a : A) :
  foldl f a (flat_map g l) = foldl (fun a x => foldl f a (g x)) a l.
Proof.
  revert a. induction l as [|x l IH]; intros a; [done |].
  cbn. by rewrite foldl_app, IH.
Qed.

Lemma foldl_map {A B C : Type} (f : A -> B -> A) (g : C -> B) (l : list C)
    (a : A) :
  foldl f a (map g l) = foldl (fun a x => f a (g x)) a l.
Proof. revert a. induction l as [|x l IH]; intros a; [done | apply IH]. Qed.

Lemma pair_loop_flat (file_info : list (string * string)) (n : nat)
    (parent : list nat) :
  pair_loop file_info n parent
  = foldl (pair_step file_info (recursion_fuel n)) (Some parent) (all_pairs n).
Proof.
  unfold pair_loop, all_pairs. rewrite foldl_flat_map.
  apply foldl_ext. intros acc i. symmetry.
  apply (foldl_map (pair_step file_info (recursion_fuel n)) (pair i)).
Qed.

Lemma all_pairs_elem (n a b : nat) :
  (a, b) ∈ all_pairs n <-> a < b /\ b < n.
Proof.
  unfold all_pairs. rewrite list_elem_of_In, in_flat_map. split.
  - intros (i & Hi & Hab). apply in_map_iff in Hab as (j & [= <- <-] & Hj).
    apply in_seq in Hi, Hj. lia.
  - intros [Hab Hb]. exists a. split; [apply in_seq; lia |].
    apply in_map_iff. exists b. split; [done | apply in_seq; lia].
Qed.

Lemma flat_map_length_le {A B : Type} (g : A -> list B) (l : list A) (m : nat) :
  (forall x, length (g x) <= m) -> length (flat_map g l) <= length l * m.
Proof.
  intros H. induction l as [|x l IH]; [done |].
  cbn. rewrite length_app. specialize (H x). lia.
Qed.

Lemma all_pairs_length (n : nat) : length (all_pairs n) <= n * n.
Proof.
  unfold all_pairs.
  etransitivity; [apply (flat_map_length_le _ _ n) |].
  - intros i. rewrite length_map, length_seq. lia.
  - by rewrite length_seq.
Qed.

Lemma same_file_is_Some (file_info : list (string * string)) (i j : nat) :
  i < length file_info -> j < length file_info ->
  exists b, same_file file_info i j = Some b.
Proof.
  intros [a Ha]%lookup_lt_is_Some [b Hb]%lookup_lt_is_Some.
  unfold same_file. rewrite Ha, Hb. eauto.
Qed.

Lemma rtsc_iff {A : Type} (R R' : relation A) (x y : A) :
  (forall a b, R a b <-> R' a b) -> rtsc R x y <-> rtsc R' x y.
Proof.
  intros H. split; apply (rtsc_congruence id); intros a b; apply H.
Qed.

Lemma rtsc_weaken {A : Type} (R R' : relation A) (x y : A) :
  (forall a b, R a b -> R' a b) -> rtsc R x y -> rtsc R' x y.
Proof. intros H. apply (rtsc_congruence id). exact H. Qed.

(** Merging the classes of [i] and [j] is adding the edge [(i, j)]. *)
Lemma merged_connected (n : nat) (rho : nat -> nat) (R : relation nat)
    (i j : nat) :
  i < n -> j < n ->
  (forall a b, R a b -> a < n /\ b < n) ->
  (forall a b, a < n -> b < n -> rho a = rho b <-> rtsc R a b) ->
  forall a b, a < n -> b < n ->
    merged rho i j a = merged rho i j b
    <-> rtsc (fun a b => R a b \/ (a = i /\ b = j)) a b.
Proof.
  intros Hi Hj Hrange Hinv a b Ha Hb.
  set (R' := fun a b => R a b \/ (a = i /\ b = j)).
  assert (Hrange' : forall a b, sc R' a b -> a < n -> b < n).
  { intros x y [[H | [-> ->]] | [H | [-> ->]]] Hx; try done;
      apply Hrange in H; tauto. }
  assert (Hmono : forall a b, rtsc R a b -> rtsc R' a b).
  { intros x y. apply rtsc_weaken. unfold R'. tauto. }
  assert (Hij : rtsc R' i j) by (apply rtsc_lr; right; done).
  split.
  - unfold merged. intros Heq.
    destruct (decide (rho a = rho j)) as [Haj | Haj];
      destruct (decide (rho b = rho j)) as [Hbj | Hbj].
    + apply Hmono, Hinv; [done | done | congruence].
    + (* a is with j, b is with i *)
      transitivity j; [apply Hmono, Hinv; done |].
      transitivity i; [by symmetry |]. apply Hmono, Hinv; done.
    + transitivity i; [apply Hmono, Hinv; done |].
      transitivity j; [done |]. apply Hmono, Hinv; done.
    + apply Hmono, Hinv; done.
  - intros Hconn. revert Ha.
    induction Hconn as [x | x y z Hxy Hyz IH]; intros Hx; [done |].
    pose proof (Hrange' _ _ Hxy Hx) as Hy.
    rewrite <- (IH Hb Hy).
    assert (Hstep : forall u v, u < n -> v < n -> R' u v ->
                      merged rho i j u = merged rho i j v).
    { intros u v Hu Hv [H | [-> ->]].
      - apply rtsc_lr in H. apply Hinv in H; [| done | done].
        unfold merged. rewrite H. done.
      - unfold merged. destruct (decide (rho j = rho j)); [| done].
        destruct (decide (rho i = rho j)); done. }
    destruct Hxy as [H | H]; [by apply Hstep | symmetry; by apply Hstep].
Qed.

Lemma pair_fold (file_info : list (string * string)) (n fuel : nat)
    (l : list (nat * nat)) :
  length file_info = n ->
  Forall (fun ij => fst ij < n /\ snd ij < n) l ->
  forall (parent : list nat) (k : nat) (rho : nat -> nat) (R : relation nat),
    represents n k rho parent ->
    k + length l < fuel ->
    (forall a b, R a b -> a < n /\ b < n) ->
    (forall a b, a < n -> b < n -> rho a = rho b <-> rtsc R a b) ->
    exists parent' k' rho',
      foldl (pair_step file_info fuel) (Some parent) l = Some parent'
      /\ represents n k' rho' parent'
      /\ k' <= k + length l
      /\ forall a b, a < n -> b < n ->
           rho' a = rho' b
           <-> rtsc (fun a b => R a b
                       \/ ((a, b) ∈ l /\ same_file file_info a b = Some true))
                 a b.
Proof.
  intros Hlen Hl. induction Hl as [|[i j] l [Hi Hj] Hl IH];
    intros parent k rho R Hrep Hfuel Hrange Hinv.
  - exists parent, k, rho. cbn. split; [done |]. split; [done |].
    split; [lia |]. intros a b Ha Hb. rewrite (Hinv a b Ha Hb).
    apply rtsc_iff. intros x y. rewrite elem_of_nil. tauto.
  - cbn in Hi, Hj, Hfuel. cbn [foldl pair_step fst snd].
    destruct (same_file_is_Some file_info i j) as [m Hm];
      [lia | lia |]. rewrite Hm. destruct m.
    + destruct (union_represents fuel n k rho parent i j Hrep
                  ltac:(lia) Hi Hj) as (parent1 & -> & Hrep1).
      destruct (IH parent1 (S k) (merged rho i j)
                  (fun a b => R a b \/ (a = i /\ b = j)) Hrep1 ltac:(lia))
        as (parent' & k' & rho' & Hfold & Hrep' & Hk' & Hinv').
      * intros a b [H | [-> ->]]; [by apply Hrange | done].
      * by apply merged_connected.
      * exists parent', k', rho'. split; [done |]. split; [done |].
        split; [cbn; lia |]. intros a b Ha Hb. rewrite (Hinv' a b Ha Hb).
        apply rtsc_iff. intros x y. rewrite elem_of_cons. split.
        -- intros [[H | [-> ->]] | [H1 H2]]; auto.
        -- intros [H | [[[= -> ->] | H1] H2]]; auto.
    + destruct (IH parent k rho R Hrep ltac:(lia) Hrange Hinv)
        as (parent' & k' & rho' & Hfold & Hrep' & Hk' & Hinv').
      exists parent', k', rho'. split; [done |]. split; [done |].
      split; [cbn; lia |]. intros a b Ha Hb. rewrite (Hinv' a b Ha Hb).
      apply rtsc_iff. intros x y. rewrite elem_of_cons. split.
      * intros [H | [H1 H2]]; auto.
      * intros [H | [[[= -> ->] | H1] H2]]; auto. congruence.
Qed.

(** The loop over the pairs returns, and its forest has one tree per class
    of the closure of [linked]. *)
Lemma pair_loop_spec (file_info : list (string * string)) (n : nat) :
  length file_info = n ->
  exists parent k rho,
    pair_loop file_info n (seq 0 n) = Some parent
    /\ represents n k rho parent
    /\ k < recursion_fuel n
    /\ forall a b, a < n -> b < n ->
         rho a = rho b <-> rtsc (linked file_info n) a b.
Proof.
  intros Hlen. rewrite pair_loop_flat.
  pose proof (all_pairs_length n) as Hpairs.
  destruct (pair_fold file_info n (recursion_fuel n) (all_pairs n) Hlen)
    with (parent := seq 0 n) (k := 0) (rho := @id nat)
         (R := fun _ _ : nat => False)
    as (parent & k & rho & Hfold & Hrep & Hk & Hinv).
  - apply Forall_forall. intros [a b] Hab%all_pairs_elem. cbn. lia.
  - apply represents_initial.
  - unfold recursion_fuel. lia.
  - done.
  - intros a b _ _. unfold id. split; [by intros -> |].
    intros H. apply rtc_inv in H as [? | (y & [[] | []] & _)]. done.
  - exists parent, k, rho. split; [done |]. split; [done |].
    split; [unfold recursion_fuel; lia |].
    intros a b Ha Hb. rewrite (Hinv a b Ha Hb). apply rtsc_iff.
    intros x y. unfold linked. rewrite all_pairs_elem. tauto.
Qed.

(** ** Dictionaries of lists *)

Section GroupBy.

Context {K V : Type} `{EqDecision K}.

Lemma group_by_snoc (xs : list (K * V)) (k : K) (v : V) :
  group_by (xs ++ [(k, v)]) = setdefault_append (group_by xs) k v.
Proof. unfold group_by. by rewrite foldl_snoc. Qed.

Lemma values_of_snoc (k' : K) (xs : list (K * V)) (k : K) (v : V) :
  values_of k' (xs ++ [(k, v)])
  = values_of k' xs ++ (if decide (k = k') then [v] else []).
Proof.
  unfold values_of. rewrite filter_app, map_app. f_equal.
  rewrite filter_cons. cbn. by destruct (decide (k = k')).
Qed.

Lemma elem_of_keys (d : list (K * list V)) (k : K) :
  k ∈ map fst d <-> exists vs, (k, vs) ∈ d.
Proof.
  rewrite !list_elem_of_In, in_map_iff. split.
  - intros ([k' vs] & <- & H). exists vs. by apply list_elem_of_In.
  - intros (vs & H). exists (k, vs). split; [done | by apply list_elem_of_In].
Qed.

Lemma setdefault_append_keys (d : list (K * list V)) (k : K) (v : V) :
  map fst (setdefault_append d k v)
  = if decide (k ∈ map fst d) then map fst d else map fst d ++ [k].
Proof.
  induction d as [|[k0 vs0] d IH]; cbn.
  - rewrite decide_False; [done | apply not_elem_of_nil].
  - destruct (decide (k0 = k)) as [-> | Hne]; cbn.
    + rewrite decide_True; [done | apply elem_of_cons; by left].
    + rewrite IH. destruct (decide (k ∈ map fst d)) as [Hin | Hout].
      * rewrite decide_True; [done | apply elem_of_cons; by right].
      * rewrite decide_False; [done |].
        rewrite elem_of_cons. intros [-> | ?]; done.
Qed.

Lemma setdefault_append_NoDup (d : list (K * list V)) (k : K) (v : V) :
  NoDup (map fst d) -> NoDup (map fst (setdefault_append d k v)).
Proof.
  intros Hd. rewrite setdefault_append_keys.
  destruct (decide (k ∈ map fst d)); [done |].
  apply NoDup_app. split; [done |]. split; [| apply NoDup_singleton].
  intros x Hx ->%list_elem_of_singleton. done.
Qed.

Lemma setdefault_append_elem (d : list (K * list V)) (k : K) (v : V)
    (k' : K) (vs' : list V) :
  NoDup (map fst d) ->
  (k', vs') ∈ setdefault_append d k v
  <-> (k' <> k /\ (k', vs') ∈ d)
      \/ (k' = k /\ exists vs, vs' = vs ++ [v]
                     /\ ((k, vs) ∈ d \/ (vs = [] /\ k ∉ map fst d))).
Proof.
  induction d as [|[k0 vs0] d IH]; intros Hd.
  - cbn. rewrite list_elem_of_singleton. split.
    + intros [= -> ->]. right. split; [done |]. exists []. split; [done |].
      right. split; [done | apply not_elem_of_nil].
    + intros [[_ H] | (-> & vs & -> & [H | [-> _]])];
        [by apply elem_of_nil in H | by apply elem_of_nil in H | done].
  - cbn in Hd. apply NoDup_cons in Hd as [Hk0 Hd]. specialize (IH Hd).
    cbn. destruct (decide (k0 = k)) as [-> | Hne].
    + rewrite !elem_of_cons. split.
      * intros [[= -> ->] | H].
        -- right. split; [done |]. exists vs0. split; [done |].
           left. apply elem_of_cons. by left.
        -- left. split; [| by right]. intros ->.
           apply Hk0, elem_of_keys. eauto.
      * intros [[Hne [[= ? ?] | H]] | (-> & vs & -> & [H | [-> H]])].
        -- done.
        -- by right.
        -- apply elem_of_cons in H as [[= ->] | H]; [by left |].
           exfalso. apply Hk0, elem_of_keys. eauto.
        -- exfalso. apply H. cbn. apply elem_of_cons. by left.
    + rewrite elem_of_cons, IH. split.
      * intros [[= -> ->] | [[H1 H2] | (-> & vs & -> & [H | [-> H]])]].
        -- left. split; [done | apply elem_of_cons; by left].
        -- left. split; [done | apply elem_of_cons; by right].
        -- right. split; [done |]. exists vs. split; [done |].
           left. apply elem_of_cons. by right.
        -- right. split; [done |]. exists []. split; [done |].
           right. split; [done |]. cbn. rewrite elem_of_cons.
           intros [-> | ?]; done.
      * intros [[H1 H2] | (-> & vs & -> & [H | [-> H]])].
        -- apply elem_of_cons in H2 as [H2 | H2]; [by left |].
           right. left. done.
        -- apply elem_of_cons in H as [[= -> ->] | H]; [done |].
           right. right. split; [done |]. exists vs. split; [done |]. by left.
        -- right. right. split; [done |]. exists []. split; [done |].
           right. split; [done |]. intros Hin. apply H. cbn.
           apply elem_of_cons. by right.
Qed.

(** The dictionary has one item per key that occurs, holding the values
    appended under it. *)
Lemma group_by_spec (xs : list (K * V)) :
  NoDup (map fst (group_by xs))
  /\ forall k vs, (k, vs) ∈ group_by xs <-> vs = values_of k xs /\ vs <> [].
Proof.
  induction xs as [|[k v] xs [IHnd IH]] using rev_ind.
  - split; [constructor |]. intros k vs. cbn. rewrite elem_of_nil.
    split; [done | by intros [-> ?]].
  - rewrite group_by_snoc. split; [by apply setdefault_append_NoDup |].
    intros k' vs'. rewrite setdefault_append_elem by done.
    rewrite values_of_snoc.
    assert (Hkeys : k ∈ map fst (group_by xs) <-> values_of k xs <> []).
    { rewrite elem_of_keys. split.
      - intros (vs & [-> ?]%IH). done.
      - intros H. exists (values_of k xs). by apply IH. }
    destruct (decide (k = k')) as [<- | Hne].
    + split.
      * intros [[? _] | (_ & vs & -> & [[-> ?]%IH | [-> Hout]])]; [done | |].
        -- split; [done | by destruct (values_of k xs)].
        -- destruct (values_of k xs) eqn:E; [done |].
           exfalso. apply Hout, Hkeys. done.
      * intros [-> _]. right. split; [done |].
        exists (values_of k xs). split; [done |].
        destruct (values_of k xs) eqn:E.
        -- right. split; [done |]. rewrite Hkeys. by intros [].
        -- left. apply IH. by rewrite E.
    + rewrite app_nil_r, IH. split.
      * intros [[_ ?] | [-> _]]; done.
      * intros H. left. split; [congruence | done].
Qed.

Lemma group_by_elem (xs : list (K * V)) (k : K) (v : V) :
  (k, v) ∈ xs -> (k, values_of k xs) ∈ group_by xs.
Proof.
  intros H. apply group_by_spec. split; [done |].
  assert (v ∈ values_of k xs) as Hv; [| by destruct (values_of k xs);
    [apply elem_of_nil in Hv |]].
  unfold values_of. apply list_elem_of_In, in_map_iff. exists (k, v).
  split; [done |]. apply list_elem_of_In, list_elem_of_filter. done.
Qed.

Lemma setdefault_append_values (d : list (K * list V)) (k : K) (v : V) :
  concat (map snd (setdefault_append d k v)) ≡ₚ concat (map snd d) ++ [v].
Proof.
  induction d as [|[k0 vs0] d IH]; cbn; [done |].
  destruct (decide (k0 = k)); cbn.
  - rewrite <- !app_assoc. apply Permutation_app_head, Permutation_app_comm.
  - rewrite IH. by rewrite app_assoc.
Qed.

Lemma group_by_values (xs : list (K * V)) :
  concat (map snd (group_by xs)) ≡ₚ map snd xs.
Proof.
  induction xs as [|[k v] xs IH] using rev_ind; [done |].
  rewrite group_by_snoc, setdefault_append_values, IH, map_app. done.
Qed.

End GroupBy.

Lemma setdefault_append_map {K V W : Type} `{EqDecision K} (f : V -> W)
    (d : list (K * list V)) (k : K) (v : V) :
  setdefault_append (map (fun e => (fst e, map f (snd e))) d) k (f v)
  = map (fun e => (fst e, map f (snd e))) (setdefault_append d k v).
Proof.
  induction d as [|[k0 vs0] d IH]; cbn; [done |].
  destruct (decide (k0 = k)); cbn.
  - by rewrite map_app.
  - by rewrite IH.
Qed.

Lemma group_by_map {K V W : Type} `{EqDecision K} (f : V -> W)
    (xs : list (K * V)) :
  group_by (map (fun e => (fst e, f (snd e))) xs)
  = map (fun e => (fst e, map f (snd e))) (group_by xs).
Proof.
  induction xs as [|[k v] xs IH] using rev_ind; [done |].
  rewrite map_app. cbn [map fst snd].
  by rewrite !group_by_snoc, IH, setdefault_append_map.
Qed.

(** ** The grouping loop and the groups of a size group *)

Lemma group_loop_prefix (paths : list string) (n k : nat) rho parent (m : nat) :
  length paths = n -> represents n k rho parent -> k < recursion_fuel n ->
  m <= n ->
  exists parent',
    foldl (fun acc i =>
             match acc with
             | None => None
             | Some (parent, groups) =>
                 match UnionFind.find (recursion_fuel n) parent i with
                 | None => None
                 | Some (parent1, root) =>
                     match paths !! i with
                     | None => None
                     | Some path =>
                         Some (parent1, setdefault_append groups root path)
                     end
                 end
             end)
          (Some (parent, [])) (seq 0 m)
    = Some (parent',
            group_by (map (fun i => (rho i, path_of paths i)) (seq 0 m)))
    /\ represents n k rho parent'.
Proof.
  intros Hlen Hrep Hfuel. induction m as [|m IH]; intros Hm.
  - exists parent. done.
  - destruct IH as (parent1 & IH & Hrep1); [lia |].
    rewrite seq_S, foldl_snoc, IH. cbn [Nat.add].
    destruct (find_represents (recursion_fuel n) n k rho parent1 m Hrep1
                Hfuel ltac:(lia)) as (parent2 & -> & Hrep2).
    destruct (lookup_lt_is_Some_2 paths m ltac:(lia)) as [p Hp].
    rewrite Hp. exists parent2. split; [| done].
    rewrite map_app. cbn [map]. rewrite group_by_snoc.
    unfold path_of. by rewrite Hp.
Qed.

Lemma filter_long_map {A B : Type} (f : A -> B) (l : list (list A)) :
  filter (fun g => Nat.ltb 1 (length g)) (map (map f) l)
  = map (map f) (filter (fun g => Nat.ltb 1 (length g)) l).
Proof.
  induction l as [|g l IH]; [done |].
  cbn [map]. rewrite !filter_cons, length_map, IH.
  by destruct (decide (Nat.ltb 1 (length g))).
Qed.

(** [resolve] returns, and what it returns are the paths of the classes of
    the closure of [linked]. *)
Lemma resolve_spec (paths : list string) (file_info : list (string * string)) :
  length file_info = length paths ->
  exists rho,
    resolve paths file_info
      = Some (map (map (path_of paths)) (classes rho (length paths)))
    /\ forall a b, a < length paths -> b < length paths ->
         rho a = rho b <-> rtsc (linked file_info (length paths)) a b.
Proof.
  intros Hlen. unfold resolve.
  destruct (pair_loop_spec file_info (length paths) Hlen)
    as (parent & k & rho & -> & Hrep & Hk & Hinv).
  destruct (group_loop_prefix paths (length paths) k rho parent (length paths)
              eq_refl Hrep Hk (Nat.le_refl _)) as (parent' & Hg & _).
  unfold group_loop. rewrite Hg. exists rho. split; [| done].
  f_equal. unfold classes.
  rewrite <- filter_long_map. f_equal.
  rewrite <- (map_map (fun i => (rho i, i))
                      (fun e => (fst e, path_of paths (snd e)))).
  rewrite group_by_map, !map_map. done.
Qed.

Lemma values_of_labelled (rho : nat -> nat) (r : nat) (l : list nat) :
  values_of r (map (fun i => (rho i, i)) l) = filter (fun i => rho i = r) l.
Proof.
  unfold values_of. induction l as [|i l IH]; [done |].
  cbn [map]. rewrite !filter_cons. cbn [fst].
  destruct (decide (rho i = r)); cbn; by rewrite IH.
Qed.

Lemma classes_elem (rho : nat -> nat) (n : nat) (g : list nat) :
  g ∈ classes rho n
  <-> exists r, g = filter (fun i => rho i = r) (seq 0 n) /\ 2 <= length g.
Proof.
  unfold classes. rewrite list_elem_of_filter, list_elem_of_In, in_map_iff.
  split.
  - intros [Hlong ([r g'] & <- & Hin)]. cbn [snd] in *.
    apply list_elem_of_In, group_by_spec in Hin as [-> _].
    exists r. rewrite values_of_labelled. split; [done |].
    apply Is_true_true, Nat.ltb_lt in Hlong.
    by rewrite values_of_labelled in Hlong.
  - intros (r & -> & Hlong). split.
    + apply Is_true_true, Nat.ltb_lt. lia.
    + exists (r, filter (fun i => rho i = r) (seq 0 n)). split; [done |].
      apply list_elem_of_In, group_by_spec. rewrite values_of_labelled.
      split; [done |]. intros E. rewrite E in Hlong. cbn in Hlong. lia.
Qed.

Lemma NoDup_two {A : Type} (l : list A) (a b : A) :
  a ∈ l -> b ∈ l -> a <> b -> 2 <= length l.
Proof.
  destruct l as [|x [|y l]]; cbn; intros Ha Hb Hne; [| | lia].
  - by apply elem_of_nil in Ha.
  - apply list_elem_of_singleton in Ha, Hb. congruence.
Qed.

Lemma NoDup_other {A : Type} `{EqDecision A} (l : list A) (a : A) :
  NoDup l -> 2 <= length l -> exists b, b ∈ l /\ b <> a.
Proof.
  destruct l as [|x [|y l]]; cbn; intros Hnd Hlen; [lia | lia |].
  apply NoDup_cons in Hnd as [Hx _].
  destruct (decide (x = a)) as [-> | Hne].
  - exists y. split; [apply elem_of_cons; right; apply elem_of_cons; by left |].
    intros ->. apply Hx. apply elem_of_cons. by left.
  - exists x. split; [apply elem_of_cons; by left | done].
Qed.

Lemma class_elem (rho : nat -> nat) (n r i : nat) :
  i ∈ filter (fun i => rho i = r) (seq 0 n) <-> rho i = r /\ i < n.
Proof.
  rewrite list_elem_of_filter, list_elem_of_In, in_seq. intuition lia.
Qed.

(** Two distinct indices with one root make a class that is emitted. *)
Lemma class_emitted (rho : nat -> nat) (n a b : nat) :
  a < n -> b < n -> a <> b -> rho a = rho b ->
  filter (fun i => rho i = rho a) (seq 0 n) ∈ classes rho n.
Proof.
  intros Ha Hb Hne Heq. apply classes_elem. exists (rho a). split; [done |].
  apply (NoDup_two _ a b); [by apply class_elem | by apply class_elem | done].
Qed.

Lemma classes_NoDup (rho : nat -> nat) (n : nat) :
  NoDup (concat (classes rho n)).
Proof.
  unfold classes.
  set (d := map snd (group_by (map (fun i => (rho i, i)) (seq 0 n)))).
  assert (Hd : NoDup (concat d)).
  { unfold d. rewrite group_by_values, map_map. cbn. rewrite map_id.
    apply NoDup_ListNoDup, List.seq_NoDup. }
  clearbody d. induction d as [|g d IH]; [constructor |].
  cbn in Hd. apply NoDup_app in Hd as (Hg & Hdisj & Hd'). rewrite filter_cons.
  destruct (decide (Nat.ltb 1 (length g))); [| by apply IH].
  cbn. apply NoDup_app. split; [done |]. split; [| by apply IH].
  intros x Hx Hin. apply (Hdisj x Hx).
  apply list_elem_of_In, in_concat in Hin as (g' & Hg' & Hxg').
  apply list_elem_of_In, in_concat. exists g'. split; [| done].
  apply list_elem_of_In. apply list_elem_of_In in Hg'.
  by apply list_elem_of_filter in Hg' as [_ ?].
Qed.

Lemma same_file_sym (file_info : list (string * string)) (i j : nat) :
  same_file file_info i j = same_file file_info j i.
Proof.
  unfold same_file. destruct (file_info !! i), (file_info !! j); try done.
  by rewrite (String.eqb_sym (fst p)), (String.eqb_sym (snd p)).
Qed.

Lemma linked_of_same (file_info : list (string * string)) (n i j : nat) :
  i < n -> j < n -> i <> j -> same_file file_info i j = Some true ->
  rtsc (linked file_info n) i j.
Proof.
  intros Hi Hj Hne Hs. destruct (Nat.lt_total i j) as [Hlt | [-> | Hgt]].
  - apply rtsc_lr. done.
  - done.
  - apply rtsc_rl. unfold linked. by rewrite same_file_sym.
Qed.

(** An index connected to another one has a direct neighbour. *)
Lemma connected_neighbour (file_info : list (string * string)) (n i j : nat) :
  rtsc (linked file_info n) i j -> i <> j ->
  exists j', j' < n /\ j' <> i /\ same_file file_info i j' = Some true.
Proof.
  intros H Hne. apply rtc_inv in H as [? | (y & Hy & _)]; [done |].
  exists y. destruct Hy as [(? & ? & ?) | (? & ? & ?)].
  - split; [lia |]. split; [lia | done].
  - split; [lia |]. split; [lia |]. by rewrite same_file_sym.
Qed.

Lemma connected_lt (file_info : list (string * string)) (n i j : nat) :
  rtsc (linked file_info n) i j -> i < n -> j < n.
Proof.
  induction 1 as [|x y z Hxy _ IH]; [done |]. intros Hx. apply IH.
  destruct Hxy as [(? & ? & ?) | (? & ? & ?)]; lia.
Qed.

(** ** The scanner *)

Lemma group_by_app {K V : Type} `{EqDecision K} (xs ys : list (K * V)) :
  group_by (xs ++ ys)
  = foldl (fun d kv => setdefault_append d (fst kv) (snd kv)) (group_by xs) ys.
Proof. unfold group_by. apply foldl_app. Qed.

Lemma omap_cons_list {A B : Type} (f : A -> option B) (x : A) (l : list A) :
  omap f (x :: l) = option_list (f x) ++ omap f l.
Proof. cbn. by destruct (f x). Qed.

Lemma scan_entry_step (root : string) (e : string * node)
    (items : list (nat * string)) (out : list line) :
  let named := (OsPath.join root (fst e), snd e) in
  scan_entry root (group_by items, length items, out) e
  = (group_by (items ++ option_list (entry_item named)),
     length (items ++ option_list (entry_item named)),
     out ++ option_list (entry_warning named)).
Proof.
  cbn zeta. unfold scan_entry, entry_item, entry_warning. cbn [fst snd].
  destruct (isfile (snd e)); [destruct (getsize (snd e)) as [sz|] |].
  - change (option_list (Some ?x)) with [x].
    change (option_list None) with (@nil line).
    rewrite group_by_snoc, length_app, app_nil_r. done.
  - change (option_list (Some ?x)) with [x].
    change (option_list None) with (@nil (nat * string)).
    by rewrite app_nil_r.
  - change (option_list None) with (@nil (nat * string)) at 1 2.
    change (option_list None) with (@nil line).
    by rewrite !app_nil_r.
Qed.

Lemma scan_entries (root : string) (files : list (string * node))
    (items : list (nat * string)) (out : list line) :
  let named := map (fun e => (OsPath.join root (fst e), snd e)) files in
  foldl (scan_entry root) (group_by items, length items, out) files
  = (group_by (items ++ omap entry_item named),
     length (items ++ omap entry_item named),
     out ++ omap entry_warning named).
Proof.
  cbn zeta. revert items out.
  induction files as [|e files IH]; intros items out.
  - cbn. by rewrite !app_nil_r.
  - cbn [foldl map]. rewrite scan_entry_step, IH, !omap_cons_list.
    by rewrite <- !app_assoc.
Qed.

Lemma scan_walk (yields : list (string * list string * list (string * node)))
    (items : list (nat * string)) (out : list line) :
  let named :=
    flat_map (fun '(root, _, files) =>
                map (fun e => (OsPath.join root (fst e), snd e)) files)
             yields in
  foldl (fun st '(root, _, files) => foldl (scan_entry root) st files)
        (group_by items, length items, out) yields
  = (group_by (items ++ omap entry_item named),
     length (items ++ omap entry_item named),
     out ++ omap entry_warning named).
Proof.
  cbn zeta. revert items out.
  induction yields as [|[[root dirs] files] yields IH]; intros items out.
  - cbn. by rewrite !app_nil_r.
  - cbn [foldl flat_map]. rewrite scan_entries, IH.
    by rewrite !omap_app, <- !app_assoc.
Qed.

(** What [scan] computes. *)
Lemma scan_spec (directory : string) (fs : tree) (recursive : bool) :
  scan directory fs recursive
  = (group_by (inventory directory fs recursive),
     length (inventory directory fs recursive),
     ScanningDirectory directory
       :: omap entry_warning (examined directory fs recursive)).
Proof.
  unfold scan, inventory, examined. destruct recursive.
  - apply (scan_walk _ [] [ScanningDirectory directory]).
  - apply (scan_entries directory fs [] [ScanningDirectory directory]).
Qed.

(** ** The loop over the size groups *)

Lemma file_info_loop_spec (directory : string) (fs : tree)
    (paths : list string) :
  file_info_loop directory fs paths
  = (map (fun p => (fst (compute_md5 directory fs p), OsPath.basename p))
         paths,
     concat (map (fun p => snd (compute_md5 directory fs p)) paths)).
Proof.
  unfold file_info_loop.
  enough (forall info out,
    foldl (fun '(file_info, out) path =>
             let '(file_hash, printed) := compute_md5 directory fs path in
             (file_info ++ [(file_hash, OsPath.basename path)],
              out ++ printed))
          (info, out) paths
    = (info ++ map (fun p => (fst (compute_md5 directory fs p),
                              OsPath.basename p)) paths,
       out ++ concat (map (fun p => snd (compute_md5 directory fs p)) paths)))
    as H by apply (H [] []).
  induction paths as [|p paths IH]; intros info out.
  - cbn. by rewrite !app_nil_r.
  - cbn [foldl map concat]. destruct (compute_md5 directory fs p) as [h pr].
    rewrite IH. cbn [fst snd]. by rewrite <- !app_assoc.
Qed.

Lemma file_info_of_length (directory : string) (fs : tree)
    (paths : list string) :
  length (file_info_of directory fs paths) = length paths.
Proof.
  unfold file_info_of. rewrite file_info_loop_spec. cbn. apply length_map.
Qed.

Lemma same_file_info_of (directory : string) (fs : tree)
    (paths : list string) (i j : nat) (p q : string) :
  paths !! i = Some p -> paths !! j = Some q ->
  same_file (file_info_of directory fs paths) i j
  = Some (same_content_or_name directory fs p q).
Proof.
  intros Hi Hj. unfold same_file, file_info_of.
  rewrite file_info_loop_spec. cbn [fst].
  change (map ?f paths) with (f <$> paths).
  rewrite !list_lookup_fmap, Hi, Hj. done.
Qed.

Lemma resolve_is_Some (directory : string) (fs : tree) (paths : list string) :
  exists groups, resolve paths (file_info_of directory fs paths) = Some groups.
Proof.
  destruct (resolve_spec paths (file_info_of directory fs paths)
              (file_info_of_length directory fs paths)) as (rho & -> & _).
  eauto.
Qed.

Lemma bucket_loop_spec (directory : string) (fs : tree)
    (size_dict : list (nat * list string)) :
  fst (bucket_loop directory fs size_dict)
  = Some (concat (map (fun e => groups_of_bucket directory fs (snd e))
                      size_dict)).
Proof.
  unfold bucket_loop.
  enough (forall found out,
    fst (foldl (fun '(duplicate_groups, out) '(size_val, paths) =>
           if Nat.ltb (length paths) 2 then (duplicate_groups, out)
           else
             match duplicate_groups with
             | None => (None, out)
             | Some found =>
                 let '(file_info, printed) :=
                   file_info_loop directory fs paths in
                 match resolve paths file_info with
                 | None => (None, out ++ printed)
                 | Some groups => (Some (found ++ groups), out ++ printed)
                 end
             end) (Some found, out) size_dict)
    = Some (found ++ concat (map (fun e => groups_of_bucket directory fs (snd e))
                                 size_dict))) as H by apply (H [] []).
  induction size_dict as [|[sz paths] size_dict IH]; intros found out.
  - cbn. by rewrite app_nil_r.
  - cbn [foldl map concat snd].
    assert (Hb : groups_of_bucket directory fs paths
                 = if Nat.ltb (length paths) 2 then []
                   else default [] (resolve paths
                                      (file_info_of directory fs paths)))
      by done.
    destruct (Nat.ltb (length paths) 2).
    + rewrite Hb. apply IH.
    + destruct (resolve_is_Some directory fs paths) as [groups Hg].
      rewrite Hg in Hb. unfold file_info_of in Hg.
      destruct (file_info_loop directory fs paths) as [info printed].
      cbn [fst] in Hg. rewrite Hg, IH, Hb. cbn. by rewrite app_assoc.
Qed.

(** [find_duplicates_by_size_and_hash] returns, and what it returns are
    the groups of the size groups of the inventory, in order. *)
Lemma find_duplicates_spec (directory : string) (fs : tree) (recursive : bool) :
  fst (find_duplicates_by_size_and_hash directory fs recursive)
  = Some (concat (map (fun e => groups_of_bucket directory fs (snd e))
                      (group_by (inventory directory fs recursive)))).
Proof.
  unfold find_duplicates_by_size_and_hash. rewrite scan_spec.
  destruct (Nat.eqb_spec (length (inventory directory fs recursive)) 0)
    as [E | _].
  - apply length_zero_iff_nil in E. by rewrite E.
  - pose proof (bucket_loop_spec directory fs
                  (group_by (inventory directory fs recursive))) as H.
    destruct (bucket_loop _ _ _) as [groups printed]. done.
Qed.

(** ** The groups of a size group *)

Lemma classes_short (rho : nat -> nat) (n : nat) : n < 2 -> classes rho n = [].
Proof.
  intros Hn. apply elem_of_nil_inv. intros g (r & -> & Hlen)%classes_elem.
  pose proof (length_filter (fun i => rho i = r) (seq 0 n)) as H.
  rewrite length_seq in H. lia.
Qed.

Lemma groups_of_bucket_spec (directory : string) (fs : tree)
    (paths : list string) :
  exists rho,
    groups_of_bucket directory fs paths
      = map (map (path_of paths)) (classes rho (length paths))
    /\ forall a b, a < length paths -> b < length paths ->
         rho a = rho b
         <-> rtsc (linked (file_info_of directory fs paths) (length paths)) a b.
Proof.
  destruct (resolve_spec paths (file_info_of directory fs paths)
              (file_info_of_length directory fs paths)) as (rho & Hres & Hinv).
  exists rho. split; [| done]. unfold groups_of_bucket. rewrite Hres.
  destruct (Nat.ltb_spec (length paths) 2) as [Hlt | _]; [| done].
  by rewrite classes_short.
Qed.

Lemma path_of_lookup (paths : list string) (i : nat) (p : string) :
  paths !! i = Some p -> path_of paths i = p.
Proof. unfold path_of. by intros ->. Qed.

(** Connected records of a size group come out in one group. *)
Lemma bucket_connected (directory : string) (fs : tree) (paths : list string)
    (a b : nat) (pa pb : string) :
  paths !! a = Some pa -> paths !! b = Some pb -> a <> b ->
  rtsc (linked (file_info_of directory fs paths) (length paths)) a b ->
  exists G,
    G ∈ groups_of_bucket directory fs paths /\ pa ∈ G /\ pb ∈ G
    /\ forall c pc, paths !! c = Some pc ->
         rtsc (linked (file_info_of directory fs paths) (length paths)) a c ->
         pc ∈ G.
Proof.
  intros Ha Hb Hne Hab.
  destruct (groups_of_bucket_spec directory fs paths) as (rho & -> & Hinv).
  pose proof (lookup_lt_Some _ _ _ Ha) as Hla.
  pose proof (lookup_lt_Some _ _ _ Hb) as Hlb.
  assert (Hmem : forall c pc, paths !! c = Some pc ->
            rtsc (linked (file_info_of directory fs paths) (length paths)) a c ->
            pc ∈ map (path_of paths)
                   (filter (fun i => rho i = rho a) (seq 0 (length paths)))).
  { intros c pc Hc Hac. pose proof (lookup_lt_Some _ _ _ Hc) as Hlc.
    apply list_elem_of_In, in_map_iff. exists c.
    split; [by apply path_of_lookup |].
    apply list_elem_of_In, class_elem. split; [| done].
    symmetry. by apply Hinv. }
  eexists. split; [| split; [| split]].
  - apply list_elem_of_In, in_map. apply list_elem_of_In.
    apply (class_emitted rho (length paths) a b); try done. by apply Hinv.
  - by apply (Hmem a).
  - by apply (Hmem b).
  - exact Hmem.
Qed.

Lemma same_linked (directory : string) (fs : tree) (paths : list string)
    (a b : nat) (pa pb : string) :
  paths !! a = Some pa -> paths !! b = Some pb -> a <> b ->
  same_content_or_name directory fs pa pb = true ->
  rtsc (linked (file_info_of directory fs paths) (length paths)) a b.
Proof.
  intros Ha Hb Hne Hs.
  apply linked_of_same; [by eapply lookup_lt_Some | by eapply lookup_lt_Some
                        | done |].
  by rewrite (same_file_info_of _ _ _ _ _ _ _ Ha Hb), Hs.
Qed.

Lemma bucket_groups_found (directory : string) (fs : tree) (recursive : bool)
    (sz : nat) (paths : list string) (G : list string) :
  (sz, paths) ∈ fst (fst (scan directory fs recursive)) ->
  G ∈ groups_of_bucket directory fs paths ->
  exists groups,
    fst (find_duplicates_by_size_and_hash directory fs recursive) = Some groups
    /\ G ∈ groups.
Proof.
  rewrite scan_spec, find_duplicates_spec. cbn [fst]. intros Hb HG.
  eexists. split; [done |].
  apply list_elem_of_In, in_concat. exists (groups_of_bucket directory fs paths).
  split; [| by apply list_elem_of_In].
  apply in_map_iff. exists (sz, paths). split; [done | by apply list_elem_of_In].
Qed.

(** C5: in a size group of the scan, if A and B are different records that
    share the digest or the name, and so are B and C, then A, B and C are in
    one and the same group of the result. *)
Theorem equivalence_transitive (directory : string) (fs : tree)
    (recursive : bool) (sz : nat) (paths : list string) (a b c : nat)
    (pa pb pc : string) :
  (sz, paths) ∈ fst (fst (scan directory fs recursive)) ->
  paths !! a = Some pa -> paths !! b = Some pb -> paths !! c = Some pc ->
  a <> b -> b <> c ->
  same_content_or_name directory fs pa pb = true ->
  same_content_or_name directory fs pb pc = true ->
  exists groups G,
    fst (find_duplicates_by_size_and_hash directory fs recursive) = Some groups
    /\ G ∈ groups /\ pa ∈ G /\ pb ∈ G /\ pc ∈ G.
Proof.
  intros Hbucket Ha Hb Hc Hab Hbc Hsab Hsbc.
  pose proof (same_linked directory fs paths a b pa pb Ha Hb Hab Hsab) as Lab.
  pose proof (same_linked directory fs paths b c pb pc Hb Hc Hbc Hsbc) as Lbc.
  destruct (bucket_connected directory fs paths a b pa pb Ha Hb Hab Lab)
    as (G & HG & HaG & HbG & Hall).
  destruct (bucket_groups_found directory fs recursive sz paths G Hbucket HG)
    as (groups & Hgroups & HGin).
  exists groups, G. repeat split; try done.
  apply (Hall c pc Hc). by transitivity b.
Qed.

Lemma equivalence_transitive_witness :
  exists groups G,
    fst (find_duplicates_by_size_and_hash "/d" chain_tree true) = Some groups
    /\ G ∈ groups
    /\ "/d/a/x.mp4" ∈ G /\ "/d/b/y.mp4" ∈ G /\ "/d/c/y.mp4" ∈ G.
Proof.
  apply (equivalence_transitive "/d" chain_tree true 4
           ["/d/a/x.mp4"; "/d/b/y.mp4"; "/d/c/y.mp4"] 0 1 2).
  - apply list_elem_of_In. vm_compute. left. reflexivity.
  - reflexivity.
  - reflexivity.
  - reflexivity.
  - lia.
  - lia.
  - vm_compute. reflexivity.
  - vm_compute. reflexivity.
Defined.

(** C6 as stated fails: in the size group of the three files of
    [scenario_tree] one group of two comes out, and the third file, which
    matches no other, is in no group. *)
Lemma bucket_union_counterexample :
  fst (fst (scan "/a" scenario_tree true))
    = [(4, ["/a/x.mp4"; "/a/b/x.mp4"; "/a/b/c/y.mp4"])]
  /\ resolve ["/a/x.mp4"; "/a/b/x.mp4"; "/a/b/c/y.mp4"]
       (file_info_of "/a" scenario_tree
          ["/a/x.mp4"; "/a/b/x.mp4"; "/a/b/c/y.mp4"])
     = Some [["/a/x.mp4"; "/a/b/x.mp4"]]
  /\ fst (find_duplicates_by_size_and_hash "/a" scenario_tree true)
     = Some [["/a/x.mp4"; "/a/b/x.mp4"]]
  /\ "/a/b/c/y.mp4" ∉ concat [["/a/x.mp4"; "/a/b/x.mp4"]].
Proof.
  split; [by vm_compute |]. split; [by vm_compute |].
  split; [by vm_compute |].
  cbn. intros H. apply list_elem_of_In in H. cbn in H.
  destruct H as [H | [H | []]]; discriminate.
Qed.

(** C6, as the code has it: the groups that come out of a size group have
    at least two members each, no record is in two of them or twice in one,
    and the records in them are those that share the digest or the name with
    another record of the size group. *)
Theorem bucket_groups_of_matched_records (paths : list string)
    (file_info : list (string * string)) :
  length file_info = length paths ->
  exists cls : list (list nat),
    resolve paths file_info = Some (map (map (path_of paths)) cls)
    /\ Forall (fun g => 2 <= length g) (map (map (path_of paths)) cls)
    /\ NoDup (concat cls)
    /\ forall i, i ∈ concat cls
         <-> i < length paths
             /\ exists j, j < length paths /\ j <> i
                  /\ same_file file_info i j = Some true.
Proof.
  intros Hlen. destruct (resolve_spec paths file_info Hlen) as (rho & -> & Hinv).
  exists (classes rho (length paths)). split; [done |].
  split; [| split; [apply classes_NoDup |]].
  - apply Forall_forall. intros G HG.
    apply list_elem_of_In, in_map_iff in HG as (g & <- & Hg).
    apply list_elem_of_In, classes_elem in Hg as (r & -> & Hlong).
    by rewrite length_map.
  - intros i. rewrite list_elem_of_In, in_concat. split.
    + intros (g & Hg & Hi). apply list_elem_of_In in Hg, Hi.
      apply classes_elem in Hg as (r & -> & Hlong).
      pose proof Hi as [Hr Hlt]%class_elem. split; [done |].
      destruct (NoDup_other (filter (fun i => rho i = r) (seq 0 (length paths)))
                  i) as (j & [Hrj Hj]%class_elem & Hne).
      { apply NoDup_filter, NoDup_ListNoDup, List.seq_NoDup. }
      { done. }
      apply (connected_neighbour file_info (length paths) i j); [| done].
      apply Hinv; [done | done | congruence].
    + intros (Hi & j & Hj & Hne & Hs).
      exists (filter (fun x => rho x = rho i) (seq 0 (length paths))). split.
      * apply list_elem_of_In, (class_emitted rho (length paths) i j);
          [done | done | done |].
        apply Hinv; [done | done |]. by apply linked_of_same.
      * apply list_elem_of_In, class_elem. done.
Qed.

Lemma bucket_groups_of_matched_records_witness :
  exists cls : list (list nat),
    resolve ["/a/x.mp4"; "/a/b/x.mp4"; "/a/b/c/y.mp4"]
            [("h1", "x.mp4"); ("h1", "x.mp4"); ("h2", "y.mp4")]
      = Some (map (map (path_of ["/a/x.mp4"; "/a/b/x.mp4"; "/a/b/c/y.mp4"]))
                  cls)
    /\ Forall (fun g => 2 <= length g)
         (map (map (path_of ["/a/x.mp4"; "/a/b/x.mp4"; "/a/b/c/y.mp4"])) cls)
    /\ NoDup (concat cls)
    /\ forall i, i ∈ concat cls
         <-> i < length ["/a/x.mp4"; "/a/b/x.mp4"; "/a/b/c/y.mp4"]
             /\ exists j, j < length ["/a/x.mp4"; "/a/b/x.mp4"; "/a/b/c/y.mp4"]
                  /\ j <> i
                  /\ same_file [("h1", "x.mp4"); ("h1", "x.mp4");
                                ("h2", "y.mp4")] i j = Some true.
Proof.
  apply (bucket_groups_of_matched_records
           ["/a/x.mp4"; "/a/b/x.mp4"; "/a/b/c/y.mp4"]
           [("h1", "x.mp4"); ("h1", "x.mp4"); ("h2", "y.mp4")]).
  reflexivity.
Defined.

(** ** Files that cannot be read *)

(** C1, the code at the failing input. The two files of [unreadable_tree]
    that cannot be opened have different names and nothing known in common
    but their size. On each of them [compute_md5] prints the error and
    returns the digest of the empty input instead of failing; the caller
    compares the two digests as it compares any others, so the two files
    come out as one group of duplicates, and [main] trashes one of them.
    The claim has such a file left out of the grouping by content, as the
    scan leaves out a file whose size cannot be read. *)
Theorem unreadable_files_grouped :
  open_rb "/d" unreadable_tree "/d/p.mp4" = None
  /\ open_rb "/d" unreadable_tree "/d/q.mp4" = None
  /\ compute_md5 "/d" unreadable_tree "/d/p.mp4"
     = ("d41d8cd98f00b204e9800998ecf8427e", [ErrorReading "/d/p.mp4"])
  /\ compute_md5 "/d" unreadable_tree "/d/q.mp4"
     = ("d41d8cd98f00b204e9800998ecf8427e", [ErrorReading "/d/q.mp4"])
  /\ OsPath.basename "/d/p.mp4" <> OsPath.basename "/d/q.mp4"
  /\ find_duplicates_by_size_and_hash "/d" unreadable_tree false
     = (Some [["/d/p.mp4"; "/d/q.mp4"]],
        [ScanningDirectory "/d"; FinishedScanning 3;
         ErrorReading "/d/p.mp4"; ErrorReading "/d/q.mp4"])
  /\ snd (fst (main (fs_send2trash no_links "/d" []) "/" "/d" false None
                    unreadable_tree))
     = [ScanningDirectory "/d"; FinishedScanning 3;
        ErrorReading "/d/p.mp4"; ErrorReading "/d/q.mp4"; FoundDuplicateSet;
        Member "/d/p.mp4"; Member "/d/q.mp4"; RetainingDeepest "/d/p.mp4";
        Trashed "/d/q.mp4"].
Proof.
  repeat split; by vm_compute.
Qed.

Lemma compute_md5_unopened (directory : string) (fs : tree) (p : string) :
  open_rb directory fs p = None ->
  compute_md5 directory fs p = (MD5.hexdigest [], [ErrorReading p]).
Proof. unfold compute_md5. by intros ->. Qed.

(** How far the defect reaches: [compute_md5] never fails. When [open]
    raises it prints the error and returns the digest of the empty input,
    and when a read raises, the digest of the bytes read before; the caller
    takes what is returned as the fingerprint. So any two different records
    of a size group that cannot be opened are in one group of the result,
    whatever their names. *)
Theorem unreadable_files_share_digest (directory : string) (fs : tree)
    (recursive : bool) (sz : nat) (paths : list string) (i j : nat)
    (p q : string) :
  (sz, paths) ∈ fst (fst (scan directory fs recursive)) ->
  paths !! i = Some p -> paths !! j = Some q -> i <> j ->
  open_rb directory fs p = None -> open_rb directory fs q = None ->
  compute_md5 directory fs p = (MD5.hexdigest [], [ErrorReading p])
  /\ compute_md5 directory fs q = (MD5.hexdigest [], [ErrorReading q])
  /\ (forall x reads md5_hash,
        open_rb directory fs x = Some reads ->
        read_loop [] reads = (md5_hash, true) ->
        compute_md5 directory fs x
        = (MD5.hexdigest md5_hash, [ErrorReading x]))
  /\ exists groups G,
       fst (find_duplicates_by_size_and_hash directory fs recursive)
         = Some groups
       /\ G ∈ groups /\ p ∈ G /\ q ∈ G.
Proof.
  intros Hbucket Hi Hj Hne Hp Hq.
  pose proof (compute_md5_unopened directory fs p Hp) as Hcp.
  pose proof (compute_md5_unopened directory fs q Hq) as Hcq.
  split; [done |]. split; [done |]. split.
  { intros x reads md5_hash Hx Hr. unfold compute_md5. by rewrite Hx, Hr. }
  assert (Hs : same_content_or_name directory fs p q = true).
  { unfold same_content_or_name. rewrite Hcp, Hcq. cbn [fst].
    by rewrite String.eqb_refl. }
  pose proof (same_linked directory fs paths i j p q Hi Hj Hne Hs) as L.
  destruct (bucket_connected directory fs paths i j p q Hi Hj Hne L)
    as (G & HG & HpG & HqG & _).
  destruct (bucket_groups_found directory fs recursive sz paths G Hbucket HG)
    as (groups & Hgroups & HGin).
  exists groups, G. done.
Qed.

Lemma unreadable_files_share_digest_witness :
  compute_md5 "/d" unreadable_tree "/d/p.mp4"
    = (MD5.hexdigest [], [ErrorReading "/d/p.mp4"])
  /\ compute_md5 "/d" unreadable_tree "/d/q.mp4"
     = (MD5.hexdigest [], [ErrorReading "/d/q.mp4"])
  /\ (forall x reads md5_hash,
        open_rb "/d" unreadable_tree x = Some reads ->
        read_loop [] reads = (md5_hash, true) ->
        compute_md5 "/d" unreadable_tree x
        = (MD5.hexdigest md5_hash, [ErrorReading x]))
  /\ exists groups G,
       fst (find_duplicates_by_size_and_hash "/d" unreadable_tree false)
         = Some groups
       /\ G ∈ groups /\ "/d/p.mp4" ∈ G /\ "/d/q.mp4" ∈ G.
Proof.
  apply (unreadable_files_share_digest "/d" unreadable_tree false 7
           ["/d/p.mp4"; "/d/q.mp4"; "/d/r.mp4"] 0 1).
  - apply list_elem_of_In. vm_compute. left. reflexivity.
  - reflexivity.
  - reflexivity.
  - lia.
  - vm_compute. reflexivity.
  - vm_compute. reflexivity.
Defined.

(** ** The tree *)

(** Induction on a tree, with the property available for the entries of a
    directory. *)
Fixpoint node_nested_ind (P : node -> Prop)
    (HR : forall f, P (Regular f))
    (HD : forall es, Forall (fun e => P (snd e)) es -> P (Directory es))
    (HL : forall t, P (Symlink t))
    (HS : P Special) (n : node) {struct n} : P n :=
  match n with
  | Regular f => HR f
  | Directory es =>
      HD es ((fix each (es : list (string * node))
                : Forall (fun e => P (snd e)) es :=
                match es with
                | [] => @List.Forall_nil _ (fun e => P (snd e))
                | (name, sub) :: rest =>
                    @List.Forall_cons _ (fun e => P (snd e)) (name, sub) rest
                      (node_nested_ind P HR HD HL HS sub) (each rest)
                end) es)
  | Symlink t => HL t
  | Special => HS
  end.

Lemma walk_dir (top : string) (es : list (string * node)) :
  walk top (Directory es)
  = (top, map fst (filter (fun e => entry_is_dir (snd e)) es),
     filter (fun e => negb (entry_is_dir (snd e))) es)
    :: flat_map (fun e => if real_dir (snd e)
                          then walk (OsPath.join top (fst e)) (snd e)
                          else []) es.
Proof.
  cbn [walk]. f_equal.
  induction es as [|[name sub] es IH]; [done |].
  cbn [flat_map fst snd]. by rewrite <- IH.
Qed.

Lemma descendants_dir (top : string) (es : list (string * node)) :
  descendants top (Directory es)
  = flat_map (fun e => (OsPath.join top (fst e), snd e)
                       :: descendants (OsPath.join top (fst e)) (snd e)) es.
Proof.
  cbn [descendants].
  induction es as [|[name sub] es IH]; [done |].
  cbn [flat_map fst snd]. by rewrite <- IH.
Qed.

Lemma files_of_app (a b : list (string * list string * list (string * node))) :
  files_of (a ++ b) = files_of a ++ files_of b.
Proof. unfold files_of. apply flat_map_app. Qed.

Lemma files_of_walk_dir (top : string) (es : list (string * node)) :
  files_of (walk top (Directory es))
  = map (fun e => (OsPath.join top (fst e), snd e))
        (filter (fun e => negb (entry_is_dir (snd e))) es)
    ++ flat_map (fun e => if real_dir (snd e)
                          then files_of (walk (OsPath.join top (fst e)) (snd e))
                          else []) es.
Proof.
  rewrite walk_dir. cbn [files_of flat_map]. f_equal.
  induction es as [|e es IH]; [done |].
  cbn [flat_map]. rewrite <- IH. fold (files_of (flat_map (fun e0 =>
    if real_dir (snd e0) then walk (OsPath.join top (fst e0)) (snd e0) else [])
    es)).
  change (flat_map _ (?a ++ ?b)) with (files_of (a ++ b)).
  rewrite files_of_app. f_equal. by destruct (real_dir (snd e)).
Qed.

Lemma real_dir_is_Directory (n : node) :
  real_dir n = true <-> exists es, n = Directory es.
Proof.
  split; [| by intros [es ->]].
  destruct n as [| es | [] |]; try done. eauto.
Qed.

(** The files [os.walk] lists are the descendants that are not
    directories. *)
Lemma files_of_walk_descendants (n : node) (top p : string) (m : node) :
  (p, m) ∈ files_of (walk top n)
  <-> (p, m) ∈ descendants top n /\ entry_is_dir m = false.
Proof.
  revert top. induction n as [f | es IH | t |] using node_nested_ind;
    intros top; try (cbn; rewrite elem_of_nil; tauto).
  rewrite files_of_walk_dir, descendants_dir, elem_of_app.
  rewrite !list_elem_of_In, in_map_iff, !in_flat_map.
  rewrite Forall_forall in IH. split.
  - intros [([name sub] & [= <- <-] & Hin) | ([name sub] & Hin & Hp)].
    + apply list_elem_of_In, list_elem_of_filter in Hin as [Hnd Hin].
      cbn in Hnd. apply negb_prop_elim, Is_true_false in Hnd.
      split; [| done]. exists (name, sub).
      split; [by apply list_elem_of_In | by left].
    + cbn [fst snd] in Hp. destruct (real_dir sub) eqn:E; [| done].
      apply list_elem_of_In in Hin, Hp.
      apply (IH (name, sub) Hin) in Hp as [Hp Hm].
      split; [| done]. exists (name, sub).
      split; [by apply list_elem_of_In |]. right. by apply list_elem_of_In.
  - intros [([name sub] & Hin & [[= <- <-] | Hp]) Hm].
    + left. exists (name, sub). split; [done |].
      apply list_elem_of_In, list_elem_of_filter.
      split; [| by apply list_elem_of_In]. cbn. by rewrite Hm.
    + right. exists (name, sub). split; [done |]. cbn [fst snd] in *.
      assert (E : real_dir sub = true).
      { apply real_dir_is_Directory. destruct sub; try done. eauto. }
      rewrite E. apply list_elem_of_In in Hin, Hp.
      apply list_elem_of_In, (IH (name, sub) Hin). done.
Qed.

Lemma isfile_not_dir (n : node) : isfile n = true -> entry_is_dir n = false.
Proof. by destruct n as [| | [] |]. Qed.

(** The entries the scanner examines and finds to be files are the visited
    entries that resolve to a regular file. *)
Lemma examined_visited (directory : string) (fs : tree) (recursive : bool)
    (p : string) (n : node) :
  isfile n = true ->
  (p, n) ∈ examined directory fs recursive
  <-> (p, n) ∈ visited directory fs recursive.
Proof.
  intros Hf. unfold examined, visited. destruct recursive; [| done].
  unfold listed_files. fold (files_of (walk directory (Directory fs))).
  rewrite files_of_walk_descendants. pose proof (isfile_not_dir n Hf). tauto.
Qed.

(** ** The inventory *)

Lemma values_of_elem {K V : Type} `{EqDecision K} (k : K) (v : V)
    (xs : list (K * V)) :
  v ∈ values_of k xs <-> (k, v) ∈ xs.
Proof.
  unfold values_of. rewrite list_elem_of_In, in_map_iff. split.
  - intros ([k' v'] & <- & [<- H]%list_elem_of_In%list_elem_of_filter). done.
  - intros H. exists (k, v). split; [done |].
    apply list_elem_of_In, list_elem_of_filter. done.
Qed.

Lemma group_by_member {K V : Type} `{EqDecision K} (k : K) (v : V)
    (xs : list (K * V)) :
  (exists vs, (k, vs) ∈ group_by xs /\ v ∈ vs) <-> (k, v) ∈ xs.
Proof.
  split.
  - intros (vs & [-> _]%group_by_spec & Hv). by apply values_of_elem.
  - intros H. exists (values_of k xs).
    split; [by eapply group_by_elem | by apply values_of_elem].
Qed.

Lemma entry_item_Some (e : string * node) (sz : nat) (p : string) :
  entry_item e = Some (sz, p)
  <-> fst e = p /\ isfile (snd e) = true /\ getsize (snd e) = Some sz.
Proof.
  unfold entry_item. destruct (isfile (snd e)); [| by intuition].
  destruct (getsize (snd e)); [| by intuition]. split.
  - by intros [= -> ->].
  - by intros (-> & _ & [= ->]).
Qed.

Lemma entry_warning_Some (e : string * node) (p : string) :
  entry_warning e = Some (CouldNotGetSize p)
  <-> fst e = p /\ isfile (snd e) = true /\ getsize (snd e) = None.
Proof.
  unfold entry_warning. destruct (isfile (snd e)); [| by intuition].
  destruct (getsize (snd e)); [by intuition |]. split.
  - by intros [= ->].
  - by intros (-> & _ & _).
Qed.

Lemma inventory_elem (directory : string) (fs : tree) (recursive : bool)
    (sz : nat) (p : string) :
  (sz, p) ∈ inventory directory fs recursive
  <-> exists n, (p, n) ∈ visited directory fs recursive
        /\ isfile n = true /\ getsize n = Some sz.
Proof.
  unfold inventory. rewrite list_elem_of_omap. split.
  - intros ([q n] & Hin & (Hq & Hf & Hs)%entry_item_Some). cbn in *. subst q.
    exists n. by rewrite <- examined_visited.
  - intros (n & Hin & Hf & Hs). exists (p, n).
    split; [by apply examined_visited | by apply entry_item_Some].
Qed.

(** C9 as stated fails: a symbolic link to a regular file is taken into the
    inventory, under its own path. Directories, dangling links and files
    without a readable size are left out. *)
Lemma symlink_in_inventory_counterexample :
  ("/d/l.mp4", Symlink (ToFile {| file_size := Some 4; file_opens := true;
                 file_reads := [Chunk (list_byte_of_string "BBBB")] |}))
    ∈ visited "/d" link_tree false
  /\ islink (Symlink (ToFile {| file_size := Some 4; file_opens := true;
                 file_reads := [Chunk (list_byte_of_string "BBBB")] |})) = true
  /\ scan "/d" link_tree false
     = ([(4, ["/d/f.mp4"; "/d/l.mp4"]); (5, ["/d/h.mp4"])], 3,
        [ScanningDirectory "/d"; CouldNotGetSize "/d/gone.mp4"])
  /\ scan "/d" link_tree true
     = ([(4, ["/d/f.mp4"; "/d/l.mp4"]); (5, ["/d/h.mp4"; "/d/sub/g.mp4"])], 4,
        [ScanningDirectory "/d"; CouldNotGetSize "/d/gone.mp4"]).
Proof.
  split; [| by vm_compute].
  apply list_elem_of_In. vm_compute. right. left. reflexivity.
Qed.

(** C9, as the code has it: the inventory holds exactly the visited entries
    (direct children, or all descendants) that resolve to a regular file,
    links included, and whose size can be read, each under its size; such an
    entry is never a directory. A visited file whose size cannot be read is
    reported and left out, and the scan goes on. *)
Theorem inventory_of_regular_files (directory : string) (fs : tree)
    (recursive : bool) :
  (forall sz p,
     (exists paths, (sz, paths) ∈ fst (fst (scan directory fs recursive))
                    /\ p ∈ paths)
     <-> exists n, (p, n) ∈ visited directory fs recursive
           /\ isfile n = true /\ getsize n = Some sz)
  /\ (forall p,
        CouldNotGetSize p ∈ snd (scan directory fs recursive)
        <-> exists n, (p, n) ∈ visited directory fs recursive
              /\ isfile n = true /\ getsize n = None)
  /\ (forall n, isfile n = true ->
        entry_is_dir n = false
        /\ (islink n = true <-> exists f, n = Symlink (ToFile f))).
Proof.
  rewrite scan_spec. cbn [fst snd]. split; [| split].
  - intros sz p. rewrite group_by_member. apply inventory_elem.
  - intros p. rewrite elem_of_cons, list_elem_of_omap. split.
    + intros [? | ([q n] & Hin & (Hq & Hf & Hs)%entry_warning_Some)]; [done |].
      cbn in *. subst q. exists n. by rewrite <- examined_visited.
    + intros (n & Hin & Hf & Hs). right. exists (p, n).
      split; [by apply examined_visited | by apply entry_warning_Some].
  - intros n Hf. split; [by apply isfile_not_dir |].
    destruct n as [f | | [f | | |] |]; try done.
    + split; [done | by intros [f0 [=]]].
    + split; [eauto | done].
Qed.

(** ** Taking a file out of the tree *)

Lemma remove_dir (via : links) (top : string) (es : list (string * node))
    (p : string) :
  remove_file via top (Directory es) p
  = Directory
      (flat_map (fun e =>
                   if entry_is_dir (snd e)
                   then [(fst e,
                          remove_file via (OsPath.join top (fst e)) (snd e) p)]
                   else if String.eqb (OsPath.join top (fst e)) p then []
                        else [(fst e,
                               without via (OsPath.join top (fst e)) (snd e) p)])
                es).
Proof.
  cbn [remove_file]. f_equal.
  induction es as [|[name sub] es IH]; [done |].
  cbn [flat_map fst snd]. rewrite <- IH.
  destruct (entry_is_dir sub); [done |].
  by destruct (String.eqb (OsPath.join top name) p).
Qed.

Lemma remove_file_kind (via : links) (top : string) (n : node) (p : string) :
  entry_is_dir (remove_file via top n p) = entry_is_dir n
  /\ real_dir (remove_file via top n p) = real_dir n
  /\ isfile (remove_file via top n p) = isfile n.
Proof. by destruct n. Qed.

Lemma without_not_dir (via : links) (path : string) (n : node) (p : string) :
  entry_is_dir n = false -> entry_is_dir (without via path n p) = false.
Proof. intros H. unfold without. by destruct (py_in _ _). Qed.

(** An entry that is still a file after the removal is the entry it was,
    and did not resolve through the removed one. *)
Lemma without_file (via : links) (path : string) (n : node) (p : string) :
  isfile (without via path n p) = true ->
  without via path n p = n /\ p ∉ resolves_through via path n.
Proof.
  unfold without. destruct (py_in p (resolves_through via path n)) eqn:E;
    [done |].
  intros _. split; [done |]. intros Hin%py_in_spec. congruence.
Qed.

Lemma without_same (via : links) (path : string) (n : node) (p : string) :
  p ∉ resolves_through via path n -> without via path n p = n.
Proof.
  intros Hp. unfold without.
  destruct (py_in p (resolves_through via path n)) eqn:E; [| done].
  by apply py_in_spec in E.
Qed.

Lemma remove_path_entries (via : links) (directory : string) (fs : tree)
    (p : string) :
  Directory (remove_path via directory fs p)
  = remove_file via directory (Directory fs) p.
Proof. unfold remove_path. by rewrite remove_dir. Qed.

Lemma filter_cons_bool {A : Type} (f : A -> bool) (x : A) (l : list A) :
  filter (fun x => f x) (x :: l)
  = if f x then x :: filter (fun x => f x) l else filter (fun x => f x) l.
Proof. rewrite filter_cons. by destruct (f x). Qed.

Lemma filter_cons_path {B : Type} (p : string) (e : string * B)
    (l : list (string * B)) :
  filter (fun e => fst e <> p) (e :: l)
  = if String.eqb (fst e) p then filter (fun e => fst e <> p) l
    else e :: filter (fun e => fst e <> p) l.
Proof.
  rewrite filter_cons. destruct (String.eqb_spec (fst e) p).
  - by rewrite decide_False by (by intros ?).
  - by rewrite decide_True.
Qed.

Lemma strike_app (via : links) (p : string) (l k : list (string * node)) :
  strike via p (l ++ k) = strike via p l ++ strike via p k.
Proof. unfold strike. by rewrite filter_app, map_app. Qed.

Lemma strike_cons (via : links) (p : string) (e : string * node)
    (l : list (string * node)) :
  strike via p (e :: l)
  = (if String.eqb (fst e) p then []
     else [(fst e, without via (fst e) (snd e) p)]) ++ strike via p l.
Proof.
  unfold strike. rewrite filter_cons_path.
  by destruct (String.eqb (fst e) p).
Qed.

Lemma elem_of_strike (via : links) (p : string) (l : list (string * node))
    (e' : string * node) :
  e' ∈ strike via p l
  <-> exists e, e ∈ l /\ fst e <> p
        /\ e' = (fst e, without via (fst e) (snd e) p).
Proof.
  unfold strike. rewrite list_elem_of_In, in_map_iff. split.
  - intros (e & <- & [Hne Hin]%list_elem_of_In%list_elem_of_filter). eauto.
  - intros (e & Hin & Hne & ->). exists e. split; [done |].
    apply list_elem_of_In, list_elem_of_filter. done.
Qed.

Lemma strike_paths (via : links) (p : string) (l : list (string * node)) :
  map fst (strike via p l) = filter (fun q => q <> p) (map fst l).
Proof.
  induction l as [|e l IH]; [done |].
  rewrite strike_cons, map_app, IH. cbn [map]. rewrite filter_cons.
  destruct (String.eqb_spec (fst e) p).
  - by rewrite decide_False by (by intros ?).
  - by rewrite decide_True.
Qed.

(** The entries other than directories of a directory, after the removal. *)
Lemma named_files_remove (via : links) (top : string)
    (es : list (string * node)) (p : string) :
  map (fun e => (OsPath.join top (fst e), snd e))
      (filter (fun e => negb (entry_is_dir (snd e)))
         (flat_map (fun e =>
                      if entry_is_dir (snd e)
                      then [(fst e,
                             remove_file via (OsPath.join top (fst e))
                                         (snd e) p)]
                      else if String.eqb (OsPath.join top (fst e)) p then []
                           else [(fst e,
                                  without via (OsPath.join top (fst e))
                                          (snd e) p)]) es))
  = strike via p
      (map (fun e => (OsPath.join top (fst e), snd e))
           (filter (fun e => negb (entry_is_dir (snd e))) es)).
Proof.
  induction es as [|[name sub] es IH]; [done |].
  cbn [flat_map fst snd]. rewrite filter_app, map_app, IH.
  rewrite (filter_cons_bool _ (name, sub)). cbn [snd].
  destruct (entry_is_dir sub) eqn:E.
  - rewrite filter_cons_bool, filter_nil. cbn [snd].
    destruct (remove_file_kind via (OsPath.join top name) sub p)
      as (-> & _ & _).
    by rewrite E.
  - cbn [negb map fst snd]. rewrite strike_cons. cbn [fst snd].
    destruct (String.eqb (OsPath.join top name) p); [done |].
    rewrite filter_cons_bool, filter_nil. cbn [snd].
    by rewrite (without_not_dir via _ sub p E).
Qed.

(** The entries [os.walk] lists after the removal are those listed before,
    without the removed one and with the links to it left dangling. *)
Lemma files_of_walk_remove (via : links) (n : node) (top p : string) :
  files_of (walk top (remove_file via top n p))
  = strike via p (files_of (walk top n)).
Proof.
  revert top. induction n as [f | es IH | t |] using node_nested_ind;
    intros top; try done.
  rewrite remove_dir, !files_of_walk_dir, strike_app. f_equal.
  - apply named_files_remove.
  - induction IH as [|[name sub] es Hsub _ IHes]; [done |].
    cbn [flat_map fst snd] in *. rewrite flat_map_app, strike_app, IHes.
    f_equal. destruct (entry_is_dir sub) eqn:E.
    + cbn [flat_map fst snd]. rewrite app_nil_r.
      destruct (remove_file_kind via (OsPath.join top name) sub p)
        as (_ & -> & _).
      destruct (real_dir sub); [apply Hsub | done].
    + assert (real_dir sub = false) as -> by (unfold real_dir; by rewrite E).
      destruct (String.eqb (OsPath.join top name) p); [done |].
      cbn [flat_map fst snd]. unfold real_dir.
      by rewrite (without_not_dir via _ sub p E).
Qed.

Lemma listed_files_remove (via : links) (directory : string) (fs : tree)
    (p : string) :
  listed_files directory (remove_path via directory fs p)
  = strike via p (listed_files directory fs).
Proof.
  unfold listed_files.
  fold (files_of (walk directory (Directory (remove_path via directory fs p)))).
  fold (files_of (walk directory (Directory fs))).
  rewrite remove_path_entries. apply files_of_walk_remove.
Qed.

Lemma file_entries_remove (via : links) (directory : string) (fs : tree)
    (recursive : bool) (p : string) :
  file_entries directory (remove_path via directory fs p) recursive
  = strike via p (file_entries directory fs recursive).
Proof.
  unfold file_entries. destruct recursive.
  - apply listed_files_remove.
  - unfold remove_path. rewrite remove_dir. apply named_files_remove.
Qed.

Lemma file_entries_remove_all (via : links) (directory : string) (fs : tree)
    (recursive : bool) (fps : list string) :
  file_entries directory (remove_all via directory fs fps) recursive
  = strike_all via fps (file_entries directory fs recursive).
Proof.
  unfold remove_all, strike_all. revert fs.
  induction fps as [|p fps IH]; intros fs; [done |].
  cbn [foldl]. by rewrite IH, file_entries_remove.
Qed.

(** An entry that is a file after several removals is an entry of before,
    is none of those removed, and resolved through none of them. *)
Lemma strike_all_file (via : links) (fps : list string)
    (l : list (string * node)) (q : string) (n : node) :
  (q, n) ∈ strike_all via fps l -> isfile n = true ->
  (q, n) ∈ l /\ (q ∉ fps)
  /\ forall p, p ∈ fps -> p ∉ resolves_through via q n.
Proof.
  unfold strike_all. revert l.
  induction fps as [|p fps IH]; intros l Hin Hfile.
  - split; [done |]. split; [apply not_elem_of_nil |].
    by intros p ?%elem_of_nil.
  - cbn [foldl] in Hin. destruct (IH _ Hin Hfile) as (Hs & Hq & Hvia).
    apply elem_of_strike in Hs as ([q0 n0] & Hl & Hne & [= -> ->]).
    cbn [fst snd] in *.
    destruct (without_file via q0 n0 p Hfile) as [Heq Hp].
    rewrite Heq in *. split; [done |].
    split; [by apply not_elem_of_cons |].
    intros p' [-> | Hp']%elem_of_cons; [done | by apply Hvia].
Qed.

Lemma strike_all_kept (via : links) (fps : list string)
    (l : list (string * node)) (q : string) (n : node) :
  (q, n) ∈ l -> q ∉ fps ->
  (forall p, p ∈ fps -> p ∉ resolves_through via q n) ->
  (q, n) ∈ strike_all via fps l.
Proof.
  unfold strike_all. revert l.
  induction fps as [|p fps IH]; intros l Hin Hq Hvia; [done |].
  apply not_elem_of_cons in Hq as [Hne Hq]. cbn [foldl].
  apply IH; [| done | intros p' Hp'; apply Hvia, elem_of_cons; by right].
  apply elem_of_strike. exists (q, n). split; [done |]. split; [done |].
  cbn [fst snd]. rewrite without_same; [done |].
  apply Hvia, elem_of_cons. by left.
Qed.

Lemma NoDup_strike_all (via : links) (fps : list string)
    (l : list (string * node)) :
  NoDup (map fst l) -> NoDup (map fst (strike_all via fps l)).
Proof.
  unfold strike_all. revert l.
  induction fps as [|p fps IH]; intros l Hn; [done |].
  cbn [foldl]. apply IH. rewrite strike_paths. by apply NoDup_filter.
Qed.

Lemma entry_item_path (e : string * node) (x : nat * string) :
  entry_item e = Some x -> snd x = fst e.
Proof. destruct x. by intros (<- & _)%entry_item_Some. Qed.

(** The inventory is made of the entries other than directories. *)
Lemma inventory_file_entries (directory : string) (fs : tree)
    (recursive : bool) :
  inventory directory fs recursive
  = omap entry_item (file_entries directory fs recursive).
Proof.
  unfold inventory, examined, file_entries. destruct recursive; [done |].
  induction fs as [|[name sub] fs IH]; [done |].
  cbn [map]. rewrite omap_cons_list, IH, (filter_cons_bool _ (name, sub)).
  cbn [snd]. destruct (entry_is_dir sub) eqn:E.
  - cbn [negb]. unfold entry_item. cbn [fst snd].
    destruct (isfile sub) eqn:F; [| done].
    apply isfile_not_dir in F. congruence.
  - cbn [negb map]. by rewrite omap_cons_list.
Qed.

Lemma inventory_entry (directory : string) (fs : tree) (recursive : bool)
    (sz : nat) (q : string) :
  (sz, q) ∈ inventory directory fs recursive
  <-> exists n, (q, n) ∈ file_entries directory fs recursive
        /\ isfile n = true /\ getsize n = Some sz.
Proof.
  rewrite inventory_file_entries, list_elem_of_omap. split.
  - intros ([p n] & Hin & (E & Hf & Hs)%entry_item_Some).
    cbn [fst snd] in *. subst p. eauto.
  - intros (n & Hin & Hf & Hs). exists (q, n). split; [done |].
    by apply entry_item_Some.
Qed.

Lemma file_entries_listed (directory : string) (fs : tree) (recursive : bool)
    (e : string * node) :
  e ∈ file_entries directory fs recursive -> e ∈ listed_files directory fs.
Proof.
  unfold file_entries. destruct recursive; [done |]. intros He.
  unfold listed_files. fold (files_of (walk directory (Directory fs))).
  rewrite files_of_walk_dir. apply elem_of_app. by left.
Qed.

Lemma NoDup_file_entries (directory : string) (fs : tree) (recursive : bool) :
  NoDup (map fst (listed_files directory fs)) ->
  NoDup (map fst (file_entries directory fs recursive)).
Proof.
  unfold file_entries. destruct recursive; [done |].
  unfold listed_files. fold (files_of (walk directory (Directory fs))).
  rewrite files_of_walk_dir, map_app. by intros [? _]%NoDup_app.
Qed.

Lemma file_entries_visited (directory : string) (fs : tree) (recursive : bool)
    (p : string) (n : node) :
  isfile n = true ->
  (p, n) ∈ file_entries directory fs recursive
  <-> (p, n) ∈ visited directory fs recursive.
Proof.
  intros Hf. rewrite <- (examined_visited directory fs recursive p n Hf).
  unfold file_entries, examined. destruct recursive; [done |].
  rewrite !list_elem_of_In, !in_map_iff. split.
  - intros (e & He & [_ Hin]%list_elem_of_In%list_elem_of_filter).
    exists e. split; [done | by apply list_elem_of_In].
  - intros (e & He & Hin). exists e. split; [done |].
    apply list_elem_of_In, list_elem_of_filter.
    split; [| by apply list_elem_of_In].
    injection He as _ ->. apply isfile_not_dir in Hf. by rewrite Hf.
Qed.

Lemma NoDup_inventory_paths (l : list (string * node)) :
  NoDup (map fst l) -> NoDup (map snd (omap entry_item l)).
Proof.
  induction l as [|e l IH]; intros Hn; [constructor |].
  cbn [map] in Hn. apply NoDup_cons in Hn as [Hfresh Hn].
  rewrite omap_cons_list. destruct (entry_item e) as [x|] eqn:E.
  - change (option_list (Some x)) with [x]. cbn [app map].
    apply NoDup_cons. split; [| by apply IH].
    rewrite (entry_item_path e x E).
    intros (x' & Hx' & (e' & He' & Hy)%list_elem_of_In%list_elem_of_omap)
           %list_elem_of_In%in_map_iff.
    apply Hfresh. apply entry_item_path in Hy. rewrite <- Hx', Hy.
    apply list_elem_of_In, in_map. by apply list_elem_of_In.
  - change (option_list None) with (@nil (nat * string)). by apply IH.
Qed.

Lemma find_unique (l : list (string * node)) (q : string) (n : node) :
  NoDup (map fst l) -> (q, n) ∈ l ->
  List.find (fun e => String.eqb (fst e) q) l = Some (q, n).
Proof.
  induction l as [|e l IH]; intros Hn Hin; [by apply elem_of_nil in Hin |].
  cbn [map] in Hn. apply NoDup_cons in Hn as [Hfresh Hn]. cbn [List.find].
  apply elem_of_cons in Hin as [<- | Hin].
  - cbn [fst]. by rewrite String.eqb_refl.
  - destruct (String.eqb_spec (fst e) q) as [Heq | _]; [| by apply IH].
    destruct Hfresh. rewrite Heq.
    apply list_elem_of_In, (in_map fst l (q, n)). by apply list_elem_of_In.
Qed.

Lemma locate_entry (directory : string) (fs : tree) (q : string) (n : node) :
  NoDup (map fst (listed_files directory fs)) ->
  (q, n) ∈ listed_files directory fs ->
  locate directory fs q = Some n.
Proof.
  intros Hn Hin. unfold locate. by rewrite (find_unique _ q n Hn Hin).
Qed.

Lemma compute_md5_located (directory : string) (fs fs' : tree) (q : string) :
  locate directory fs' q = locate directory fs q ->
  compute_md5 directory fs' q = compute_md5 directory fs q.
Proof. intros H. unfold compute_md5, open_rb. by rewrite H. Qed.

(** What a scan finds after several removals was found before, is none of
    the removed paths, and reads as before. *)
Lemma survivor (via : links) (directory : string) (fs : tree)
    (recursive : bool) (fps : list string) (sz : nat) (q : string) :
  NoDup (map fst (listed_files directory fs)) ->
  (sz, q) ∈ inventory directory (remove_all via directory fs fps) recursive ->
  (sz, q) ∈ inventory directory fs recursive /\ (q ∉ fps)
  /\ compute_md5 directory (remove_all via directory fs fps) q
     = compute_md5 directory fs q.
Proof.
  intros Hn (n & Hin & Hf & Hs)%inventory_entry.
  rewrite file_entries_remove_all in Hin.
  apply strike_all_file in Hin as (Hin & Hq & Hvia); [| done].
  split; [apply inventory_entry; eauto |]. split; [done |].
  apply file_entries_listed in Hin.
  apply compute_md5_located.
  rewrite (locate_entry directory fs q n Hn Hin).
  apply locate_entry.
  - change (listed_files directory (remove_all via directory fs fps))
      with (file_entries directory (remove_all via directory fs fps) true).
    rewrite file_entries_remove_all. by apply NoDup_strike_all.
  - change (listed_files directory (remove_all via directory fs fps))
      with (file_entries directory (remove_all via directory fs fps) true).
    rewrite file_entries_remove_all. by apply strike_all_kept.
Qed.

Lemma NoDup_survivors (via : links) (directory : string) (fs : tree)
    (recursive : bool) (fps : list string) :
  NoDup (map fst (listed_files directory fs)) ->
  NoDup (map snd (inventory directory (remove_all via directory fs fps)
                    recursive)).
Proof.
  intros Hn. rewrite inventory_file_entries, file_entries_remove_all.
  apply NoDup_inventory_paths, NoDup_strike_all.
  by apply NoDup_file_entries.
Qed.

Lemma filter_all {A : Type} (P : A -> Prop) `{forall x, Decision (P x)}
    (l : list A) :
  (forall x, x ∈ l -> P x) -> filter P l = l.
Proof.
  induction l as [|x l IH]; intros Hall; [done |].
  rewrite filter_cons_True by (apply Hall, elem_of_cons; by left).
  rewrite IH; [done |]. intros y Hy. apply Hall, elem_of_cons. by right.
Qed.

Lemma filter_none {A : Type} (P : A -> Prop) `{forall x, Decision (P x)}
    (l : list A) :
  (forall x, x ∈ l -> ~ P x) -> filter P l = [].
Proof.
  induction l as [|x l IH]; intros Hall; [done |].
  rewrite filter_cons_False by (apply Hall, elem_of_cons; by left).
  apply IH. intros y Hy. apply Hall, elem_of_cons. by right.
Qed.

Lemma attempt_each_all_returned (send2trash : string -> tree -> tree * bool)
    (via : links) (directory : string) (fps : list string) (fs fs' : tree)
    (outcomes : list bool) :
  (forall fp w w', send2trash fp w = (w', true) ->
                   w' = remove_path via directory w fp) ->
  attempt_each send2trash fps fs = (fs', outcomes) ->
  Forall (fun o => o = true) outcomes ->
  fs' = remove_all via directory fs fps.
Proof.
  intros Hcontract. revert fs outcomes.
  induction fps as [|fp fps IH]; intros fs outcomes Hrun Hall.
  - cbn in Hrun. by injection Hrun as <- _.
  - cbn [attempt_each] in Hrun.
    destruct (send2trash fp fs) as [w1 r] eqn:E1.
    destruct (attempt_each send2trash fps w1) as [w2 os] eqn:E2.
    injection Hrun as <- <-. apply Forall_cons in Hall as [-> Hall].
    apply Hcontract in E1 as ->. unfold remove_all. cbn [foldl].
    by apply (IH _ os).
Qed.

(** ** A second run after the disposal *)

Section SecondRun.

Variables (directory : string) (fs fs1 : tree) (gone : list string).
Variables (paths paths' : list string).

(** The files of a size group of the second tree read as in the first. *)
Hypothesis same_digest :
  forall q, q ∈ paths' ->
    compute_md5 directory fs1 q = compute_md5 directory fs q.

Lemma same_content_or_name_kept (p q : string) :
  p ∈ paths' -> q ∈ paths' ->
  same_content_or_name directory fs1 p q
  = same_content_or_name directory fs p q.
Proof.
  intros Hp Hq. unfold same_content_or_name. by rewrite !same_digest.
Qed.

Hypothesis kept : forall p, p ∈ paths' -> p ∈ paths /\ p ∉ gone.

(** Records connected in a size group of the second run were connected in
    the size group of the first run. *)
Lemma connected_before (i' j' : nat) :
  rtsc (linked (file_info_of directory fs1 paths') (length paths')) i' j' ->
  i' < length paths' ->
  forall i0, paths !! i0 = paths' !! i' ->
    exists j, paths !! j = paths' !! j'
      /\ rtsc (linked (file_info_of directory fs paths) (length paths)) i0 j.
Proof.
  induction 1 as [x | x y z Hxy Hyz IH]; intros Hx i0 Hi0.
  - exists i0. done.
  - assert (Hy : y < length paths').
    { destruct Hxy as [(? & ? & ?) | (? & ? & ?)]; lia. }
    destruct (lookup_lt_is_Some_2 paths' x Hx) as [px Hpx].
    destruct (lookup_lt_is_Some_2 paths' y Hy) as [py Hpy].
    assert (Hsame : same_content_or_name directory fs px py = true).
    { rewrite <- same_content_or_name_kept
        by (by eapply list_elem_of_lookup_2).
      assert (same_file (file_info_of directory fs1 paths') x y = Some true)
        as Hs.
      { destruct Hxy as [(_ & _ & ?) | (_ & _ & ?)]; [done |].
        by rewrite same_file_sym. }
      rewrite (same_file_info_of _ _ _ _ _ _ _ Hpx Hpy) in Hs. congruence. }
    destruct (kept py) as [Hin _]; [by eapply list_elem_of_lookup_2 |].
    apply list_elem_of_lookup_1 in Hin as [j Hj].
    destruct (IH Hy j) as (k & Hk & Hjk); [congruence |].
    exists k. split; [done |]. transitivity j; [| done].
    destruct (decide (i0 = j)) as [-> | Hne]; [done |].
    apply (same_linked directory fs paths i0 j px py); [congruence | done..].
Qed.

Hypothesis distinct : NoDup paths'.

(** A group of the second run has two different members, and lies inside
    one group of the first run. *)
Lemma second_run_group (G' : list string) :
  G' ∈ groups_of_bucket directory fs1 paths' ->
  exists G p0 p1,
    G ∈ groups_of_bucket directory fs paths
    /\ p0 <> p1 /\ p0 ∈ G' /\ p1 ∈ G'
    /\ forall x, x ∈ G' -> x ∈ G /\ x ∉ gone.
Proof.
  destruct (groups_of_bucket_spec directory fs1 paths') as (rho' & -> & Hinv').
  intros (g' & <- & Hg')%list_elem_of_In%in_map_iff.
  apply list_elem_of_In, classes_elem in Hg' as (r & Hg' & Hlong).
  assert (Hnd : NoDup g').
  { rewrite Hg'. apply NoDup_filter, NoDup_ListNoDup, List.seq_NoDup. }
  assert (Hcls : forall i, i ∈ g' -> rho' i = r /\ i < length paths').
  { intros i. rewrite Hg'. apply class_elem. }
  destruct g' as [|a [|b rest]]; cbn in Hlong; [lia | lia |].
  assert (Ha : a ∈ a :: b :: rest) by (apply elem_of_cons; by left).
  assert (Hb : b ∈ a :: b :: rest)
    by (apply elem_of_cons; right; apply elem_of_cons; by left).
  assert (Hab : a <> b).
  { apply NoDup_cons in Hnd as [Hnot _]. intros ->. apply Hnot.
    apply elem_of_cons. by left. }
  destruct (Hcls a Ha) as [Hra Hla]. destruct (Hcls b Hb) as [Hrb Hlb].
  destruct (lookup_lt_is_Some_2 paths' a Hla) as [pa Hpa].
  destruct (lookup_lt_is_Some_2 paths' b Hlb) as [pb Hpb].
  assert (Hpab : pa <> pb).
  { intros ->. apply Hab. exact (NoDup_lookup paths' a b pb distinct Hpa Hpb). }
  destruct (kept pa) as [Hin _]; [by eapply list_elem_of_lookup_2 |].
  apply list_elem_of_lookup_1 in Hin as [i0 Hi0].
  assert (Hconn : forall i', i' ∈ a :: b :: rest ->
            exists i, paths !! i = paths' !! i'
              /\ rtsc (linked (file_info_of directory fs paths) (length paths))
                      i0 i).
  { intros i' Hi'. destruct (Hcls i' Hi') as [Hri' Hli'].
    apply (connected_before a i'); [| done | congruence].
    apply Hinv'; [done | done | congruence]. }
  destruct (Hconn b Hb) as (i1 & Hi1 & H01).
  assert (i0 <> i1) by (intros ->; congruence).
  destruct (bucket_connected directory fs paths i0 i1 pa pb)
    as (G & HG & _ & _ & Hall); [done | congruence | done | done |].
  exists G, pa, pb. split; [done |]. split; [done |].
  assert (Hmem : forall i', i' ∈ a :: b :: rest ->
            forall p, paths' !! i' = Some p ->
              p ∈ map (path_of paths') (a :: b :: rest)).
  { intros i' Hi' p Hp. apply list_elem_of_In, in_map_iff. exists i'.
    split; [by apply path_of_lookup | by apply list_elem_of_In]. }
  split; [by apply (Hmem a) |]. split; [by apply (Hmem b) |].
  intros x (i' & <- & Hi')%list_elem_of_In%in_map_iff.
  apply list_elem_of_In in Hi'. destruct (Hcls i' Hi') as [_ Hli'].
  destruct (lookup_lt_is_Some_2 paths' i' Hli') as [p Hp].
  rewrite (path_of_lookup _ _ _ Hp).
  destruct (kept p) as [_ Hng]; [by eapply list_elem_of_lookup_2 |].
  split; [| done]. destruct (Hconn i' Hi') as (i & Hi & H0i).
  apply (Hall i p); [congruence | done].
Qed.

End SecondRun.

(** Nothing is trashed from a group of two or more different survivors of
    one earlier group. *)
Lemma retention_of_survivors (cwd : string) (keep : option string)
    (G G' : list string) (retained trash : list string) (p0 p1 : string) :
  retention cwd keep G = Some (retained, trash) ->
  p0 <> p1 -> p0 ∈ G' -> p1 ∈ G' ->
  (forall x, x ∈ G' -> x ∈ G /\ x ∉ trash) ->
  exists retained', retention cwd keep G' = Some (retained', []).
Proof.
  intros Hret Hne H0 H1 Hsub.
  assert (HG : G <> []).
  { intros ->. destruct (Hsub p0 H0) as [Hin _]. by apply elem_of_nil in Hin. }
  destruct (retention_cases cwd keep G HG)
    as [(kd & -> & Hkd & Him & Hret') | (k & _ & _ & _ & Hret')];
    rewrite Hret' in Hret; injection Hret as <- <-.
  - assert (Hin : forall x, x ∈ G' -> is_in_directory cwd x kd).
    { intros x Hx. destruct (Hsub x Hx) as [HxG Hxt].
      destruct (is_in_directory cwd x kd) eqn:E; [done |].
      exfalso. apply Hxt. by apply candidates_outside. }
    unfold retention. cbn [truthy].
    apply String.eqb_neq in Hkd. rewrite Hkd. cbn [negb].
    rewrite (filter_all _ G' Hin).
    destruct G' as [|x G']; [by apply elem_of_nil in H0 |].
    eexists. f_equal. f_equal. apply filter_none.
    intros y Hy Hn. apply negb_prop_elim in Hn. apply Hn.
    apply Is_true_true. by apply py_in_spec.
  - assert (Hk : forall x, x ∈ G' -> x = k).
    { intros x Hx. destruct (Hsub x Hx) as [HxG Hxt].
      destruct (String.eqb_spec x k) as [? | Hxk]; [done |].
      exfalso. apply Hxt. apply list_elem_of_filter. split; [| done].
      apply negb_prop_intro. intros E%Is_true_true%String.eqb_eq. done. }
    exfalso. apply Hne. by rewrite (Hk p0), (Hk p1).
Qed.

(** ** The whole run *)

Lemma found_groups (directory : string) (fs : tree) (recursive : bool)
    (groups : list (list string)) :
  fst (find_duplicates_by_size_and_hash directory fs recursive) = Some groups ->
  forall G, G ∈ groups
    <-> exists sz paths,
          (sz, paths) ∈ group_by (inventory directory fs recursive)
          /\ G ∈ groups_of_bucket directory fs paths.
Proof.
  rewrite find_duplicates_spec. intros [= <-] G.
  rewrite list_elem_of_In, in_concat. split.
  - intros (gs & ([sz paths] & <- & Hb)%in_map_iff & HG).
    exists sz, paths. split; by apply list_elem_of_In.
  - intros (sz & paths & Hb & HG).
    exists (groups_of_bucket directory fs paths).
    split; [| by apply list_elem_of_In].
    apply in_map_iff. exists (sz, paths). split; [done | by apply list_elem_of_In].
Qed.

Lemma groups_of_bucket_long (directory : string) (fs : tree)
    (paths G : list string) :
  G ∈ groups_of_bucket directory fs paths -> 2 <= length G.
Proof.
  destruct (groups_of_bucket_spec directory fs paths) as (rho & -> & _).
  intros (g & <- & Hg)%list_elem_of_In%in_map_iff.
  apply list_elem_of_In, classes_elem in Hg as (r & -> & Hlong).
  by rewrite length_map.
Qed.

Lemma found_groups_nonempty (directory : string) (fs : tree) (recursive : bool)
    (groups : list (list string)) :
  fst (find_duplicates_by_size_and_hash directory fs recursive) = Some groups ->
  Forall (fun g => g <> []) groups.
Proof.
  intros Hg. apply Forall_forall. intros G HG.
  apply (found_groups _ _ _ _ Hg) in HG as (sz & paths & _ & HG).
  apply groups_of_bucket_long in HG. intros ->. cbn in HG. lia.
Qed.

Lemma NoDup_values_of (sz : nat) (inv : list (nat * string)) :
  NoDup (map snd inv) -> NoDup (values_of sz inv).
Proof.
  unfold values_of. induction inv as [|[s p] inv IH]; [constructor |].
  cbn [map snd]. intros [Hp Hnd]%NoDup_cons. rewrite filter_cons.
  destruct (decide (fst (s, p) = sz)); [| by apply IH].
  cbn [map snd]. apply NoDup_cons. split; [| by apply IH].
  intros Hin. apply Hp. apply list_elem_of_In, in_map_iff in Hin
    as ([s' p'] & Heq & [_ Hin]%list_elem_of_In%list_elem_of_filter).
  cbn in Heq. subst p'. apply list_elem_of_In, in_map_iff.
  exists (s', p). split; [done | by apply list_elem_of_In].
Qed.

Lemma NoDup_snd_filter (P : nat * string -> Prop) `{forall x, Decision (P x)}
    (inv : list (nat * string)) :
  NoDup (map snd inv) -> NoDup (map snd (filter P inv)).
Proof.
  induction inv as [|x inv IH]; [done |].
  cbn [map]. intros [Hp Hnd]%NoDup_cons. rewrite filter_cons.
  destruct (decide (P x)); [| by apply IH].
  cbn [map]. apply NoDup_cons. split; [| by apply IH].
  intros Hin. apply Hp. apply list_elem_of_In, in_map_iff in Hin
    as (y & Heq & [_ Hin]%list_elem_of_In%list_elem_of_filter).
  apply list_elem_of_In, in_map_iff. exists y.
  split; [done | by apply list_elem_of_In].
Qed.

Lemma discards_of_group (cwd : string) (keep : option string)
    (groups : list (list string)) (G retained trash : list string) (x : string) :
  G ∈ groups -> retention cwd keep G = Some (retained, trash) ->
  x ∈ trash -> x ∈ all_discards cwd keep groups.
Proof.
  intros HG Hret Hx. unfold all_discards.
  apply list_elem_of_In, in_concat. exists trash.
  split; [| by apply list_elem_of_In].
  apply in_map_iff. exists G. rewrite Hret.
  split; [done | by apply list_elem_of_In].
Qed.

Lemma no_discards (cwd : string) (keep : option string)
    (groups : list (list string)) :
  (forall G, G ∈ groups ->
     exists retained, retention cwd keep G = Some (retained, [])) ->
  all_discards cwd keep groups = [].
Proof.
  unfold all_discards. induction groups as [|G groups IH]; intros H; [done |].
  cbn [map concat]. destruct (H G) as [retained ->];
    [apply elem_of_cons; by left |].
  cbn. apply IH. intros G' HG'. apply H, elem_of_cons. by right.
Qed.

Lemma failed_line (out : list line) (fp : string) :
  (fp, false) ∈ disposals out -> FailedToTrash fp ∈ out.
Proof.
  unfold disposals. intros (l & Hl & Hd)%list_elem_of_omap.
  destruct l; try done. by injection Hd as ->.
Qed.

Lemma all_returned (out : list line) (fps : list string)
    (outcomes : list bool) :
  disposals out = zip fps outcomes -> length outcomes = length fps ->
  (forall fp, FailedToTrash fp ∉ out) ->
  Forall (fun o => o = true) outcomes.
Proof.
  intros Hd Hlen Hnone. apply Forall_forall. intros o Ho.
  destruct o; [done |]. exfalso.
  apply list_elem_of_lookup_1 in Ho as [i Hi].
  destruct (lookup_lt_is_Some_2 fps i) as [fp Hfp].
  { rewrite <- Hlen. by eapply lookup_lt_Some. }
  apply (Hnone fp), failed_line. rewrite Hd.
  apply (list_elem_of_lookup_2 _ i), lookup_zip_with_Some. eauto.
Qed.

(** What [main] does once the groups are found. *)
Lemma main_unfold (send2trash : string -> tree -> tree * bool)
    (cwd directory : string) (recursive_arg : bool)
    (keep_arg : option string) (fs : tree) :
  exists groups out,
    find_duplicates_by_size_and_hash directory fs
      (recursive_of keep_arg recursive_arg) = (Some groups, out)
    /\ main send2trash cwd directory recursive_arg keep_arg fs
       = match groups with
         | [] => (fs, out, Some 0)
         | _ :: _ =>
             let '(fs', printed, trashed_count) :=
               handle_duplicates send2trash cwd groups
                 (keep_directory_of cwd keep_arg) fs in
             (fs', out ++ printed, trashed_count)
         end.
Proof.
  unfold main.
  pose proof (find_duplicates_spec directory fs
                (recursive_of keep_arg recursive_arg)) as H.
  destruct (find_duplicates_by_size_and_hash directory fs
              (recursive_of keep_arg recursive_arg)) as [o out].
  cbn [fst] in H. subst o. eauto.
Qed.

(** On non-empty groups [handle_duplicates] returns; when nothing is to be
    trashed it leaves the tree alone and counts zero. *)
Lemma handle_nothing {World : Type} (send2trash : string -> World -> World * bool)
    (cwd : string) (groups : list (list string)) (keep : option string)
    (w : World) :
  Forall (fun g => g <> []) groups ->
  all_discards cwd keep groups = [] ->
  exists out, handle_duplicates send2trash cwd groups keep w = (w, out, Some 0).
Proof.
  intros Hne Hnone. unfold handle_duplicates.
  pose proof (handle_loop_spec send2trash cwd groups keep w [] 0 Hne) as H.
  rewrite Hnone in H. cbn [attempt_each] in H.
  destruct H as (out & -> & _). eauto.
Qed.

Lemma groups_of_bucket_nil (directory : string) (fs : tree) :
  groups_of_bucket directory fs [] = [].
Proof. done. Qed.

(** C7 as stated fails when the trash lies in the scanned tree, as it does
    on the top directory of a volume, whose trash is its [.Trash-1000]: the
    first run trashes [/a/x.mp4] and reports no failure, and the second
    run, on the tree the first one left, finds the trashed copy, keeps it
    as the deeper one and trashes the survivor of the first run. *)
Lemma trash_inside_tree_counterexample :
  main (volume_send2trash no_links "/a") "/" "/a" true None scenario_tree
  = (into_trash "x.mp4" (plain_file 4 "H1H1")
       (remove_path no_links "/a" scenario_tree "/a/x.mp4"),
     [ScanningDirectory "/a"; FinishedScanning 3; FoundDuplicateSet;
      Member "/a/x.mp4"; Member "/a/b/x.mp4";
      RetainingDeepest "/a/b/x.mp4"; Trashed "/a/x.mp4"], Some 1)
  /\ snd (fst (main (volume_send2trash no_links "/a") "/" "/a" true None
                    (into_trash "x.mp4" (plain_file 4 "H1H1")
                       (remove_path no_links "/a" scenario_tree
                                    "/a/x.mp4"))))
     = [ScanningDirectory "/a"; FinishedScanning 3; FoundDuplicateSet;
        Member "/a/b/x.mp4"; Member "/a/.Trash-1000/files/x.mp4";
        RetainingDeepest "/a/.Trash-1000/files/x.mp4";
        Trashed "/a/b/x.mp4"]
  /\ snd (main (volume_send2trash no_links "/a") "/" "/a" true None
               (into_trash "x.mp4" (plain_file 4 "H1H1")
                  (remove_path no_links "/a" scenario_tree "/a/x.mp4")))
     = Some 1.
Proof. by vm_compute. Qed.

(** C7: when the trash lies outside the scanned tree, so that a successful
    call of the trash facility does no more than take the file out of the
    tree (the links that resolve through it are left dangling), the entries
    under the scanned directory have pairwise different paths, and the first
    run reports no failed disposal, a second run on the tree the first one
    left selects no file for disposal, leaves the tree as it is and counts
    zero. *)
Theorem pipeline_idempotent (send2trash : string -> tree -> tree * bool)
    (via : links) (cwd directory : string) (recursive_arg : bool)
    (keep_arg : option string) (fs fs1 : tree) (out1 : list line) (n1 : nat) :
  (forall fp w w', send2trash fp w = (w', true) ->
                   w' = remove_path via directory w fp) ->
  NoDup (map fst (listed_files directory fs)) ->
  main send2trash cwd directory recursive_arg keep_arg fs
    = (fs1, out1, Some n1) ->
  (forall fp, FailedToTrash fp ∉ out1) ->
  exists out2 groups2,
    main send2trash cwd directory recursive_arg keep_arg fs1
      = (fs1, out2, Some 0)
    /\ fst (find_duplicates_by_size_and_hash directory fs1
              (recursive_of keep_arg recursive_arg)) = Some groups2
    /\ all_discards cwd (keep_directory_of cwd keep_arg) groups2 = [].
Proof.
  intros Hcontract Hnd Hmain Hnofail.
  set (keep := keep_directory_of cwd keep_arg) in *.
  set (rec := recursive_of keep_arg recursive_arg) in *.
  destruct (main_unfold send2trash cwd directory recursive_arg keep_arg fs)
    as (groups1 & outA & Hfind1 & Hm1).
  fold keep rec in Hfind1, Hm1. rewrite Hm1 in Hmain.
  assert (Hg1 : fst (find_duplicates_by_size_and_hash directory fs rec)
                = Some groups1) by (by rewrite Hfind1).
  pose proof (found_groups_nonempty _ _ _ _ Hg1) as Hne1.
  assert (Hfs1 : fs1 = remove_all via directory fs
                         (all_discards cwd keep groups1)).
  { destruct groups1 as [|g gs]; [by injection Hmain as <- _ _ |].
    unfold handle_duplicates in Hmain.
    pose proof (handle_loop_spec send2trash cwd (g :: gs) keep fs [] 0 Hne1)
      as H.
    destruct (attempt_each send2trash (all_discards cwd keep (g :: gs)) fs)
      as [w' outcomes] eqn:E.
    destruct H as (out' & Hh & Hd & Hl). rewrite Hh in Hmain.
    injection Hmain as <- <- _.
    apply (attempt_each_all_returned send2trash via directory _ _ _ outcomes
             Hcontract E).
    apply (all_returned out' _ _ Hd Hl). intros fp Hin.
    apply (Hnofail fp), elem_of_app. by right. }
  destruct (main_unfold send2trash cwd directory recursive_arg keep_arg fs1)
    as (groups2 & outB & Hfind2 & Hm2).
  fold keep rec in Hfind2, Hm2.
  assert (Hg2 : fst (find_duplicates_by_size_and_hash directory fs1 rec)
                = Some groups2) by (by rewrite Hfind2).
  pose proof (found_groups_nonempty _ _ _ _ Hg2) as Hne2.
  assert (Hnone : all_discards cwd keep groups2 = []).
  { apply no_discards. intros G' HG'.
    apply (found_groups _ _ _ _ Hg2) in HG' as (sz & paths' & Hb' & HG').
    rewrite Hfs1 in Hb'. apply group_by_spec in Hb' as [Hp' _].
    assert (Hsurv : forall q, q ∈ paths' ->
              (sz, q) ∈ inventory directory fs rec
              /\ (q ∉ all_discards cwd keep groups1)
              /\ compute_md5 directory
                   (remove_all via directory fs
                      (all_discards cwd keep groups1)) q
                 = compute_md5 directory fs q).
    { intros q Hq. rewrite Hp' in Hq. apply values_of_elem in Hq.
      by apply survivor. }
    destruct (second_run_group directory fs fs1
                (all_discards cwd keep groups1)) with
      (paths := values_of sz (inventory directory fs rec))
      (paths' := paths') (G' := G')
      as (G & p0 & p1 & HG & Hne & H0 & H1 & Hsub).
    - intros q Hq. rewrite Hfs1. by apply Hsurv.
    - intros p Hp. destruct (Hsurv p Hp) as (Hin & Hng & _).
      split; [by apply values_of_elem | done].
    - rewrite Hp'. apply NoDup_values_of. by apply NoDup_survivors.
    - done.
    - assert (HGin : G ∈ groups1).
      { apply (found_groups _ _ _ _ Hg1).
        exists sz, (values_of sz (inventory directory fs rec)).
        split; [| done]. apply group_by_spec. split; [done |].
        intros E. rewrite E, groups_of_bucket_nil in HG.
        by apply elem_of_nil in HG. }
      assert (HGne : G <> []).
      { apply groups_of_bucket_long in HG. intros ->. cbn in HG. lia. }
      destruct (retention_defined cwd keep G HGne)
        as (ret & tr & Hret).
      apply (retention_of_survivors cwd keep G G' ret tr p0 p1 Hret Hne H0 H1).
      intros x Hx. destruct (Hsub x Hx) as [HxG HxD]. split; [done |].
      intros Hxt. apply HxD. by eapply discards_of_group. }
  destruct groups2 as [|g gs].
  - exists outB, []. by rewrite Hm2.
  - destruct (handle_nothing send2trash cwd (g :: gs) keep fs1 Hne2 Hnone)
      as [out Hh].
    exists (outB ++ out), (g :: gs). rewrite Hm2, Hh. done.
Qed.

Lemma fs_send2trash_removes (via : links) (directory : string)
    (locked : list string) (fp : string) (w w' : tree) :
  fs_send2trash via directory locked fp w = (w', true) ->
  w' = remove_path via directory w fp.
Proof.
  unfold fs_send2trash. destruct (py_in fp locked); [by intros [=] |].
  destruct (locate directory w fp); by intros [=].
Qed.

Lemma pipeline_idempotent_witness :
  exists out2 groups2,
    main (fs_send2trash no_links "/a" []) "/" "/a" true None
         (remove_path no_links "/a" scenario_tree "/a/x.mp4")
      = (remove_path no_links "/a" scenario_tree "/a/x.mp4", out2, Some 0)
    /\ fst (find_duplicates_by_size_and_hash "/a"
              (remove_path no_links "/a" scenario_tree "/a/x.mp4")
              (recursive_of None true)) = Some groups2
    /\ all_discards "/" (keep_directory_of "/" None) groups2 = [].
Proof.
  apply (pipeline_idempotent (fs_send2trash no_links "/a" []) no_links "/"
           "/a" true None
           scenario_tree (remove_path no_links "/a" scenario_tree "/a/x.mp4")
           [ScanningDirectory "/a"; FinishedScanning 3; FoundDuplicateSet;
            Member "/a/x.mp4"; Member "/a/b/x.mp4";
            RetainingDeepest "/a/b/x.mp4"; Trashed "/a/x.mp4"] 1).
  - apply fs_send2trash_removes.
  - refine (bool_decide_eq_true_1 _ _). vm_compute. reflexivity.
  - vm_compute. reflexivity.
  - intros fp H. apply list_elem_of_In in H. simpl in H.
    repeat (destruct H as [H | H]; [discriminate |]). exact H.
Defined.

Lemma disposal_partial_failure_witness :
  exists w' outcomes out,
    attempt_each (fs_send2trash no_links "/a" ["/a/x.mp4"])
      (all_discards "/" None
         [["/a/x.mp4"; "/a/b/x.mp4"; "/a/b/c/x.mp4"];
          ["/a/b/y.mp4"; "/a/y.mp4"]]) scenario_tree
      = (w', outcomes)
    /\ handle_duplicates (fs_send2trash no_links "/a" ["/a/x.mp4"]) "/"
         [["/a/x.mp4"; "/a/b/x.mp4"; "/a/b/c/x.mp4"];
          ["/a/b/y.mp4"; "/a/y.mp4"]] None scenario_tree
       = (w', out, Some (count_occ bool_dec outcomes true))
    /\ disposals out
       = zip (all_discards "/" None
                [["/a/x.mp4"; "/a/b/x.mp4"; "/a/b/c/x.mp4"];
                 ["/a/b/y.mp4"; "/a/y.mp4"]]) outcomes
    /\ length outcomes
       = length (all_discards "/" None
                   [["/a/x.mp4"; "/a/b/x.mp4"; "/a/b/c/x.mp4"];
                    ["/a/b/y.mp4"; "/a/y.mp4"]]).
Proof.
  apply (disposal_partial_failure (fs_send2trash no_links "/a" ["/a/x.mp4"]) "/"
           [["/a/x.mp4"; "/a/b/x.mp4"; "/a/b/c/x.mp4"];
            ["/a/b/y.mp4"; "/a/y.mp4"]] None scenario_tree).
  repeat constructor; discriminate.
Defined.

(** * Further properties of the code *)

(** ** The keep-directory *)

Lemma retention_nil (cwd : string) (keep : option string) :
  retention cwd keep [] = None.
Proof. unfold retention. destruct keep; [| done]. by destruct (truthy _). Qed.

Lemma discard_origin (cwd : string) (keep : option string)
    (groups : list (list string)) (x : string) :
  x ∈ all_discards cwd keep groups ->
  exists G retained trash,
    G ∈ groups /\ G <> []
    /\ retention cwd keep G = Some (retained, trash) /\ x ∈ trash.
Proof.
  unfold all_discards.
  intros (trash & (G & Htr & HG)%in_map_iff & Hx)%list_elem_of_In%in_concat.
  apply list_elem_of_In in HG, Hx.
  destruct G as [|g G].
  { rewrite retention_nil in Htr. subst trash. by apply elem_of_nil in Hx. }
  destruct (retention_defined cwd keep (g :: G)) as (ret & tr & Hret); [done |].
  rewrite Hret in Htr. subst tr. exists (g :: G), ret, trash. done.
Qed.

Lemma discard_outside (cwd kd : string) (groups : list (list string))
    (x : string) :
  kd <> "" -> x ∈ all_discards cwd (Some kd) groups ->
  is_in_directory cwd x kd = false.
Proof.
  intros Hkd (G & ret & tr & _ & HG & Hret & Hx)%discard_origin.
  destruct (retention_cases cwd (Some kd) G HG)
    as [(kd' & [= <-] & _ & _ & Hret') | (k & _ & _ & Hnone & Hret')];
    rewrite Hret' in Hret; injection Hret as <- <-.
  - by apply candidates_outside in Hx as [_ ?].
  - specialize (Hnone kd eq_refl Hkd).
    apply list_elem_of_filter in Hx as [_ Hx].
    destruct (is_in_directory cwd x kd) eqn:E; [| done].
    assert (x ∈ filter (fun f => is_in_directory cwd f kd) G) as Hin.
    { apply list_elem_of_filter. split; [by apply Is_true_true | done]. }
    rewrite Hnone in Hin. by apply elem_of_nil in Hin.
Qed.

Lemma disposal_line (out : list line) (fp : string) :
  Trashed fp ∈ out \/ FailedToTrash fp ∈ out ->
  exists o, (fp, o) ∈ disposals out.
Proof.
  unfold disposals. intros [H | H].
  - exists true. apply list_elem_of_omap. eauto.
  - exists false. apply list_elem_of_omap. eauto.
Qed.

Lemma elem_of_zip_fst {A B : Type} (l : list A) (k : list B) (x : A) (y : B) :
  (x, y) ∈ zip l k -> x ∈ l.
Proof.
  revert k. induction l as [|a l IH]; intros [|b k]; cbn;
    try (by intros ?%elem_of_nil).
  intros [[= -> ->] | H]%elem_of_cons; apply elem_of_cons; eauto.
Qed.

(** X1: with a keep-directory, no file inside it is ever handed to the
    trash facility, whatever the groups: every disposal line, successful or
    failed, names a file outside the keep-directory. *)
Theorem keep_directory_never_trashed {World : Type}
    (send2trash : string -> World -> World * bool) (cwd kd : string)
    (groups : list (list string)) (w : World) (fp : string) :
  kd <> "" -> Forall (fun g => g <> []) groups ->
  Trashed fp ∈ snd (fst (handle_duplicates send2trash cwd groups (Some kd) w))
  \/ FailedToTrash fp
       ∈ snd (fst (handle_duplicates send2trash cwd groups (Some kd) w)) ->
  fp ∈ all_discards cwd (Some kd) groups
  /\ is_in_directory cwd fp kd = false.
Proof.
  intros Hkd Hne Hline. unfold handle_duplicates in Hline.
  pose proof (handle_loop_spec send2trash cwd groups (Some kd) w [] 0 Hne) as H.
  destruct (attempt_each send2trash (all_discards cwd (Some kd) groups) w)
    as [w' outcomes].
  destruct H as (out & Hh & Hd & _). rewrite Hh in Hline. cbn in Hline.
  apply disposal_line in Hline as [o Ho]. rewrite Hd in Ho.
  apply elem_of_zip_fst in Ho. split; [done |]. by eapply discard_outside.
Qed.

Lemma keep_directory_never_trashed_witness :
  fst (handle_duplicates (fs_send2trash no_links "/a" []) "/"
         [["/a/x.mp4"; "/a/b/x.mp4"]] (Some "/a/b") scenario_tree)
  = (remove_path no_links "/a" scenario_tree "/a/x.mp4",
     [FoundDuplicateSet; Member "/a/x.mp4"; Member "/a/b/x.mp4";
      RetainingKeepDirectory; Trashed "/a/x.mp4"])
  /\ "/a/x.mp4" ∈ all_discards "/" (Some "/a/b") [["/a/x.mp4"; "/a/b/x.mp4"]]
  /\ is_in_directory "/" "/a/x.mp4" "/a/b" = false.
Proof.
  split; [by vm_compute |].
  apply (keep_directory_never_trashed (fs_send2trash no_links "/a" []) "/" "/a/b"
           [["/a/x.mp4"; "/a/b/x.mp4"]] scenario_tree "/a/x.mp4").
  - discriminate.
  - repeat constructor; discriminate.
  - left. apply list_elem_of_In. vm_compute. do 4 right. left. reflexivity.
Defined.

(** X2: a keep-directory that holds no member of a group changes nothing
    for that group: the decision is the one taken without keep-directory. *)
Theorem keep_directory_fallback (cwd : string) (keep : option string)
    (group : list string) :
  (forall kd f, keep = Some kd -> f ∈ group ->
     is_in_directory cwd f kd = false) ->
  retention cwd keep group = retention cwd None group.
Proof.
  intros Hout. destruct keep as [kd|]; [| done].
  unfold retention. destruct (truthy (Some kd)); [| done].
  rewrite (filter_none _ group); [done |].
  intros f Hf Hin. apply Is_true_true in Hin.
  by rewrite (Hout kd f eq_refl Hf) in Hin.
Qed.

Lemma keep_directory_fallback_witness :
  retention "/" (Some "/keep") ["/a/x.mp4"; "/a/b/x.mp4"]
  = retention "/" None ["/a/x.mp4"; "/a/b/x.mp4"].
Proof.
  apply (keep_directory_fallback "/" (Some "/keep")
           ["/a/x.mp4"; "/a/b/x.mp4"]).
  intros kd f [= <-] Hf. apply list_elem_of_In in Hf. simpl in Hf.
  destruct Hf as [<- | [<- | []]]; reflexivity.
Defined.

(** ** [is_in_directory] composes *)

(** X3: what is inside a directory that is inside another one is inside
    the latter. *)
Theorem is_in_directory_trans (cwd f d e : string) :
  is_in_directory cwd f d = true -> is_in_directory cwd d e = true ->
  is_in_directory cwd f e = true.
Proof.
  unfold is_in_directory. rewrite !directory_with_sep.
  intros [r1 H1]%startswith_spec [r2 H2]%startswith_spec.
  apply startswith_spec.
  set (E := if is_root (OsPath.abspath cwd e) then OsPath.abspath cwd e
            else OsPath.abspath cwd e +:+ "/") in *.
  rewrite H1. destruct (is_root (OsPath.abspath cwd d)).
  - exists (r2 +:+ r1). by rewrite H2, string_app_assoc.
  - exists (r2 +:+ "/" +:+ r1). by rewrite H2, !string_app_assoc.
Qed.

Lemma is_in_directory_trans_witness :
  is_in_directory "/" "/a/b/c/y.mp4" "/a" = true.
Proof.
  apply (is_in_directory_trans "/" "/a/b/c/y.mp4" "/a/b" "/a"); reflexivity.
Defined.

(** ** The count of [handle_duplicates] *)

Lemma retention_trash_shorter (cwd : string) (keep : option string)
    (group retained trash : list string) :
  retention cwd keep group = Some (retained, trash) ->
  length trash <= length group - 1.
Proof.
  intros Hret.
  assert (Hne : group <> []) by (intros ->; by rewrite retention_nil in Hret).
  destruct (retention_cases cwd keep group Hne)
    as [(kd & -> & _ & Him & Hret') | (k & Hfd & _ & _ & Hret')];
    rewrite Hret' in Hret; injection Hret as <- <-.
  - destruct (filter (fun f => is_in_directory cwd f kd) group)
      as [|m im] eqn:E; [done |].
    assert (Hm : m ∈ filter (fun f => is_in_directory cwd f kd) group)
      by (rewrite E; apply elem_of_cons; by left).
    rewrite <- E.
    enough (length (filter (fun f => negb (py_in f
              (filter (fun f => is_in_directory cwd f kd) group))) group)
            < length group) by lia.
    apply (length_filter_lt _ _ m).
    + by apply list_elem_of_filter in Hm as [_ ?].
    + intros Hn. apply negb_prop_elim in Hn. apply Hn, Is_true_true.
      by apply py_in_spec.
  - enough (length (filter (fun f => negb (String.eqb f k)) group)
            < length group) by lia.
    apply (length_filter_lt _ _ k); [by eapply first_deepest_elem |].
    rewrite String.eqb_refl. by intros [].
Qed.

Lemma all_discards_length (cwd : string) (keep : option string)
    (groups : list (list string)) :
  length (all_discards cwd keep groups)
  <= list_sum (map (fun g => length g - 1) groups).
Proof.
  unfold all_discards. induction groups as [|g groups IH]; [done |].
  cbn [map concat]. change (list_sum (?a :: ?l)) with (a + list_sum l).
  rewrite length_app.
  destruct (retention cwd keep g) as [[ret tr]|] eqn:E.
  - apply retention_trash_shorter in E. lia.
  - cbn. lia.
Qed.

Lemma count_occ_le_length (l : list bool) :
  count_occ bool_dec l true <= length l.
Proof. induction l as [|[] l IH]; cbn; lia. Qed.

(** X4: on non-empty groups [handle_duplicates] returns a count, and the
    count is at most the number of members less one, summed over the
    groups: it never counts a whole group as trashed. *)
Theorem trashed_count_bound {World : Type}
    (send2trash : string -> World -> World * bool) (cwd : string)
    (groups : list (list string)) (keep : option string) (w : World) :
  Forall (fun g => g <> []) groups ->
  exists total,
    snd (handle_duplicates send2trash cwd groups keep w) = Some total
    /\ total <= list_sum (map (fun g => length g - 1) groups).
Proof.
  intros Hne. unfold handle_duplicates.
  pose proof (handle_loop_spec send2trash cwd groups keep w [] 0 Hne) as H.
  destruct (attempt_each send2trash (all_discards cwd keep groups) w)
    as [w' outcomes].
  destruct H as (out & -> & _ & Hl). eexists. split; [done |]. cbn.
  pose proof (count_occ_le_length outcomes).
  pose proof (all_discards_length cwd keep groups). lia.
Qed.

Lemma trashed_count_bound_witness :
  exists total,
    snd (handle_duplicates (fs_send2trash no_links "/a" []) "/"
           [["/a/x.mp4"; "/a/b/x.mp4"]] None scenario_tree) = Some total
    /\ total <= list_sum (map (fun g => length g - 1)
                              [["/a/x.mp4"; "/a/b/x.mp4"]]).
Proof.
  apply (trashed_count_bound (fs_send2trash no_links "/a" []) "/"
           [["/a/x.mp4"; "/a/b/x.mp4"]] None scenario_tree).
  repeat constructor; discriminate.
Defined.

(** ** An empty group *)

Lemma handle_loop_stops {World : Type}
    (send2trash : string -> World -> World * bool) (cwd : string)
    (before rest : list (list string)) (keep : option string) (w : World)
    (out : list line) (total : nat) :
  Forall (fun g => g <> []) before ->
  exists out',
    handle_loop send2trash cwd (before ++ [] :: rest) keep (w, out, total)
    = (fst (attempt_each send2trash (all_discards cwd keep before) w),
       out', None).
Proof.
  intros Hne. revert w out total.
  induction Hne as [|g before Hg _ IH]; intros w out total.
  - cbn [app handle_loop]. rewrite retention_nil. eauto.
  - rewrite <- app_comm_cons. cbn [handle_loop].
    unfold all_discards. cbn [map concat].
    fold (all_discards cwd keep before).
    destruct (retention_defined cwd keep g Hg) as (ret & tr & Hret).
    rewrite Hret. rewrite attempt_each_app.
    pose proof (trash_loop_spec send2trash tr w
      ((out ++ [FoundDuplicateSet] ++ map Member g)
         ++ retaining_line cwd keep g ret) total) as Hinner.
    destruct (attempt_each send2trash tr w) as [w1 o1].
    destruct Hinner as (out1 & -> & _).
    match goal with
    | |- context [handle_loop _ _ _ _ (?w0, ?out0, ?total0)] =>
        destruct (IH w0 out0 total0) as [out' ->]
    end.
    exists out'. by destruct (attempt_each send2trash _ w1).
Qed.

(** X5: an empty group makes [handle_duplicates] raise ([max] of an empty
    sequence): the groups before it have been disposed of, and those after
    it are not looked at. *)
Theorem empty_group_raises {World : Type}
    (send2trash : string -> World -> World * bool) (cwd : string)
    (before rest : list (list string)) (keep : option string) (w : World) :
  Forall (fun g => g <> []) before ->
  snd (handle_duplicates send2trash cwd (before ++ [] :: rest) keep w) = None
  /\ fst (fst (handle_duplicates send2trash cwd (before ++ [] :: rest) keep w))
     = fst (attempt_each send2trash (all_discards cwd keep before) w).
Proof.
  intros Hne. unfold handle_duplicates.
  destruct (handle_loop_stops send2trash cwd before rest keep w [] 0 Hne)
    as [out' ->]. done.
Qed.

Lemma empty_group_raises_witness :
  snd (handle_duplicates (fs_send2trash no_links "/a" []) "/"
         ([["/a/x.mp4"; "/a/b/x.mp4"]] ++ [] :: [["/a/b/c/y.mp4"; "/a/z"]])
         None scenario_tree) = None
  /\ fst (fst (handle_duplicates (fs_send2trash no_links "/a" []) "/"
         ([["/a/x.mp4"; "/a/b/x.mp4"]] ++ [] :: [["/a/b/c/y.mp4"; "/a/z"]])
         None scenario_tree))
     = fst (attempt_each (fs_send2trash no_links "/a" [])
              (all_discards "/" None [["/a/x.mp4"; "/a/b/x.mp4"]])
              scenario_tree).
Proof.
  apply (empty_group_raises (fs_send2trash no_links "/a" []) "/"
           [["/a/x.mp4"; "/a/b/x.mp4"]] [["/a/b/c/y.mp4"; "/a/z"]] None
           scenario_tree).
  repeat constructor; discriminate.
Defined.

(** ** The groups of a scan *)

Lemma bucket_group_indices (directory : string) (fs : tree)
    (paths G : list string) :
  G ∈ groups_of_bucket directory fs paths ->
  exists (rho : nat -> nat) (r : nat),
    G = map (path_of paths)
            (filter (fun i => rho i = r) (seq 0 (length paths)))
    /\ 2 <= length G
    /\ forall a b, a < length paths -> b < length paths ->
         rho a = rho b
         <-> rtsc (linked (file_info_of directory fs paths) (length paths)) a b.
Proof.
  destruct (groups_of_bucket_spec directory fs paths) as (rho & -> & Hinv).
  intros (g & <- & Hg)%list_elem_of_In%in_map_iff.
  apply list_elem_of_In, classes_elem in Hg as (r & -> & Hlong).
  exists rho, r. by rewrite length_map.
Qed.

Lemma map_path_of_seq (paths : list string) :
  map (path_of paths) (seq 0 (length paths)) = paths.
Proof.
  apply list_eq. intros i. change (map ?f ?l) with (f <$> l).
  rewrite list_lookup_fmap.
  destruct (decide (i < length paths)) as [Hi | Hi].
  - rewrite lookup_seq_lt by done. cbn.
    destruct (lookup_lt_is_Some_2 paths i Hi) as [p Hp].
    by rewrite (path_of_lookup _ _ _ Hp), Hp.
  - rewrite lookup_seq_ge by lia. cbn. symmetry. apply lookup_ge_None. lia.
Qed.

Lemma sublist_map {A B : Type} (f : A -> B) (l k : list A) :
  sublist l k -> sublist (map f l) (map f k).
Proof. induction 1; cbn; by constructor. Qed.

Lemma bucket_group_sublist (directory : string) (fs : tree)
    (paths G : list string) :
  G ∈ groups_of_bucket directory fs paths -> sublist G paths.
Proof.
  intros (rho & r & -> & _ & _)%bucket_group_indices.
  pose proof (sublist_map (path_of paths) _ _
                (sublist_filter (fun i => rho i = r) (seq 0 (length paths))))
    as H.
  by rewrite map_path_of_seq in H.
Qed.

Lemma bucket_group_subset (directory : string) (fs : tree)
    (paths G : list string) (p : string) :
  G ∈ groups_of_bucket directory fs paths -> p ∈ G -> p ∈ paths.
Proof.
  intros HG Hp. apply bucket_group_sublist in HG.
  by eapply elem_of_sublist.
Qed.

Lemma bucket_of_inventory (directory : string) (fs : tree) (recursive : bool)
    (sz : nat) (paths : list string) :
  (sz, paths) ∈ fst (fst (scan directory fs recursive))
  <-> paths = values_of sz (inventory directory fs recursive) /\ paths <> [].
Proof. rewrite scan_spec. cbn [fst]. apply group_by_spec. Qed.

(** X6: every group returned holds two or more paths, and its members are
    regular files (links followed) that the scan visited and that all have
    one and the same size. *)
Theorem group_members_same_size (directory : string) (fs : tree)
    (recursive : bool) (groups : list (list string)) (G : list string) :
  fst (find_duplicates_by_size_and_hash directory fs recursive) = Some groups ->
  G ∈ groups ->
  2 <= length G
  /\ exists sz, forall p, p ∈ G ->
       exists n, (p, n) ∈ visited directory fs recursive
         /\ isfile n = true /\ getsize n = Some sz.
Proof.
  intros Hg HG.
  apply (found_groups _ _ _ _ Hg) in HG as (sz & paths & Hb & HG).
  split; [by eapply groups_of_bucket_long |].
  exists sz. intros p Hp. apply inventory_elem.
  apply group_by_spec in Hb as [-> _].
  apply values_of_elem. by eapply bucket_group_subset.
Qed.

Lemma group_members_same_size_witness :
  2 <= length ["/a/x.mp4"; "/a/b/x.mp4"]
  /\ exists sz, forall p, p ∈ ["/a/x.mp4"; "/a/b/x.mp4"] ->
       exists n, (p, n) ∈ visited "/a" scenario_tree true
         /\ isfile n = true /\ getsize n = Some sz.
Proof.
  apply (group_members_same_size "/a" scenario_tree true
           [["/a/x.mp4"; "/a/b/x.mp4"]]).
  - vm_compute. reflexivity.
  - apply list_elem_of_In. simpl. left. reflexivity.
Defined.

Lemma linked_same (directory : string) (fs : tree) (paths : list string)
    (a b : nat) :
  sc (linked (file_info_of directory fs paths) (length paths)) a b ->
  a < length paths /\ b < length paths
  /\ same_content_or_name directory fs (path_of paths a) (path_of paths b)
     = true.
Proof.
  intros Hs.
  assert (a < length paths /\ b < length paths
          /\ same_file (file_info_of directory fs paths) a b = Some true)
    as (Ha & Hb & Hsame).
  { destruct Hs as [(? & ? & ?) | (? & ? & ?)].
    - split; [lia |]. by split.
    - split; [done |]. split; [lia |]. by rewrite same_file_sym. }
  split; [done |]. split; [done |].
  destruct (lookup_lt_is_Some_2 paths a Ha) as [pa Hpa].
  destruct (lookup_lt_is_Some_2 paths b Hb) as [pb Hpb].
  rewrite (path_of_lookup _ _ _ Hpa), (path_of_lookup _ _ _ Hpb).
  rewrite (same_file_info_of _ _ _ _ _ _ _ Hpa Hpb) in Hsame. congruence.
Qed.

(** X7: two members of a group are joined by a chain of members of that
    group in which each one shares the digest or the name with the next:
    the program puts no two files in one group without such a chain. *)
Theorem group_members_chained (directory : string) (fs : tree)
    (recursive : bool) (groups : list (list string)) (G : list string)
    (p q : string) :
  fst (find_duplicates_by_size_and_hash directory fs recursive) = Some groups ->
  G ∈ groups -> p ∈ G -> q ∈ G ->
  rtsc (fun x y => x ∈ G /\ y ∈ G
                   /\ same_content_or_name directory fs x y = true) p q.
Proof.
  intros Hg HG Hp Hq.
  apply (found_groups _ _ _ _ Hg) in HG as (sz & paths & _ & HG).
  apply bucket_group_indices in HG as (rho & r & -> & _ & Hinv).
  apply list_elem_of_In, in_map_iff in Hp as (a & <- & Ha).
  apply list_elem_of_In, in_map_iff in Hq as (b & <- & Hb).
  apply list_elem_of_In, class_elem in Ha as [Hra Hla].
  apply list_elem_of_In, class_elem in Hb as [Hrb Hlb].
  assert (Hab : rtsc (linked (file_info_of directory fs paths) (length paths))
                     a b) by (apply Hinv; [done | done | congruence]).
  clear Hrb Hlb. revert Hra Hla.
  induction Hab as [x | x y z Hxy Hyz IH]; intros Hra Hla; [done |].
  destruct (linked_same _ _ _ _ _ Hxy) as (_ & Hy & Hsame).
  assert (Hry : rho y = r).
  { rewrite <- Hra. symmetry. apply Hinv; [done | done |]. by apply rtc_once. }
  eapply rtc_l; [| by apply IH].
  left. split; [| split; [| done]].
  - apply list_elem_of_In, in_map, list_elem_of_In, class_elem. done.
  - apply list_elem_of_In, in_map, list_elem_of_In, class_elem. done.
Qed.

Lemma group_members_chained_witness :
  rtsc (fun x y => x ∈ ["/d/a/x.mp4"; "/d/b/y.mp4"; "/d/c/y.mp4"]
                   /\ y ∈ ["/d/a/x.mp4"; "/d/b/y.mp4"; "/d/c/y.mp4"]
                   /\ same_content_or_name "/d" chain_tree x y = true)
       "/d/a/x.mp4" "/d/c/y.mp4".
Proof.
  apply (group_members_chained "/d" chain_tree true
           [["/d/a/x.mp4"; "/d/b/y.mp4"; "/d/c/y.mp4"]]).
  - vm_compute. reflexivity.
  - apply list_elem_of_In. simpl. left. reflexivity.
  - apply list_elem_of_In. simpl. left. reflexivity.
  - apply list_elem_of_In. simpl. right. right. left. reflexivity.
Defined.

(** X8: a group lists its members in the order of its size group, which is
    the order in which the scan found them. *)
Theorem group_in_discovery_order (directory : string) (fs : tree)
    (recursive : bool) (groups : list (list string)) (G : list string) :
  fst (find_duplicates_by_size_and_hash directory fs recursive) = Some groups ->
  G ∈ groups ->
  exists sz paths,
    (sz, paths) ∈ fst (fst (scan directory fs recursive))
    /\ sublist G paths
    /\ sublist paths (map snd (inventory directory fs recursive)).
Proof.
  intros Hg HG.
  apply (found_groups _ _ _ _ Hg) in HG as (sz & paths & Hb & HG).
  exists sz, paths. split; [by rewrite scan_spec |].
  split; [by eapply bucket_group_sublist |].
  apply group_by_spec in Hb as [-> _]. unfold values_of.
  apply sublist_map, sublist_filter.
Qed.

Lemma group_in_discovery_order_witness :
  exists sz paths,
    (sz, paths) ∈ fst (fst (scan "/a" scenario_tree true))
    /\ sublist ["/a/x.mp4"; "/a/b/x.mp4"] paths
    /\ sublist paths (map snd (inventory "/a" scenario_tree true)).
Proof.
  apply (group_in_discovery_order "/a" scenario_tree true
           [["/a/x.mp4"; "/a/b/x.mp4"]]).
  - vm_compute. reflexivity.
  - apply list_elem_of_In. simpl. left. reflexivity.
Defined.

Lemma NoDup_flat_map_keys {K A B : Type} (f : K * A -> list B)
    (l : list (K * A)) :
  NoDup (map fst l) ->
  (forall e, e ∈ l -> NoDup (f e)) ->
  (forall e e' x, e ∈ l -> e' ∈ l -> x ∈ f e -> x ∈ f e' -> fst e = fst e') ->
  NoDup (flat_map f l).
Proof.
  induction l as [|e l IH]; intros Hk Hn Hd; [constructor |].
  cbn [map] in Hk. apply NoDup_cons in Hk as [Hfresh Hk].
  cbn [flat_map]. apply NoDup_app. split; [| split].
  - apply Hn, elem_of_cons. by left.
  - intros x Hx (e' & He' & Hx')%list_elem_of_In%in_flat_map.
    apply list_elem_of_In in He', Hx'. apply Hfresh.
    rewrite (Hd e e' x); [| apply elem_of_cons; by left
                          | apply elem_of_cons; by right | done | done].
    apply list_elem_of_In, in_map. by apply list_elem_of_In.
  - apply IH; [done | |].
    + intros e' He'. apply Hn, elem_of_cons. by right.
    + intros e1 e2 x H1 H2. apply Hd; apply elem_of_cons; by right.
Qed.

Lemma concat_flat_map {A B : Type} (f : A -> list (list B)) (l : list A) :
  concat (concat (map f l)) = flat_map (fun x => concat (f x)) l.
Proof.
  induction l as [|x l IH]; [done |].
  cbn [map concat flat_map]. by rewrite concat_app, IH.
Qed.

Lemma NoDup_snd_fun {A B : Type} (l : list (A * B)) (a a' : A) (b : B) :
  NoDup (map snd l) -> (a, b) ∈ l -> (a', b) ∈ l -> a = a'.
Proof.
  induction l as [|[a0 b0] l IH]; intros Hn H1 H2;
    [by apply elem_of_nil in H1 |].
  cbn [map snd] in Hn. apply NoDup_cons in Hn as [Hfresh Hn].
  assert (Hin : forall c, (c, b0) ∈ l -> False).
  { intros c Hc. apply Hfresh.
    apply list_elem_of_In, in_map_iff. exists (c, b0).
    split; [done | by apply list_elem_of_In]. }
  apply elem_of_cons in H1 as [E1 | H1];
    apply elem_of_cons in H2 as [E2 | H2].
  - congruence.
  - injection E1 as -> ->. by destruct (Hin a').
  - injection E2 as -> ->. by destruct (Hin a).
  - by apply IH.
Qed.

Lemma bucket_groups_NoDup (directory : string) (fs : tree)
    (paths : list string) :
  NoDup paths -> NoDup (concat (groups_of_bucket directory fs paths)).
Proof.
  intros Hn.
  destruct (groups_of_bucket_spec directory fs paths) as (rho & -> & _).
  rewrite <- concat_map. change (map ?f ?l) with (f <$> l).
  apply NoDup_fmap_2_strong; [| apply classes_NoDup].
  assert (Hlt : forall i, i ∈ concat (classes rho (length paths)) ->
                          i < length paths).
  { intros i (g & Hg & Hi)%list_elem_of_In%in_concat.
    apply list_elem_of_In, classes_elem in Hg as (r & -> & _).
    by apply list_elem_of_In, class_elem in Hi as [_ ?]. }
  intros i j Hi%Hlt Hj%Hlt Heq.
  destruct (lookup_lt_is_Some_2 paths i Hi) as [p Hp].
  destruct (lookup_lt_is_Some_2 paths j Hj) as [q Hq].
  rewrite (path_of_lookup _ _ _ Hp), (path_of_lookup _ _ _ Hq) in Heq.
  subst q. exact (NoDup_lookup paths i j p Hn Hp Hq).
Qed.

Lemma inventory_groups_NoDup (directory : string) (fs : tree)
    (inv : list (nat * string)) :
  NoDup (map snd inv) ->
  NoDup (concat (concat (map (fun e => groups_of_bucket directory fs (snd e))
                             (group_by inv)))).
Proof.
  intros Hn. rewrite concat_flat_map.
  pose proof (group_by_spec inv) as [Hk Hb].
  apply NoDup_flat_map_keys; [done | |].
  - intros [sz paths] [-> _]%Hb. apply bucket_groups_NoDup.
    by apply NoDup_values_of.
  - intros [sz paths] [sz' paths'] x [-> _]%Hb [-> _]%Hb.
    cbn [fst snd].
    intros (G & HG & Hx)%list_elem_of_In%in_concat
           (G' & HG' & Hx')%list_elem_of_In%in_concat.
    apply list_elem_of_In in HG, Hx, HG', Hx'.
    apply (NoDup_snd_fun inv sz sz' x Hn).
    + apply values_of_elem. by eapply bucket_group_subset.
    + apply values_of_elem. by eapply bucket_group_subset.
Qed.

(** X9: when the scan gives every file a path of its own, no path is in two
    groups, nor twice in one. *)
Theorem groups_disjoint (directory : string) (fs : tree) (recursive : bool)
    (groups : list (list string)) :
  NoDup (map snd (inventory directory fs recursive)) ->
  fst (find_duplicates_by_size_and_hash directory fs recursive) = Some groups ->
  NoDup (concat groups).
Proof.
  intros Hn. rewrite find_duplicates_spec. intros [= <-].
  by apply inventory_groups_NoDup.
Qed.

Lemma groups_disjoint_witness :
  NoDup (concat [["/d/a/x.mp4"; "/d/b/y.mp4"; "/d/c/y.mp4"]]).
Proof.
  apply (groups_disjoint "/d" chain_tree true).
  - refine (bool_decide_eq_true_1 _ _). vm_compute. reflexivity.
  - vm_compute. reflexivity.
Defined.

(** ** What the scan counts and prints *)

(** X10: the dictionary of the scan has one entry per size, no entry is
    empty, and the count of files is the number of paths it holds. *)
Theorem size_dict_invariant (directory : string) (fs : tree)
    (recursive : bool) :
  NoDup (map fst (fst (fst (scan directory fs recursive))))
  /\ Forall (fun e => snd e <> []) (fst (fst (scan directory fs recursive)))
  /\ snd (fst (scan directory fs recursive))
     = list_sum (map (fun e => length (snd e))
                     (fst (fst (scan directory fs recursive)))).
Proof.
  rewrite scan_spec. cbn [fst snd].
  pose proof (group_by_spec (inventory directory fs recursive)) as [Hk Hb].
  split; [done |]. split.
  - apply Forall_forall. intros [sz paths] Hin. by apply Hb in Hin as [_ ?].
  - pose proof (group_by_values (inventory directory fs recursive)) as Hp.
    apply Permutation_length in Hp.
    rewrite length_map, length_concat, map_map in Hp. by rewrite Hp.
Qed.

Lemma visited_children (directory : string) (fs : tree) (e : string * node) :
  e ∈ visited directory fs false -> e ∈ visited directory fs true.
Proof.
  unfold visited. rewrite descendants_dir.
  intros (c & <- & Hc)%list_elem_of_In%in_map_iff.
  apply list_elem_of_In, in_flat_map. exists c. split; [done |]. by left.
Qed.

(** X11: a recursive scan finds every file a scan of the directory alone
    finds, under the same size. *)
Theorem recursive_scan_extends (directory : string) (fs : tree) (sz : nat)
    (paths : list string) (p : string) :
  (sz, paths) ∈ fst (fst (scan directory fs false)) -> p ∈ paths ->
  exists paths',
    (sz, paths') ∈ fst (fst (scan directory fs true)) /\ p ∈ paths'.
Proof.
  rewrite !scan_spec. cbn [fst]. intros Hb Hp.
  apply group_by_member.
  assert (Hin : (sz, p) ∈ inventory directory fs false)
    by (apply group_by_member; eauto).
  apply inventory_elem in Hin as (n & Hv & Hf & Hs).
  apply inventory_elem. exists n. split; [| done]. by apply visited_children.
Qed.

Lemma recursive_scan_extends_witness :
  exists paths',
    (5, paths') ∈ fst (fst (scan "/d" link_tree true)) /\ "/d/h.mp4" ∈ paths'.
Proof.
  apply (recursive_scan_extends "/d" link_tree 5 ["/d/h.mp4"] "/d/h.mp4").
  - apply list_elem_of_In. vm_compute. right. left. reflexivity.
  - apply list_elem_of_In. simpl. left. reflexivity.
Defined.

Lemma bucket_loop_out (directory : string) (fs : tree)
    (size_dict : list (nat * list string)) :
  snd (bucket_loop directory fs size_dict)
  = concat (map (fun p => snd (compute_md5 directory fs p))
                (hashed size_dict)).
Proof.
  unfold bucket_loop.
  enough (forall found out,
    snd (foldl (fun '(duplicate_groups, out) '(size_val, paths) =>
           if Nat.ltb (length paths) 2 then (duplicate_groups, out)
           else
             match duplicate_groups with
             | None => (None, out)
             | Some found =>
                 let '(file_info, printed) :=
                   file_info_loop directory fs paths in
                 match resolve paths file_info with
                 | None => (None, out ++ printed)
                 | Some groups => (Some (found ++ groups), out ++ printed)
                 end
             end) (Some found, out) size_dict)
    = out ++ concat (map (fun p => snd (compute_md5 directory fs p))
                         (hashed size_dict))) as H by apply (H [] []).
  induction size_dict as [|[sz paths] size_dict IH]; intros found out.
  - cbn. by rewrite app_nil_r.
  - unfold hashed. cbn [foldl flat_map snd]. fold (hashed size_dict).
    destruct (Nat.ltb (length paths) 2).
    + apply IH.
    + destruct (resolve_is_Some directory fs paths) as [groups Hg].
      unfold file_info_of in Hg.
      pose proof (file_info_loop_spec directory fs paths) as Hspec.
      destruct (file_info_loop directory fs paths) as [info printed].
      injection Hspec as _ ->. cbn [fst] in Hg. rewrite Hg, IH.
      by rewrite map_app, concat_app, app_assoc.
Qed.

Lemma find_duplicates_out (directory : string) (fs : tree) (recursive : bool) :
  snd (find_duplicates_by_size_and_hash directory fs recursive)
  = (ScanningDirectory directory
       :: omap entry_warning (examined directory fs recursive))
    ++ (if Nat.eqb (length (inventory directory fs recursive)) 0
        then [NoFilesFound]
        else FinishedScanning (length (inventory directory fs recursive))
             :: concat (map (fun p => snd (compute_md5 directory fs p))
                            (hashed (group_by
                               (inventory directory fs recursive))))).
Proof.
  unfold find_duplicates_by_size_and_hash. rewrite scan_spec.
  destruct (Nat.eqb (length (inventory directory fs recursive)) 0); [done |].
  pose proof (bucket_loop_out directory fs
                (group_by (inventory directory fs recursive))) as H.
  destruct (bucket_loop _ _ _) as [groups printed]. cbn [snd] in *.
  by rewrite H.
Qed.

Lemma compute_md5_lines (directory : string) (fs : tree) (p : string) :
  snd (compute_md5 directory fs p) = []
  \/ snd (compute_md5 directory fs p) = [ErrorReading p].
Proof.
  unfold compute_md5. destruct (open_rb directory fs p) as [reads|]; [| auto].
  destruct (read_loop [] reads) as [h [|]]; auto.
Qed.

Lemma hashed_elem (size_dict : list (nat * list string)) (p : string) :
  p ∈ hashed size_dict
  <-> exists sz paths,
        (sz, paths) ∈ size_dict /\ 2 <= length paths /\ p ∈ paths.
Proof.
  unfold hashed. rewrite list_elem_of_In, in_flat_map. split.
  - intros ([sz paths] & He & Hp). cbn [snd] in Hp.
    destruct (Nat.ltb_spec (length paths) 2); [done |].
    exists sz, paths. split; [by apply list_elem_of_In |].
    split; [done | by apply list_elem_of_In].
  - intros (sz & paths & He & Hl & Hp). exists (sz, paths).
    split; [by apply list_elem_of_In |]. cbn [snd].
    destruct (Nat.ltb_spec (length paths) 2); [lia |].
    by apply list_elem_of_In.
Qed.

Lemma no_error_warning (l : list (string * node)) (p : string) :
  ErrorReading p ∉ omap entry_warning l.
Proof.
  intros (e & _ & He)%list_elem_of_omap. unfold entry_warning in He.
  destruct (isfile (snd e)); [| done]. by destruct (getsize (snd e)).
Qed.

(** X12: a file is read only when another file has its size: the scan
    prints a read error for a path exactly when the path is in a size group
    of two or more paths and [compute_md5] prints one for it. *)
Theorem read_errors_of_hashed_files (directory : string) (fs : tree)
    (recursive : bool) (p : string) :
  ErrorReading p ∈ snd (find_duplicates_by_size_and_hash directory fs recursive)
  <-> exists sz paths,
        (sz, paths) ∈ fst (fst (scan directory fs recursive))
        /\ 2 <= length paths /\ p ∈ paths
        /\ snd (compute_md5 directory fs p) = [ErrorReading p].
Proof.
  rewrite find_duplicates_out, scan_spec. cbn [fst].
  set (inv := inventory directory fs recursive).
  split.
  - intros [Hw | Hr]%elem_of_app.
    { apply elem_of_cons in Hw as [[=] | Hw]. by apply no_error_warning in Hw. }
    destruct (Nat.eqb (length inv) 0).
    { apply elem_of_cons in Hr as [[=] | Hr]. by apply elem_of_nil in Hr. }
    apply elem_of_cons in Hr as [[=] | Hr].
    apply list_elem_of_In, in_concat in Hr as (pr & Hpr & Hin).
    apply in_map_iff in Hpr as (q & <- & Hq).
    apply list_elem_of_In, hashed_elem in Hq as (sz & paths & Hb & Hl & Hq).
    destruct (compute_md5_lines directory fs q) as [E | E];
      rewrite E in Hin; cbn in Hin; [done |].
    destruct Hin as [[= ->] | []]. exists sz, paths. done.
  - intros (sz & paths & Hb & Hl & Hp & Hpr).
    assert (Hne : Nat.eqb (length inv) 0 = false).
    { apply Nat.eqb_neq. intros E%length_zero_iff_nil.
      rewrite E in Hb. by apply elem_of_nil in Hb. }
    rewrite Hne. apply elem_of_app. right. apply elem_of_cons. right.
    apply list_elem_of_In, in_concat. exists [ErrorReading p].
    split; [| by left]. apply in_map_iff. exists p. split; [done |].
    apply list_elem_of_In, hashed_elem. eauto.
Qed.

Lemma hashed_none (size_dict : list (nat * list string)) :
  Forall (fun e => length (snd e) < 2) size_dict -> hashed size_dict = [].
Proof.
  intros Hall. apply elem_of_nil_inv.
  intros p (sz & paths & He & Hl & _)%hashed_elem.
  apply (proj1 (Forall_forall _ _) Hall) in He. cbn in He. lia.
Qed.

(** X13: when no two files have the same size, the scan reads no file and
    returns no group: it prints only what the inventory prints. *)
Theorem unique_sizes_no_groups (directory : string) (fs : tree)
    (recursive : bool) :
  Forall (fun e => length (snd e) < 2)
         (fst (fst (scan directory fs recursive))) ->
  fst (find_duplicates_by_size_and_hash directory fs recursive) = Some []
  /\ forall p,
       ErrorReading p
         ∉ snd (find_duplicates_by_size_and_hash directory fs recursive).
Proof.
  intros Hall. split.
  - rewrite find_duplicates_spec. rewrite scan_spec in Hall. cbn [fst] in Hall.
    f_equal. apply elem_of_nil_inv.
    intros G (gs & ([sz paths] & <- & He)%in_map_iff & HG)%list_elem_of_In%in_concat.
    apply list_elem_of_In in He, HG.
    apply (proj1 (Forall_forall _ _) Hall) in He. cbn [snd] in *.
    unfold groups_of_bucket in HG.
    destruct (Nat.ltb_spec (length paths) 2); [| lia].
    by apply elem_of_nil in HG.
  - intros p. rewrite find_duplicates_out.
    rewrite scan_spec in Hall. cbn [fst] in Hall.
    rewrite (hashed_none _ Hall). cbn [map concat].
    intros [Hw | Hr]%elem_of_app.
    + apply elem_of_cons in Hw as [[=] | Hw]. by apply no_error_warning in Hw.
    + destruct (Nat.eqb _ 0); apply elem_of_cons in Hr as [[=] | Hr];
        by apply elem_of_nil in Hr.
Qed.

Lemma unique_sizes_no_groups_witness :
  fst (find_duplicates_by_size_and_hash "/d" lone_tree true) = Some []
  /\ forall p,
       ErrorReading p
         ∉ snd (find_duplicates_by_size_and_hash "/d" lone_tree true).
Proof.
  apply (unique_sizes_no_groups "/d" lone_tree true).
  vm_compute. repeat constructor.
Defined.

(** ** [compute_md5] and the chunks read *)

Lemma read_loop_chunks (acc : list byte) (chunks : list (list byte))
    (rest : list read_result) :
  Forall (fun c => c <> []) chunks ->
  read_loop acc (map Chunk chunks ++ rest)
  = read_loop (acc ++ concat chunks) rest.
Proof.
  intros Hne. revert acc.
  induction Hne as [|c chunks Hc _ IH]; intros acc.
  - cbn. by rewrite app_nil_r.
  - cbn [map app concat read_loop]. destruct c as [|b c]; [done |].
    by rewrite IH, app_assoc.
Qed.

Lemma compute_md5_content (directory : string) (fs : tree) (p : string)
    (chunks : list (list byte)) :
  open_rb directory fs p = Some (map Chunk chunks) ->
  Forall (fun c => c <> []) chunks ->
  compute_md5 directory fs p = (MD5.hexdigest (concat chunks), []).
Proof.
  intros Hopen Hne. unfold compute_md5. rewrite Hopen.
  rewrite <- (app_nil_r (map Chunk chunks)).
  by rewrite (read_loop_chunks [] chunks [] Hne).
Qed.

(** X14: the digest of a file that is read to its end is the digest of its
    content, however the reads cut it into chunks: two files with the same
    content get the same digest and no error line. *)
Theorem digest_independent_of_chunking (directory : string) (fs : tree)
    (p q : string) (cp cq : list (list byte)) :
  open_rb directory fs p = Some (map Chunk cp) ->
  open_rb directory fs q = Some (map Chunk cq) ->
  Forall (fun c => c <> []) cp -> Forall (fun c => c <> []) cq ->
  concat cp = concat cq ->
  compute_md5 directory fs p = (MD5.hexdigest (concat cp), [])
  /\ fst (compute_md5 directory fs q) = fst (compute_md5 directory fs p)
  /\ same_content_or_name directory fs p q = true.
Proof.
  intros Hp Hq Hcp Hcq Heq.
  pose proof (compute_md5_content directory fs p cp Hp Hcp) as Ep.
  pose proof (compute_md5_content directory fs q cq Hq Hcq) as Eq.
  split; [done |]. unfold same_content_or_name. rewrite Ep, Eq, Heq.
  split; [done |]. cbn [fst]. by rewrite String.eqb_refl.
Qed.

Lemma digest_independent_of_chunking_witness :
  compute_md5 "/d" chunked_tree "/d/one.mp4"
    = (MD5.hexdigest (concat [list_byte_of_string "ABCD"]), [])
  /\ fst (compute_md5 "/d" chunked_tree "/d/two.mp4")
     = fst (compute_md5 "/d" chunked_tree "/d/one.mp4")
  /\ same_content_or_name "/d" chunked_tree "/d/one.mp4" "/d/two.mp4" = true.
Proof.
  apply (digest_independent_of_chunking "/d" chunked_tree
           "/d/one.mp4" "/d/two.mp4"
           [list_byte_of_string "ABCD"]
           [list_byte_of_string "AB"; list_byte_of_string "CD"]).
  - reflexivity.
  - reflexivity.
  - repeat constructor; discriminate.
  - repeat constructor; discriminate.
  - reflexivity.
Defined.

(** ** More on the decision *)

Lemma retention_split (cwd : string) (keep : option string)
    (G retained trash : list string) :
  retention cwd keep G = Some (retained, trash) ->
  retained <> []
  /\ (forall r, r ∈ retained -> r ∈ G /\ r ∉ trash)
  /\ (forall x, x ∈ trash -> x ∈ G).
Proof.
  intros Hret.
  assert (Hne : G <> []) by (intros ->; by rewrite retention_nil in Hret).
  destruct (retention_cases cwd keep G Hne)
    as [(kd & -> & _ & Him & Hret') | (k & Hfd & _ & _ & Hret')];
    rewrite Hret' in Hret; injection Hret as <- <-.
  - split; [done |]. split.
    + intros r [Hin HG]%list_elem_of_filter. split; [done |].
      intros [_ Hout]%candidates_outside. apply Is_true_true in Hin.
      congruence.
    + by intros x [? _]%candidates_outside.
  - split; [done |]. split.
    + intros r ->%list_elem_of_singleton.
      split; [by eapply first_deepest_elem |].
      intros [Hn _]%list_elem_of_filter. by rewrite String.eqb_refl in Hn.
    + by intros x [_ ?]%list_elem_of_filter.
Qed.

(** X15: when every member of a group is inside the keep-directory, the
    whole group is retained and nothing of it is trashed. *)
Theorem all_protected_nothing_trashed (cwd kd : string) (group : list string) :
  kd <> "" -> group <> [] ->
  (forall f, f ∈ group -> is_in_directory cwd f kd = true) ->
  retention cwd (Some kd) group = Some (group, []).
Proof.
  intros Hkd Hne Hin. unfold retention. cbn [truthy].
  apply String.eqb_neq in Hkd. rewrite Hkd. cbn [negb].
  rewrite (filter_all _ group);
    [| intros f Hf; apply Is_true_true; by apply Hin].
  destruct group as [|x group]; [done |].
  f_equal. f_equal. apply filter_none.
  intros y Hy Hn. apply negb_prop_elim in Hn. apply Hn.
  apply Is_true_true. by apply py_in_spec.
Qed.

Lemma all_protected_nothing_trashed_witness :
  retention "/" (Some "/a") ["/a/x.mp4"; "/a/b/x.mp4"]
  = Some (["/a/x.mp4"; "/a/b/x.mp4"], []).
Proof.
  apply (all_protected_nothing_trashed "/" "/a" ["/a/x.mp4"; "/a/b/x.mp4"]).
  - discriminate.
  - discriminate.
  - intros f Hf. apply list_elem_of_In in Hf. simpl in Hf.
    destruct Hf as [<- | [<- | []]]; reflexivity.
Defined.

Lemma filter_other (k : string) (l : list string) :
  k ∉ l -> filter (fun f => negb (String.eqb f k)) l = l.
Proof.
  intros Hk. apply filter_all. intros x Hx. apply negb_prop_intro.
  intros E%Is_true_true%String.eqb_eq. by subst x.
Qed.

(** X16: without keep-directory, a group of different paths loses all its
    members but one, and the one retained is nowhere less deep than the
    others. *)
Theorem depth_rule_keeps_one (cwd : string) (group : list string) :
  group <> [] -> NoDup group ->
  exists keep_file files_to_trash,
    retention cwd None group = Some ([keep_file], files_to_trash)
    /\ group ≡ₚ keep_file :: files_to_trash
    /\ forall x, x ∈ group -> get_depth cwd x <= get_depth cwd keep_file.
Proof.
  intros Hne Hnd.
  destruct (retention_cases cwd None group Hne)
    as [(kd & [=] & _) | (k & Hfd & _ & _ & Hret)].
  exists k, (filter (fun f => negb (String.eqb f k)) group).
  split; [done |]. split; [| intros x; by apply first_deepest_max].
  destruct Hfd as (l1 & l2 & -> & _ & _).
  apply NoDup_app in Hnd as (_ & Hl1 & [Hl2 _]%NoDup_cons).
  rewrite filter_app, filter_cons.
  destruct (decide (negb (String.eqb k k))) as [Hn | _];
    [by rewrite String.eqb_refl in Hn |].
  rewrite (filter_other k l1), (filter_other k l2); [| done |].
  - symmetry. apply Permutation_middle.
  - intros Hk. apply (Hl1 k Hk). apply elem_of_cons. by left.
Qed.

Lemma depth_rule_keeps_one_witness :
  exists keep_file files_to_trash,
    retention "/" None ["/a/x.mp4"; "/a/b/c/x.mp4"; "/a/b/x.mp4"]
      = Some ([keep_file], files_to_trash)
    /\ ["/a/x.mp4"; "/a/b/c/x.mp4"; "/a/b/x.mp4"]
         ≡ₚ keep_file :: files_to_trash
    /\ forall x, x ∈ ["/a/x.mp4"; "/a/b/c/x.mp4"; "/a/b/x.mp4"] ->
         get_depth "/" x <= get_depth "/" keep_file.
Proof.
  apply (depth_rule_keeps_one "/"
           ["/a/x.mp4"; "/a/b/c/x.mp4"; "/a/b/x.mp4"]).
  - discriminate.
  - refine (bool_decide_eq_true_1 _ _). vm_compute. reflexivity.
Defined.

(** ** The whole run, once more *)

Lemma omap_nil {A B : Type} (f : A -> option B) (l : list A) :
  (forall x, x ∈ l -> f x = None) -> omap f l = [].
Proof.
  intros H. apply elem_of_nil_inv. intros y (x & Hx & Hy)%list_elem_of_omap.
  by rewrite (H x Hx) in Hy.
Qed.

(** The scan prints no disposal line. *)
Lemma disposals_scan (directory : string) (fs : tree) (recursive : bool) :
  disposals (snd (find_duplicates_by_size_and_hash directory fs recursive))
  = [].
Proof.
  rewrite find_duplicates_out. unfold disposals. apply omap_nil.
  intros l [Hw | Hr]%elem_of_app.
  - apply elem_of_cons in Hw as [-> | Hw]; [done |].
    apply list_elem_of_omap in Hw as (e & _ & He). unfold entry_warning in He.
    destruct (isfile (snd e)); [| done].
    destruct (getsize (snd e)); [done |]. by injection He as <-.
  - destruct (Nat.eqb _ 0).
    + apply elem_of_cons in Hr as [-> | Hr]; [done | by apply elem_of_nil in Hr].
    + apply elem_of_cons in Hr as [-> | Hr]; [done |].
      apply list_elem_of_In, in_concat in Hr
        as (pr & (q & <- & _)%in_map_iff & Hin).
      destruct (compute_md5_lines directory fs q) as [E | E];
        rewrite E in Hin; cbn in Hin; [done |].
      by destruct Hin as [<- | []].
Qed.

Lemma disposal_line_iff (out : list line) (fp : string) (o : bool) :
  (fp, o) ∈ disposals out
  <-> (if o then Trashed fp else FailedToTrash fp) ∈ out.
Proof.
  unfold disposals. rewrite list_elem_of_omap. split.
  - intros (l & Hl & Hd). destruct l; try done; injection Hd as <- <-; done.
  - intros Hl. eexists. split; [done |]. by destruct o.
Qed.

(** [main] as one scan followed by one call of the trash facility per
    discard. *)
Lemma main_run (send2trash : string -> tree -> tree * bool)
    (cwd directory : string) (recursive_arg : bool)
    (keep_arg : option string) (fs : tree) :
  exists groups out printed fs' outcomes,
    find_duplicates_by_size_and_hash directory fs
      (recursive_of keep_arg recursive_arg) = (Some groups, out)
    /\ attempt_each send2trash
         (all_discards cwd (keep_directory_of cwd keep_arg) groups) fs
       = (fs', outcomes)
    /\ main send2trash cwd directory recursive_arg keep_arg fs
       = (fs', out ++ printed, Some (count_occ bool_dec outcomes true))
    /\ disposals printed
       = zip (all_discards cwd (keep_directory_of cwd keep_arg) groups)
             outcomes
    /\ length outcomes
       = length (all_discards cwd (keep_directory_of cwd keep_arg) groups).
Proof.
  destruct (main_unfold send2trash cwd directory recursive_arg keep_arg fs)
    as (groups & out & Hfind & Hmain).
  exists groups, out. rewrite Hmain.
  assert (Hne : Forall (fun g => g <> []) groups).
  { apply (found_groups_nonempty directory fs
             (recursive_of keep_arg recursive_arg)). by rewrite Hfind. }
  destruct groups as [|G groups].
  { exists [], fs, []. by rewrite app_nil_r. }
  unfold handle_duplicates.
  pose proof (handle_loop_spec send2trash cwd (G :: groups)
                (keep_directory_of cwd keep_arg) fs [] 0 Hne) as H.
  destruct (attempt_each send2trash _ fs) as [fs' outcomes].
  destruct H as (printed & -> & Hd & Hl).
  exists printed, fs', outcomes. done.
Qed.

(** X17: [main] does not end on the exception of [handle_duplicates], since
    the scan returns no empty group: its result, the count of
    [handle_duplicates] or 0 when it stops on finding no group, is the
    number of files reported as trashed. *)
Theorem main_returns_count (send2trash : string -> tree -> tree * bool)
    (cwd directory : string) (recursive_arg : bool)
    (keep_arg : option string) (fs : tree) :
  exists fs' out n,
    main send2trash cwd directory recursive_arg keep_arg fs
      = (fs', out, Some n)
    /\ n = length (filter (fun d => snd d = true) (disposals out)).
Proof.
  destruct (main_run send2trash cwd directory recursive_arg keep_arg fs)
    as (groups & out & printed & fs' & outcomes & Hfind & _ & -> & Hd & Hl).
  eexists _, _, _. split; [done |].
  rewrite disposals_app.
  replace out
    with (snd (find_duplicates_by_size_and_hash directory fs
                 (recursive_of keep_arg recursive_arg)))
    by (by rewrite Hfind).
  rewrite disposals_scan, app_nil_l, Hd. clear Hd Hfind.
  generalize dependent (all_discards cwd (keep_directory_of cwd keep_arg)
                          groups).
  induction outcomes as [|o outcomes IH]; intros [|fp fps] Hl; try done.
  cbn [zip zip_with count_occ]. rewrite filter_cons. cbn [snd].
  destruct o.
  - destruct (bool_dec true true); [| done].
    destruct (decide (true = true)); [| done].
    cbn [length]. f_equal. apply IH. cbn in Hl. lia.
  - destruct (bool_dec false true); [done |].
    destruct (decide (false = true)); [done |].
    apply IH. cbn in Hl. lia.
Qed.

(** X18: every file [main] hands to the trash facility is a discard of a
    group the scan returned, and that group has a member that is retained
    and not a discard of the group. *)
Theorem main_trashes_only_duplicates
    (send2trash : string -> tree -> tree * bool)
    (cwd directory : string) (recursive_arg : bool)
    (keep_arg : option string) (fs : tree) (fp : string) :
  Trashed fp
    ∈ snd (fst (main send2trash cwd directory recursive_arg keep_arg fs))
  \/ FailedToTrash fp
       ∈ snd (fst (main send2trash cwd directory recursive_arg keep_arg fs)) ->
  exists groups G retained files_to_trash r,
    fst (find_duplicates_by_size_and_hash directory fs
           (recursive_of keep_arg recursive_arg)) = Some groups
    /\ G ∈ groups /\ 2 <= length G
    /\ retention cwd (keep_directory_of cwd keep_arg) G
       = Some (retained, files_to_trash)
    /\ fp ∈ files_to_trash /\ fp ∈ G
    /\ r ∈ retained /\ r ∈ G /\ r ∉ files_to_trash.
Proof.
  destruct (main_run send2trash cwd directory recursive_arg keep_arg fs)
    as (groups & out & printed & fs' & outcomes & Hfind & _ & -> & Hd & _).
  cbn [fst snd]. intros Hline.
  assert (Hg : fst (find_duplicates_by_size_and_hash directory fs
                      (recursive_of keep_arg recursive_arg)) = Some groups)
    by (by rewrite Hfind).
  assert (exists o, (fp, o) ∈ disposals printed) as [o Ho].
  { apply disposal_line in Hline as [o Ho]. exists o.
    rewrite disposals_app in Ho.
    replace out
      with (snd (find_duplicates_by_size_and_hash directory fs
                   (recursive_of keep_arg recursive_arg))) in Ho
      by (by rewrite Hfind).
    by rewrite disposals_scan in Ho. }
  rewrite Hd in Ho. apply elem_of_zip_fst in Ho.
  apply discard_origin in Ho as (G & ret & tr & HG & _ & Hret & Hfp).
  destruct (retention_split _ _ _ _ _ Hret) as (Hne & Hkept & Htr).
  destruct ret as [|r ret]; [done |].
  destruct (Hkept r) as [HrG Hrt]; [apply elem_of_cons; by left |].
  exists groups, G, (r :: ret), tr, r.
  split; [done |]. split; [done |]. split.
  { apply (found_groups _ _ _ _ Hg) in HG as (sz & paths & _ & HG).
    by eapply groups_of_bucket_long. }
  split; [done |]. split; [done |]. split; [by apply Htr |].
  split; [apply elem_of_cons; by left |]. done.
Qed.

Lemma main_trashes_only_duplicates_witness :
  exists groups G retained files_to_trash r,
    fst (find_duplicates_by_size_and_hash "/a" scenario_tree
           (recursive_of None true)) = Some groups
    /\ G ∈ groups /\ 2 <= length G
    /\ retention "/" (keep_directory_of "/" None) G
       = Some (retained, files_to_trash)
    /\ "/a/x.mp4" ∈ files_to_trash /\ "/a/x.mp4" ∈ G
    /\ r ∈ retained /\ r ∈ G /\ r ∉ files_to_trash.
Proof.
  apply (main_trashes_only_duplicates (fs_send2trash no_links "/a" []) "/" "/a" true
           None scenario_tree "/a/x.mp4").
  left. apply list_elem_of_In. vm_compute. do 6 right. left. reflexivity.
Defined.

Lemma elem_of_returned_for (fps : list string) (outcomes : list bool)
    (p : string) :
  p ∈ returned_for fps outcomes <-> (p, true) ∈ zip fps outcomes.
Proof.
  unfold returned_for. rewrite list_elem_of_omap. split.
  - intros ([q o] & Hin & Hd). cbn [fst snd] in Hd.
    destruct o; [| done]. by injection Hd as ->.
  - intros Hin. exists (p, true). done.
Qed.

(** The tree the calls of the trash facility leave: the files for which a
    call returned are gone, and nothing else has changed. *)
Lemma attempt_each_removed (send2trash : string -> tree -> tree * bool)
    (via : links) (directory : string) (fps : list string) (fs fs' : tree)
    (outcomes : list bool) :
  (forall fp w w', send2trash fp w = (w', true) ->
                   w' = remove_path via directory w fp) ->
  (forall fp w w', send2trash fp w = (w', false) -> w' = w) ->
  attempt_each send2trash fps fs = (fs', outcomes) ->
  fs' = remove_all via directory fs (returned_for fps outcomes).
Proof.
  intros Hrem Hfail. revert fs outcomes.
  induction fps as [|fp fps IH]; intros fs outcomes.
  - cbn. by intros [= <- <-].
  - cbn [attempt_each]. destruct (send2trash fp fs) as [w1 b] eqn:E1.
    destruct (attempt_each send2trash fps w1) as [w2 o] eqn:E2.
    intros [= <- <-]. rewrite (IH w1 o E2).
    unfold returned_for. cbn [zip zip_with]. rewrite omap_cons_list.
    cbn [fst snd]. destruct b.
    + by rewrite (Hrem _ _ _ E1).
    + by rewrite (Hfail _ _ _ E1).
Qed.

(** What a scan finds after several removals: the files found before that
    are none of the removed ones and resolve through none of them. *)
Lemma inventory_after (via : links) (directory : string) (fs : tree)
    (recursive : bool) (gone : list string) (sz : nat) (p : string) :
  (sz, p) ∈ inventory directory (remove_all via directory fs gone) recursive
  <-> exists n,
        (p, n) ∈ visited directory fs recursive
        /\ isfile n = true /\ getsize n = Some sz
        /\ (p ∉ gone)
        /\ forall q, q ∈ resolves_through via p n -> q ∉ gone.
Proof.
  rewrite inventory_entry, file_entries_remove_all. split.
  - intros (n & Hin & Hf & Hs).
    apply strike_all_file in Hin as (Hin & Hp & Hvia); [| done].
    exists n. split; [by apply file_entries_visited |].
    split; [done |]. split; [done |]. split; [done |].
    intros q Hq Hg. by apply (Hvia q).
  - intros (n & Hin & Hf & Hs & Hp & Hvia). exists n.
    split; [| done]. apply strike_all_kept; [| done |].
    + by apply file_entries_visited.
    + intros q Hg Hq. by apply (Hvia q).
Qed.

(** The tree [main] leaves, for a trash facility that keeps its trash
    outside the scanned tree. *)
Lemma main_tree (send2trash : string -> tree -> tree * bool) (via : links)
    (cwd directory : string) (recursive_arg : bool)
    (keep_arg : option string) (fs : tree) :
  (forall fp w w', send2trash fp w = (w', true) ->
                   w' = remove_path via directory w fp) ->
  (forall fp w w', send2trash fp w = (w', false) -> w' = w) ->
  exists groups gone,
    fst (find_duplicates_by_size_and_hash directory fs
           (recursive_of keep_arg recursive_arg)) = Some groups
    /\ fst (fst (main send2trash cwd directory recursive_arg keep_arg fs))
       = remove_all via directory fs gone
    /\ (forall p,
          p ∈ gone
          <-> Trashed p
                ∈ snd (fst (main send2trash cwd directory recursive_arg
                                 keep_arg fs)))
    /\ (forall p,
          p ∈ gone ->
          p ∈ all_discards cwd (keep_directory_of cwd keep_arg) groups).
Proof.
  intros Hrem Hfail.
  destruct (main_run send2trash cwd directory recursive_arg keep_arg fs)
    as (groups & out & printed & fs' & outcomes & Hfind & Hatt & -> & Hd & _).
  exists groups,
    (returned_for
       (all_discards cwd (keep_directory_of cwd keep_arg) groups) outcomes).
  cbn [fst snd]. split; [by rewrite Hfind |].
  split; [by apply (attempt_each_removed send2trash) |]. split.
  - intros p. rewrite elem_of_returned_for, <- Hd.
    rewrite <- (disposal_line_iff (out ++ printed) p true), disposals_app.
    replace out
      with (snd (find_duplicates_by_size_and_hash directory fs
                   (recursive_of keep_arg recursive_arg)))
      by (by rewrite Hfind).
    by rewrite disposals_scan.
  - intros p Hp%elem_of_returned_for. by eapply elem_of_zip_fst.
Qed.

Lemma fs_send2trash_fails (via : links) (directory : string)
    (locked : list string) (fp : string) (w w' : tree) :
  fs_send2trash via directory locked fp w = (w', false) -> w' = w.
Proof.
  unfold fs_send2trash. destruct (py_in fp locked); [by intros [=] |].
  destruct (locate directory w fp); by intros [=].
Qed.

(** X19: when the trash lies outside the scanned tree, so that a successful
    call of the trash facility does no more than take the file out of the
    tree, and a failed call leaves the tree as it is, a scan of the tree
    after the run finds the files found before the run, less those reported
    as trashed and less the links that resolve through a file reported as
    trashed, which dangle. *)
Theorem run_removes_reported_files
    (send2trash : string -> tree -> tree * bool) (via : links)
    (cwd directory : string) (recursive_arg : bool)
    (keep_arg : option string) (fs : tree) (recursive : bool)
    (sz : nat) (p : string) :
  (forall fp w w', send2trash fp w = (w', true) ->
                   w' = remove_path via directory w fp) ->
  (forall fp w w', send2trash fp w = (w', false) -> w' = w) ->
  (sz, p) ∈ inventory directory
              (fst (fst (main send2trash cwd directory recursive_arg
                              keep_arg fs))) recursive
  <-> exists n,
        (p, n) ∈ visited directory fs recursive
        /\ isfile n = true /\ getsize n = Some sz
        /\ (Trashed p
             ∉ snd (fst (main send2trash cwd directory recursive_arg
                              keep_arg fs)))
        /\ forall q, q ∈ resolves_through via p n ->
             Trashed q
               ∉ snd (fst (main send2trash cwd directory recursive_arg
                                keep_arg fs)).
Proof.
  intros Hrem Hfail.
  destruct (main_tree send2trash via cwd directory recursive_arg keep_arg fs
              Hrem Hfail) as (groups & gone & _ & -> & Hgone & _).
  rewrite inventory_after. split.
  - intros (n & Hin & Hf & Hs & Hp & Hvia). exists n.
    split; [done |]. split; [done |]. split; [done |].
    split; [by rewrite <- Hgone |].
    intros q Hq. rewrite <- Hgone. by apply Hvia.
  - intros (n & Hin & Hf & Hs & Hp & Hvia). exists n.
    split; [done |]. split; [done |]. split; [done |].
    split; [by rewrite Hgone |].
    intros q Hq. rewrite Hgone. by apply Hvia.
Qed.

Lemma run_removes_reported_files_witness :
  (4, "/d/sub/l.mp4")
    ∈ inventory "/d"
        (fst (fst (main (fs_send2trash alias_links "/d" []) "/" "/d" true
                        None alias_tree))) true
  <-> exists n,
        ("/d/sub/l.mp4", n) ∈ visited "/d" alias_tree true
        /\ isfile n = true /\ getsize n = Some 4
        /\ (Trashed "/d/sub/l.mp4"
             ∉ snd (fst (main (fs_send2trash alias_links "/d" []) "/" "/d"
                              true None alias_tree)))
        /\ forall q, q ∈ resolves_through alias_links "/d/sub/l.mp4" n ->
             Trashed q
               ∉ snd (fst (main (fs_send2trash alias_links "/d" []) "/" "/d"
                                true None alias_tree)).
Proof.
  apply (run_removes_reported_files (fs_send2trash alias_links "/d" [])
           alias_links "/" "/d" true None alias_tree true 4 "/d/sub/l.mp4").
  - apply fs_send2trash_removes.
  - apply fs_send2trash_fails.
Defined.

(** X20: under the same two conditions on the trash facility, with a
    keep-directory, a file found inside the keep-directory is still found
    after the run when, being a link, it resolves through no entry of the
    scanned tree outside the keep-directory. *)
Theorem keep_directory_files_survive
    (send2trash : string -> tree -> tree * bool) (via : links)
    (cwd directory : string) (recursive_arg : bool) (kd : string)
    (fs : tree) (recursive : bool) (sz : nat) (p : string) (n : node) :
  (forall fp w w', send2trash fp w = (w', true) ->
                   w' = remove_path via directory w fp) ->
  (forall fp w w', send2trash fp w = (w', false) -> w' = w) ->
  kd <> "" ->
  (p, n) ∈ visited directory fs recursive ->
  isfile n = true -> getsize n = Some sz ->
  is_in_directory cwd p (OsPath.abspath cwd kd) = true ->
  (forall q, q ∈ resolves_through via p n ->
             is_in_directory cwd q (OsPath.abspath cwd kd) = true) ->
  (sz, p) ∈ inventory directory
              (fst (fst (main send2trash cwd directory recursive_arg
                              (Some kd) fs))) recursive.
Proof.
  intros Hrem Hfail Hkd Hin Hf Hs Hinside Hvia.
  destruct (main_tree send2trash via cwd directory recursive_arg (Some kd) fs
              Hrem Hfail) as (groups & gone & _ & -> & _ & Hdis).
  assert (Hout : forall q, q ∈ gone ->
            is_in_directory cwd q (OsPath.abspath cwd kd) = false).
  { intros q Hq%Hdis. revert Hq.
    unfold keep_directory_of. cbn [truthy option_map].
    apply String.eqb_neq in Hkd. rewrite Hkd. cbn [negb]. intros Hq.
    apply discard_outside in Hq; [done |].
    unfold OsPath.abspath. apply normpath_nonempty. }
  apply inventory_after. exists n.
  split; [done |]. split; [done |]. split; [done |]. split.
  - intros Hp%Hout. congruence.
  - intros q Hq Hg%Hout. rewrite (Hvia q Hq) in Hg. done.
Qed.

Lemma keep_directory_files_survive_witness :
  (4, "/a/b/x.mp4")
    ∈ inventory "/a"
        (fst (fst (main (fs_send2trash no_links "/a" []) "/" "/a" false
                        (Some "/a/b") scenario_tree))) true.
Proof.
  apply (keep_directory_files_survive (fs_send2trash no_links "/a" [])
           no_links "/" "/a" false "/a/b" scenario_tree true 4 "/a/b/x.mp4"
           (plain_file 4 "H1H1")).
  - apply fs_send2trash_removes.
  - apply fs_send2trash_fails.
  - discriminate.
  - apply list_elem_of_In. vm_compute. right. right. left. reflexivity.
  - reflexivity.
  - reflexivity.
  - reflexivity.
  - intros q Hq. apply list_elem_of_In in Hq. simpl in Hq. destruct Hq.
Defined.

Lemma NoDup_concat_unique {A : Type} (l : list (list A)) (G G' : list A)
    (x : A) :
  NoDup (concat l) -> G ∈ l -> G' ∈ l -> x ∈ G -> x ∈ G' -> G = G'.
Proof.
  induction l as [|h l IH]; intros Hn HG HG' Hx Hx';
    [by apply elem_of_nil in HG |].
  cbn [concat] in Hn. apply NoDup_app in Hn as (_ & Hdis & Hn).
  assert (Hcat : forall H, H ∈ l -> x ∈ H -> x ∈ concat l).
  { intros H HH HxH. apply list_elem_of_In, in_concat. exists H.
    split; by apply list_elem_of_In. }
  apply elem_of_cons in HG as [-> | HG];
    apply elem_of_cons in HG' as [-> | HG'].
  - done.
  - destruct (Hdis x Hx). by apply (Hcat G').
  - destruct (Hdis x Hx'). by apply (Hcat G).
  - by apply IH.
Qed.

(** X21: under the same two conditions on the trash facility, when the paths
    the scan collects are pairwise different and no entry the scan visits
    is a link that resolves through an entry of the scanned tree, every
    group the scan returned has a member that is still found in the tree
    after the run: [main] then never removes all the copies. *)
Theorem every_group_keeps_a_member
    (send2trash : string -> tree -> tree * bool) (via : links)
    (cwd directory : string) (recursive_arg : bool)
    (keep_arg : option string) (fs : tree) (groups : list (list string))
    (G : list string) :
  (forall fp w w', send2trash fp w = (w', true) ->
                   w' = remove_path via directory w fp) ->
  (forall fp w w', send2trash fp w = (w', false) -> w' = w) ->
  NoDup (map snd (inventory directory fs
                    (recursive_of keep_arg recursive_arg))) ->
  (forall p n,
     (p, n) ∈ visited directory fs (recursive_of keep_arg recursive_arg) ->
     resolves_through via p n = []) ->
  fst (find_duplicates_by_size_and_hash directory fs
         (recursive_of keep_arg recursive_arg)) = Some groups ->
  G ∈ groups ->
  exists sz p,
    p ∈ G
    /\ (sz, p) ∈ inventory directory
                   (fst (fst (main send2trash cwd directory recursive_arg
                                   keep_arg fs)))
                   (recursive_of keep_arg recursive_arg).
Proof.
  intros Hrem Hfail Hn Hlinks Hg HG.
  destruct (main_tree send2trash via cwd directory recursive_arg keep_arg fs
              Hrem Hfail) as (groups' & gone & Hg' & -> & _ & Hdiscards).
  rewrite Hg in Hg'. injection Hg' as <-.
  assert (Hdis : NoDup (concat groups)).
  { pose proof (find_duplicates_spec directory fs
                  (recursive_of keep_arg recursive_arg)) as Hs.
    rewrite Hg in Hs. injection Hs as ->.
    by apply inventory_groups_NoDup. }
  assert (HGne : G <> []).
  { apply found_groups_nonempty in Hg.
    by apply (proj1 (Forall_forall _ _) Hg). }
  destruct (retention_defined cwd (keep_directory_of cwd keep_arg) G HGne)
    as (ret & tr & Hret).
  destruct (retention_split _ _ _ _ _ Hret) as (Hne & Hkept & _).
  destruct ret as [|k ret]; [done |].
  destruct (Hkept k) as [HkG Hkt]; [apply elem_of_cons; by left |].
  pose proof HG as HG0.
  apply (found_groups _ _ _ _ Hg) in HG0 as (sz & paths & Hb & HGb).
  exists sz, k. split; [done |].
  assert (Hinv : (sz, k) ∈ inventory directory fs
                             (recursive_of keep_arg recursive_arg)).
  { apply group_by_spec in Hb as [-> _]. apply values_of_elem.
    by eapply bucket_group_subset. }
  apply inventory_elem in Hinv as (n & Hv & Hf & Hs).
  apply inventory_after. exists n.
  split; [done |]. split; [done |]. split; [done |]. split.
  - intros Hz%Hdiscards.
    apply discard_origin in Hz as (G' & ret' & tr' & HG' & _ & Hret' & Hk').
    destruct (retention_split _ _ _ _ _ Hret') as (_ & _ & Hsub).
    assert (G = G')
      by (apply (NoDup_concat_unique groups G G' k); auto).
    subst G'. rewrite Hret in Hret'. injection Hret' as <- <-. done.
  - intros q Hq. rewrite (Hlinks k n Hv) in Hq. by apply elem_of_nil in Hq.
Qed.

Lemma every_group_keeps_a_member_witness :
  exists sz p,
    p ∈ ["/a/x.mp4"; "/a/b/x.mp4"]
    /\ (sz, p) ∈ inventory "/a"
                   (fst (fst (main (fs_send2trash no_links "/a" []) "/" "/a"
                                   true None scenario_tree)))
                   (recursive_of None true).
Proof.
  apply (every_group_keeps_a_member (fs_send2trash no_links "/a" [])
           no_links "/" "/a" true None scenario_tree
           [["/a/x.mp4"; "/a/b/x.mp4"]]).
  - apply fs_send2trash_removes.
  - apply fs_send2trash_fails.
  - refine (bool_decide_eq_true_1 _ _). vm_compute. reflexivity.
  - intros p n _. destruct n as [| |[]|]; reflexivity.
  - vm_compute. reflexivity.
  - apply list_elem_of_In. simpl. left. reflexivity.
Defined.

Example ex_link_dangles :
  find_duplicates_by_size_and_hash "/d" alias_tree true
    = (Some [["/d/f.mp4"; "/d/sub/l.mp4"]],
       [ScanningDirectory "/d"; FinishedScanning 2])
  /\ main (fs_send2trash alias_links "/d" []) "/" "/d" true None alias_tree
     = ([("sub", Directory [("l.mp4", Symlink Dangling)])],
        [ScanningDirectory "/d"; FinishedScanning 2; FoundDuplicateSet;
         Member "/d/f.mp4"; Member "/d/sub/l.mp4";
         RetainingDeepest "/d/sub/l.mp4"; Trashed "/d/f.mp4"], Some 1)
  /\ inventory "/d" [("sub", Directory [("l.mp4", Symlink Dangling)])] true
     = [].
Proof. by vm_compute. Qed.

(** ** Path compression *)

Lemma find_length (fuel : nat) (parent parent' : list nat) (x r : nat) :
  UnionFind.find fuel parent x = Some (parent', r) ->
  length parent' = length parent.
Proof.
  revert parent parent' x r.
  induction fuel as [|fuel IH]; intros parent parent' x r; [done |].
  cbn [UnionFind.find]. destruct (parent !! x) as [p|]; [| done].
  destruct (negb (Nat.eqb p x)); [| by intros [= <- _]].
  destruct (UnionFind.find fuel parent p) as [[parent1 r1]|] eqn:E; [| done].
  intros [= <- _]. rewrite length_insert. by eapply IH.
Qed.

(** X22: when [find(x)] returns a root, the root is its own parent and [x]
    now points at it: the path is compressed, and [parent] keeps its
    length. *)
Theorem find_compresses_path (fuel : nat) (parent parent' : list nat)
    (x r : nat) :
  UnionFind.find fuel parent x = Some (parent', r) ->
  length parent' = length parent
  /\ parent' !! x = Some r
  /\ parent' !! r = Some r.
Proof.
  intros Hfind. split; [by eapply find_length |]. revert parent parent' x r Hfind.
  induction fuel as [|fuel IH]; intros parent parent' x r; [done |].
  cbn [UnionFind.find]. destruct (parent !! x) as [p|] eqn:Hx; [| done].
  destruct (Nat.eqb_spec p x) as [-> | Hne]; cbn [negb].
  { by intros [= <- <-]. }
  destruct (UnionFind.find fuel parent p) as [[parent1 r1]|] eqn:E; [| done].
  intros [= <- <-].
  pose proof (find_length _ _ _ _ _ E) as Hlen.
  pose proof (lookup_lt_Some _ _ _ Hx) as Hlt.
  destruct (IH _ _ _ _ E) as [_ Hroot].
  split.
  - apply list_lookup_insert_eq. lia.
  - destruct (decide (x = r1)) as [-> | Hxr].
    + apply list_lookup_insert_eq. lia.
    + by rewrite list_lookup_insert_ne.
Qed.

Lemma find_compresses_path_witness :
  length [0; 0; 0] = length [0; 0; 1]
  /\ [0; 0; 0] !! 2 = Some 0
  /\ [0; 0; 0] !! 0 = Some 0.
Proof.
  apply (find_compresses_path 5 [0; 0; 1] [0; 0; 0] 2 0). reflexivity.
Defined.

(** ** Depth and containment *)

Lemma count_char_app (s t : string) (c : ascii) :
  Str.count_char (s +:+ t) c = Str.count_char s c + Str.count_char t c.
Proof.
  induction s as [|d s IH]; [by rewrite string_app_nil_l |].
  rewrite string_app_cons. cbn [Str.count_char]. rewrite IH. lia.
Qed.

(** X23: a path inside a directory is at least as deep as the directory,
    and deeper when the directory is not a root: the depth rule and the
    keep-directory test measure the same absolute paths. *)
Theorem inside_is_deeper (cwd f d : string) :
  is_in_directory cwd f d = true ->
  get_depth cwd d <= get_depth cwd f
  /\ (is_root (OsPath.abspath cwd d) = false ->
      get_depth cwd d < get_depth cwd f).
Proof.
  unfold is_in_directory, get_depth. rewrite directory_with_sep.
  intros [rest H]%startswith_spec. rewrite H.
  destruct (is_root (OsPath.abspath cwd d)).
  - rewrite count_char_app. split; [lia | done].
  - rewrite !count_char_app.
    change (Str.count_char "/" OsPath.sep) with 1. split; [lia |].
    intros _. lia.
Qed.

Lemma inside_is_deeper_witness :
  get_depth "/" "/a/b" <= get_depth "/" "/a/b/c/y.mp4"
  /\ (is_root (OsPath.abspath "/" "/a/b") = false ->
      get_depth "/" "/a/b" < get_depth "/" "/a/b/c/y.mp4").
Proof.
  apply (inside_is_deeper "/" "/a/b/c/y.mp4" "/a/b"). reflexivity.
Defined.
